(** * TaskTrackPro scraper: a shallow embedding of the extraction engine

    The development follows the Python sources
      - [scraper/utils.py]            (validators, default catalog),
      - [scraper/scraper.py]          ([scrape_website], [extract_field]),
      - [scraper/design_elements.py]  ([extract_colors],
                                       [sort_colors_by_distinctiveness],
                                       [extract_logo], [identify_fonts]).

    Python [str] values are sequences of Unicode code points, modelled as
    lists of [N]; the standard-library and third-party operations the
    sources call ([str] methods, [re], BeautifulSoup queries) are modelled
    by executable functions of the same names. *)

From Stdlib Require Import List NArith ZArith Bool Lia String Ascii.
From Stdlib Require Import Permutation Sorted.
Import ListNotations.

Set Implicit Arguments.

(* ================================================================== *)
(** * Python strings *)
(* ================================================================== *)

Module PyStr.

Local Open Scope N_scope.

Definition char := N.
Definition str := list char.

(** Decoder for the UTF-8 bytes of a string literal of this file, so
    that source literals can be written as they appear in the Python
    text. *)
Fixpoint utf8_decode (need : nat) (acc : N) (bs : list N) : str :=
  match bs with
  | [] => []
  | b :: bs' =>
      match need with
      | S n =>
          let acc' := acc * 64 + b mod 64 in
          match n with
          | O => acc' :: utf8_decode 0 0 bs'
          | S _ => utf8_decode n acc' bs'
          end
      | O =>
          if b <? 128 then b :: utf8_decode 0 0 bs'
          else if b <? 224 then utf8_decode 1 (b mod 32) bs'
          else if b <? 240 then utf8_decode 2 (b mod 16) bs'
          else utf8_decode 3 (b mod 8) bs'
      end
  end.

Definition u (s : string) : str :=
  utf8_decode 0 0 (map N_of_ascii (list_ascii_of_string s)).

Definition str_eqb (a b : str) : bool :=
  if list_eq_dec N.eq_dec a b then true else false.

Lemma str_eqb_eq a b : str_eqb a b = true <-> a = b.
Proof.
  unfold str_eqb. destruct (list_eq_dec N.eq_dec a b); split; congruence.
Qed.

Lemma str_eqb_refl a : str_eqb a a = true.
Proof. apply str_eqb_eq. reflexivity. Qed.

Lemma str_eqb_neq a b : str_eqb a b = false <-> a <> b.
Proof.
  unfold str_eqb. destruct (list_eq_dec N.eq_dec a b); split; congruence.
Qed.

(** [x in xs] for a list of strings. *)
Definition mem (x : str) (xs : list str) : bool := existsb (str_eqb x) xs.

Lemma mem_In x xs : mem x xs = true <-> In x xs.
Proof.
  unfold mem. rewrite existsb_exists. split.
  - intros [y [Hy He]]. apply str_eqb_eq in He. subst. exact Hy.
  - intros H. exists x. split; [exact H | apply str_eqb_refl].
Qed.

(** [str.isspace] for one character; this is also the class [\s] of
    [re] on [str] patterns. *)
Definition is_space (c : char) : bool :=
  ((9 <=? c) && (c <=? 13)) || ((28 <=? c) && (c <=? 32))
  || (c =? 133) || (c =? 160) || (c =? 5760)
  || ((8192 <=? c) && (c <=? 8202))
  || (c =? 8232) || (c =? 8233) || (c =? 8239) || (c =? 8287)
  || (c =? 12288).

Fixpoint lstrip (s : str) : str :=
  match s with
  | c :: s' => if is_space c then lstrip s' else s
  | [] => []
  end.

Definition rstrip (s : str) : str := rev (lstrip (rev s)).

(** [s.strip()] *)
Definition strip (s : str) : str := rstrip (lstrip s).

(** One character of [s.lower()].  Python lower-cases by the Unicode
    tables; the sources use [lower()] on colour literals (ASCII) and to
    test membership in tables of ASCII keywords without the letter k,
    and for both uses the ASCII mapping gives Python's answer: the only
    non-ASCII code point whose lower-case form is all ASCII is U+212A
    (KELVIN SIGN, lower-case k). *)
Definition lower1 (c : char) : char :=
  if (65 <=? c) && (c <=? 90) then c + 32 else c.

Definition lower (s : str) : str := map lower1 s.

(** [s.startswith(p)] *)
Fixpoint startswith (p s : str) : bool :=
  match p with
  | [] => true
  | a :: p' =>
      match s with
      | b :: s' => (a =? b) && startswith p' s'
      | [] => false
      end
  end.

(** [sub in s] *)
Fixpoint contains (sub s : str) : bool :=
  startswith sub s ||
  match s with
  | _ :: s' => contains sub s'
  | [] => false
  end.

(** [s.split(sep)] for a non-empty separator: the pieces between the
    non-overlapping occurrences of [sep], scanned from the left.
    [skip] counts the characters of an occurrence still to be passed,
    [cur] is the piece being read, reversed. *)
Fixpoint split_go (sep : str) (skip : nat) (cur : str) (s : str) : list str :=
  match s with
  | [] => [rev cur]
  | c :: s' =>
      match skip with
      | S n => split_go sep n cur s'
      | O =>
          if startswith sep s
          then rev cur :: split_go sep (pred (List.length sep)) [] s'
          else split_go sep 0 (c :: cur) s'
      end
  end.

Definition split (sep s : str) : list str := split_go sep 0 [] s.

(** [sep.join(parts)] *)
Fixpoint join (sep : str) (parts : list str) : str :=
  match parts with
  | [] => []
  | [p] => p
  | p :: rest => p ++ sep ++ join sep rest
  end.

(** [s.replace(old, new)] for a non-empty [old]: every non-overlapping
    occurrence, scanned from the left, is replaced. *)
Fixpoint replace_go (old new : str) (skip : nat) (s : str) : str :=
  match s with
  | [] => []
  | c :: s' =>
      match skip with
      | S n => replace_go old new n s'
      | O =>
          if startswith old s
          then new ++ replace_go old new (pred (List.length old)) s'
          else c :: replace_go old new 0 s'
      end
  end.

Definition replace (old new s : str) : str := replace_go old new 0 s.

(** Comparison of strings, [a < b] and [a <= b] in Python: lexicographic
    on code points. *)
Fixpoint str_ltb (a b : str) : bool :=
  match a, b with
  | [], [] => false
  | [], _ :: _ => true
  | _ :: _, [] => false
  | x :: a', y :: b' => (x <? y) || ((x =? y) && str_ltb a' b')
  end.

Definition str_leb (a b : str) : bool := negb (str_ltb b a).

(** Truth value of a string: non-empty. *)
Definition truthy (s : str) : bool :=
  match s with [] => false | _ :: _ => true end.

End PyStr.

(* ================================================================== *)
(** * Regular expressions of the [re] module *)
(* ================================================================== *)

(** The patterns of the sources use literals, character classes, greedy
    repetition of a class, optional and alternative sub-patterns,
    capturing groups and the anchors [^] and [$].  The matcher below is
    a backtracking matcher with [re]'s priorities: alternatives are
    tried from the left, repetitions take the longest run first. *)
Module Re.

Import PyStr.
Local Open Scope N_scope.

Inductive regex :=
| Eps
| Chr (p : char -> bool)
| Cat (a b : regex)
| Alt (a b : regex)
| Rep (p : char -> bool) (lo : nat) (hi : option nat)
| Opt (a : regex)
| Grp (i : nat) (a : regex)
| Bol
| Eol.

(** A position of the matcher: the text to the left of it (reversed),
    the text to the right, and the groups captured so far. *)
Record mstate := MState {
  ms_left : str;
  ms_rest : str;
  ms_caps : list (nat * str)
}.

(** The text read between a position with [n0] characters on its left
    and the later position whose left context is [left]. *)
Definition taken (n0 : nat) (left : str) : str :=
  rev (firstn (List.length left - n0) left).

Fixpoint rep_k (A : Type) (p : char -> bool) (lo : nat) (hi : option nat)
    (left rest : str) (k : str -> str -> option A) {struct rest} : option A :=
  let stop := match lo with O => k left rest | S _ => None end in
  match rest with
  | [] => stop
  | c :: rest' =>
      if p c && match hi with Some O => false | _ => true end
      then match rep_k p (pred lo) (option_map pred hi) (c :: left) rest' k with
           | Some r => Some r
           | None => stop
           end
      else stop
  end.

Fixpoint run (A : Type) (r : regex) (st : mstate) (k : mstate -> option A)
    {struct r} : option A :=
  match r with
  | Eps => k st
  | Chr p =>
      match ms_rest st with
      | c :: rest' =>
          if p c then k (MState (c :: ms_left st) rest' (ms_caps st)) else None
      | [] => None
      end
  | Cat a b => run a st (fun st' => run b st' k)
  | Alt a b =>
      match run a st k with
      | Some x => Some x
      | None => run b st k
      end
  | Rep p lo hi =>
      rep_k p lo hi (ms_left st) (ms_rest st)
            (fun l r' => k (MState l r' (ms_caps st)))
  | Opt a =>
      match run a st k with
      | Some x => Some x
      | None => k st
      end
  | Grp i a =>
      run a st (fun st' =>
        k (MState (ms_left st') (ms_rest st')
                  ((i, taken (List.length (ms_left st)) (ms_left st'))
                     :: ms_caps st')))
  | Bol => match ms_left st with [] => k st | _ :: _ => None end
  | Eol =>
      match ms_rest st with
      | [] => k st
      | [c] => if c =? 10 then k st else None
      | _ => None
      end
  end.

(** One match: its text and its groups. *)
Record hit := Hit { hit_text : str; hit_caps : list (nat * str) }.

Definition group (i : nat) (h : hit) : str :=
  match find (fun p => Nat.eqb (fst p) i) (hit_caps h) with
  | Some p => snd p
  | None => []
  end.

(** A match that starts at the position with left context [left];
    [advance] refuses the empty match. *)
Definition match_here (r : regex) (advance : bool) (left rest : str)
  : option hit :=
  run r (MState left rest [])
      (fun st =>
         let t := taken (List.length left) (ms_left st) in
         match t with
         | [] => if advance then None else Some (Hit t (ms_caps st))
         | _ :: _ => Some (Hit t (ms_caps st))
         end).

(** [re.match(r, s)] *)
Definition re_match (r : regex) (s : str) : option hit :=
  match_here r false [] s.

(** [re.search(r, s)]: the match at the leftmost position that has
    one. *)
Fixpoint search_from (r : regex) (left s : str) : option hit :=
  match match_here r false left s with
  | Some h => Some h
  | None =>
      match s with
      | c :: s' => search_from r (c :: left) s'
      | [] => None
      end
  end.

Definition re_search (r : regex) (s : str) : option hit := search_from r [] s.

Definition matches (r : regex) (s : str) : bool :=
  match re_search r s with Some _ => true | None => false end.

(** The scan shared by [re.findall] and [re.sub]: the text cut into the
    characters outside matches and the successive non-overlapping
    matches.  After an empty match the scan looks for a non-empty match
    at the same place before moving on. *)
Inductive piece := Out (c : char) | In_ (h : hit).

Fixpoint scan (r : regex) (skip : nat) (left s : str) : list piece :=
  match s with
  | [] =>
      match skip with
      | O => match match_here r false left [] with
             | Some h => [In_ h]
             | None => []
             end
      | S _ => []
      end
  | c :: s' =>
      match skip with
      | S n => scan r n (c :: left) s'
      | O =>
          match match_here r false left s with
          | None => Out c :: scan r 0 (c :: left) s'
          | Some h =>
              match List.length (hit_text h) with
              | S n => In_ h :: scan r n (c :: left) s'
              | O =>
                  In_ h ::
                  match match_here r true left s with
                  | Some h2 =>
                      In_ h2 :: scan r (pred (List.length (hit_text h2)))
                                     (c :: left) s'
                  | None => Out c :: scan r 0 (c :: left) s'
                  end
              end
          end
      end
  end.

Definition hits (ps : list piece) : list hit :=
  flat_map (fun p => match p with In_ h => [h] | Out _ => [] end) ps.

(** [re.findall(r, s)] for a pattern without group: the matched texts. *)
Definition findall (r : regex) (s : str) : list str :=
  map hit_text (hits (scan r 0 [] s)).

(** [re.findall(r, s)] for a pattern with one group: the group's texts. *)
Definition findall1 (r : regex) (s : str) : list str :=
  map (group 1) (hits (scan r 0 [] s)).

(** [re.sub(r, repl, s)] for a replacement text without back-reference. *)
Definition re_sub (r : regex) (repl : str) (s : str) : str :=
  flat_map (fun p => match p with In_ _ => repl | Out c => [c] end)
           (scan r 0 [] s).

(** ** Building patterns *)

Fixpoint seq (rs : list regex) : regex :=
  match rs with
  | [] => Eps
  | [r] => r
  | r :: rs' => Cat r (seq rs')
  end.

Fixpoint alt (rs : list regex) : regex :=
  match rs with
  | [] => Chr (fun _ => false)
  | [r] => r
  | r :: rs' => Alt r (alt rs')
  end.

Definition is_char (c : char) : char -> bool := N.eqb c.

(** A literal text. *)
Definition Lit (s : str) : regex := seq (map (fun c => Chr (is_char c)) s).

(** A character of a pattern compiled with [re.I], for the characters
    such patterns have in the sources: lower-case ASCII letters and
    Hebrew letters.  Besides the two ASCII cases, i matches U+0130 and
    U+0131, k matches U+212A, and s matches U+017F. *)
Definition ci_char (c x : char) : bool :=
  (lower1 x =? c)
  || ((c =? 105) && ((x =? 304) || (x =? 305)))
  || ((c =? 107) && (x =? 8490))
  || ((c =? 115) && (x =? 383)).

Definition LitI (s : str) : regex := seq (map (fun c => Chr (ci_char c)) s).

Definition star (p : char -> bool) : regex := Rep p 0 None.
Definition plus (p : char -> bool) : regex := Rep p 1 None.

Definition in_range (lo hi : N) (c : char) : bool := (lo <=? c) && (c <=? hi).
Definition one_of (s : str) (c : char) : bool := existsb (N.eqb c) s.
Definition none_of (s : str) (c : char) : bool := negb (one_of s c).

(** [[0-9a-fA-F]] *)
Definition is_hex (c : char) : bool :=
  in_range 48 57 c || in_range 97 102 c || in_range 65 70 c.

End Re.

(* ================================================================== *)
(** * Python dictionaries *)
(* ================================================================== *)

(** A [dict] keeps its keys in the order of their first insertion;
    assigning to a key that is present replaces the value in place. *)
Module PyDict.

Import PyStr.

Definition dict (V : Type) := list (str * V).

Fixpoint dict_set (V : Type) (k : str) (v : V) (d : dict V) : dict V :=
  match d with
  | [] => [(k, v)]
  | (k', v') :: d' =>
      if str_eqb k' k then (k', v) :: d' else (k', v') :: dict_set k v d'
  end.

Fixpoint dict_get (V : Type) (k : str) (d : dict V) : option V :=
  match d with
  | [] => None
  | (k', v') :: d' => if str_eqb k' k then Some v' else dict_get k d'
  end.

Definition keys (V : Type) (d : dict V) : list str := map fst d.

End PyDict.

(* ================================================================== *)
(** * Parsed documents *)
(* ================================================================== *)

(** The tree BeautifulSoup builds from a page.  An element has a tag
    name, its attributes and its children.  A string of the page is a
    [Text] when [.text] collects it, and a [Special] when [.text] passes
    over it (comments, declarations and, with recent versions of the
    library, the contents of script and style elements); [.string]
    returns either. *)
Module Soup.

Import PyStr PyDict Re.

#[warnings="-register-all"] Inductive node :=
| Text (s : str)
| Special (s : str)
| Elem (name : str) (attrs : dict str) (children : list node).

Definition soup := list node.

(** The nodes below an element, in document order. *)
Fixpoint descendants (n : node) : list node :=
  match n with
  | Elem _ _ cs => flat_map (fun c => c :: descendants c) cs
  | _ => []
  end.

(** The nodes of a document, in document order. *)
Definition nodes_of (sp : soup) : list node :=
  flat_map (fun c => c :: descendants c) sp.

(** [tag.text] *)
Fixpoint text (n : node) : str :=
  match n with
  | Text s => s
  | Special _ => []
  | Elem _ _ cs => flat_map text cs
  end.

(** [soup.get_text()] *)
Definition get_text (sp : soup) : str := flat_map text sp.

(** [tag.string]: the string of an element whose only child is a string
    or an element that itself has a [.string]. *)
Fixpoint tag_string (n : node) : option str :=
  match n with
  | Elem _ _ (c :: []) =>
      match c with
      | Text s => Some s
      | Special s => Some s
      | Elem _ _ _ => tag_string c
      end
  | _ => None
  end.

(** [tag.name] of an element. *)
Definition tag_name (n : node) : option str :=
  match n with Elem nm _ _ => Some nm | _ => None end.

(** The element is one of the tags [names]. *)
Definition is_tag (names : list str) (n : node) : bool :=
  match n with Elem nm _ _ => mem nm names | _ => false end.

Definition is_elem (n : node) : bool :=
  match n with Elem _ _ _ => true | _ => false end.

(** [tag.get(k)] *)
Definition get (k : str) (n : node) : option str :=
  match n with Elem _ a _ => dict_get k a | _ => None end.

(** [k=True]: the attribute is present. *)
Definition has_attr (k : str) (n : node) : bool :=
  match get k n with Some _ => true | None => false end.

(** [{k: re.compile(r)}] on a single-valued attribute. *)
Definition attr_re (k : str) (r : regex) (n : node) : bool :=
  match get k n with Some v => matches r v | None => false end.

(** [{k: v}] with a string [v] on a single-valued attribute. *)
Definition attr_is (k : str) (v : str) (n : node) : bool :=
  match get k n with Some w => str_eqb w v | None => false end.

(** The values of a multi-valued attribute: the runs of non-space
    characters of the attribute's text. *)
Fixpoint tokens_go (cur : str) (s : str) : list str :=
  match s with
  | [] => match cur with [] => [] | _ :: _ => [rev cur] end
  | c :: s' =>
      if is_space c
      then match cur with
           | [] => tokens_go [] s'
           | _ :: _ => rev cur :: tokens_go [] s'
           end
      else tokens_go (c :: cur) s'
  end.

Definition tokens (s : str) : list str := tokens_go [] s.

(** [class_=re.compile(r)]: some class matches, or the classes joined
    by one space do. *)
Definition class_re (r : regex) (n : node) : bool :=
  match get (u "class") n with
  | Some v =>
      let cls := tokens v in
      existsb (matches r) cls || matches r (join (u " ") cls)
  | None => false
  end.

(** [find_all] and [find] over the nodes [ns] (a document's or an
    element's descendants), by a test on elements. *)
Definition find_all (p : node -> bool) (ns : list node) : list node :=
  filter (fun n => is_elem n && p n) ns.

Definition find_first (p : node -> bool) (ns : list node) : option node :=
  find (fun n => is_elem n && p n) ns.

(** Each node with the nodes that follow it in document order, which is
    where [find_next] searches. *)
Fixpoint with_following (ns : list node) : list (node * list node) :=
  match ns with
  | [] => []
  | n :: rest => (n, rest) :: with_following rest
  end.

End Soup.

(* ================================================================== *)
(** * The Unicode character database *)
(* ================================================================== *)

(** [re] decides the classes [\w] and [\d] of a [str] pattern by the
    Unicode database of the interpreter.  Their ASCII part is fixed; the
    rest of the table is a parameter of the development. *)
Record unicode_db := UnicodeDb {
  uni_alnum : PyStr.char -> bool;    (* [str.isalnum] beyond ASCII *)
  uni_decimal : PyStr.char -> bool   (* [str.isdecimal] beyond ASCII *)
}.

(* ================================================================== *)
(** * scraper/utils.py *)
(* ================================================================== *)

Module Utils.

Import PyStr PyDict Re.
Local Open Scope N_scope.

(** ** The default catalog *)

(** The type tag of a field specification. *)
Inductive type_tag := TString | TEmail | TUrl | TArray | TObject.

(** The field names of the vocabulary. *)
Definition F_NAME : str := u "שם העסק".
Definition F_PHONE : str := u "טלפון".
(** The e-mail field, spelt with the ASCII quotation mark (code 34),
    with the apostrophe, and with the Hebrew gershayim. *)
Definition F_EMAIL : str := u "דוא" ++ [34] ++ u "ל".
Definition F_EMAIL' : str := u "דוא'ל".
Definition F_EMAIL'' : str := u "דוא״ל".
Definition F_LOGO : str := u "לוגו".
Definition F_TEAM : str := u "צוות".
Definition F_ADDRESS : str := u "כתובת".
Definition F_HOURS_ACTIVITY : str := u "שעות פעילות".
Definition F_HOURS_RECEPTION : str := u "שעות קבלה".
Definition F_HOURS_OPENING : str := u "שעות פתיחה".
Definition F_PRACTICE_AREAS : str := u "תחומי עיסוק".
Definition F_SPECIALTY : str := u "תחום התמחות".
Definition F_ACTIVITY : str := u "תחום פעילות".
Definition F_SOCIAL : str := u "קישורים לרשתות".
Definition F_DOCTORS : str := u "רופאים".
Definition F_COLORS : str := u "צבעים דומיננטיים".

(** [load_fields]: the built-in table, field name and declared type. *)
Definition default_fields : list (str * type_tag) :=
  [ (F_NAME, TString);
    (F_PHONE, TString);
    (F_EMAIL, TEmail);
    (F_LOGO, TUrl);
    (F_TEAM, TArray);
    (F_ADDRESS, TString);
    (F_HOURS_ACTIVITY, TString);
    (F_HOURS_RECEPTION, TString);
    (F_HOURS_OPENING, TString);
    (F_PRACTICE_AREAS, TArray);
    (F_SPECIALTY, TString);
    (F_ACTIVITY, TString);
    (F_SOCIAL, TObject);
    (F_DOCTORS, TArray);
    (F_COLORS, TArray) ].

Definition declared_type (f : str) : option type_tag :=
  option_map snd (find (fun p => str_eqb (fst p) f) default_fields).

(** [load_profiles]: the field sequences of the built-in profiles. *)
Definition law_firm_fields : list str :=
  [F_NAME; F_ADDRESS; F_PHONE; F_EMAIL; F_LOGO; F_COLORS; F_PRACTICE_AREAS;
   F_TEAM; F_SOCIAL; F_HOURS_ACTIVITY].

Definition doctor_fields : list str :=
  [F_NAME; F_SPECIALTY; F_ADDRESS; F_PHONE; F_EMAIL; F_DOCTORS;
   F_HOURS_RECEPTION; F_SOCIAL].

Definition business_fields : list str :=
  [F_NAME; F_ACTIVITY; F_ADDRESS; F_PHONE; F_EMAIL; F_LOGO; F_HOURS_OPENING;
   F_SOCIAL].

(** ** Validators *)

Section Validators.

Variable U : unicode_db.

(** [\d] *)
Definition is_digit (c : char) : bool :=
  if c <? 128 then in_range 48 57 c else uni_decimal U c.

(** [\w] *)
Definition is_word (c : char) : bool :=
  if c <? 128
  then in_range 48 57 c || in_range 65 90 c || in_range 97 122 c || (c =? 95)
  else uni_alnum U c.

(** [[\w\.-]] *)
Definition is_word_dot_dash (c : char) : bool :=
  is_word c || (c =? 46) || (c =? 45).

(** [^[\w\.-]+@[\w\.-]+\.\w+$] *)
Definition email_pattern : regex :=
  seq [Bol; plus is_word_dot_dash; Lit (u "@"); plus is_word_dot_dash;
       Lit (u "."); plus is_word; Eol].

Definition is_valid_email (email : str) : bool :=
  if negb (truthy email) then false
  else match re_match email_pattern email with
       | Some _ => true
       | None => false
       end.

(** [[\s\-\(\)\.]+] *)
Definition phone_separators : regex :=
  plus (fun c => is_space c || one_of (u "-().") c).

(** [^\+?[\d]{7,15}$] *)
Definition phone_shape : regex :=
  seq [Bol; Opt (Lit (u "+")); Rep is_digit 7 (Some 15%nat); Eol].

Definition is_valid_phone (phone : str) : bool :=
  if negb (truthy phone) then false
  else
    let clean_phone := re_sub phone_separators [] phone in
    match re_match phone_shape clean_phone with
    | Some _ => true
    | None => false
    end.

End Validators.

End Utils.

(* ================================================================== *)
(** * Exceptions *)
(* ================================================================== *)

Module PyExn.

Import PyStr.

(** The exceptions the sources meet, each with the text [str(e)]. *)
Inductive exn :=
| RequestException (msg : str)   (* [requests.RequestException] and its subclasses *)
| ValueError (msg : str)
| NameError (msg : str)
| TypeError (msg : str)
| Exception_ (msg : str).        (* a plain [Exception] *)

Definition str_of (e : exn) : str :=
  match e with
  | RequestException m | ValueError m | NameError m | TypeError m
  | Exception_ m => m
  end.

(** The outcome of a call: a value, or an exception that leaves it. *)
Inductive result (A : Type) :=
| Return (a : A)
| Raise (e : exn).

Arguments Return {A} a.
Arguments Raise {A} e.

End PyExn.

(* ================================================================== *)
(** * scraper/scraper.py: the field extractor *)
(* ================================================================== *)

Module Scraper.

Import PyStr PyDict Re Soup PyExn Utils.

(** The values [extract_field] returns: a string, a list of strings, a
    list of person records, a mapping from platform to URL. *)
Inductive value :=
| VStr (s : str)
| VList (l : list str)
| VTeam (l : list (dict str))
| VDict (d : dict str).

(** [tag[k]] on an element that was selected for having the attribute. *)
Definition item (k : str) (n : node) : str :=
  match get k n with Some v => v | None => [] end.

Definition len_between (lo hi : nat) (s : str) : bool :=
  Nat.ltb lo (List.length s) && Nat.ltb (List.length s) hi.

Section Extractor.

Variable U : unicode_db.

(** [urllib.parse.urljoin], which raises [ValueError] on some
    references (an unbalanced bracket in the host part, for one). *)
Variable urljoin : str -> str -> result str.

(** ** Business name *)

(** [logo|brand], ignoring case *)
Definition logo_brand : regex := alt [LitI (u "logo"); LitI (u "brand")].

Definition extract_name (sp : soup) : str :=
  let title :=
    match find_first (is_tag [u "title"]) (nodes_of sp) with
    | Some t => strip (text t)
    | None => []
    end in
  let h1_tags := find_all (is_tag [u "h1"]) (nodes_of sp) in
  match find (fun h1 => len_between 3 50 (strip (text h1))) h1_tags with
  | Some h1 => strip (text h1)
  | None =>
      match find_first (fun n => is_tag [u "img"] n && class_re logo_brand n)
                       (nodes_of sp) with
      | Some logo =>
          match get (u "alt") logo with
          | Some a => if truthy a then a else title
          | None => title
          end
      | None => title
      end
  end.

(** ** Phone number *)

Definition dash_or_space : regex := Opt (Chr (one_of (u "- "))).
Definition digits (lo : nat) (hi : option nat) : regex := Rep (is_digit U) lo hi.

Definition phone_patterns : list regex :=
  [ (* (?:\+972[- ]?|0)[2-9]{1}[- ]?\d{7} *)
    seq [Alt (Cat (Lit (u "+972")) dash_or_space) (Lit (u "0"));
         Rep (in_range 50 57) 1 (Some 1%nat); dash_or_space;
         digits 7 (Some 7%nat)];
    (* \+\d{1,3}[- ]?\d{1,4}[- ]?\d{4,} *)
    seq [Lit (u "+"); digits 1 (Some 3%nat); dash_or_space;
         digits 1 (Some 4%nat); dash_or_space; digits 4 None];
    (* \(\d{3,4}\)\s*\d{3}[- ]?\d{4} *)
    seq [Lit (u "("); digits 3 (Some 4%nat); Lit (u ")"); star is_space;
         digits 3 (Some 3%nat); dash_or_space; digits 4 (Some 4%nat)];
    (* \d{3}[- ]?\d{3}[- ]?\d{4} *)
    seq [digits 3 (Some 3%nat); dash_or_space; digits 3 (Some 3%nat);
         dash_or_space; digits 4 (Some 4%nat)] ].

(** The loop over the patterns: the first valid match of the first
    pattern that has one. *)
Fixpoint phone_in_text (patterns : list regex) (txt : str) : option str :=
  match patterns with
  | [] => None
  | pattern :: rest =>
      let found := findall pattern txt in
      match filter (is_valid_phone U) found with
      | p :: _ => Some p
      | [] => phone_in_text rest txt
      end
  end.

(** [^tel:] *)
Definition tel_prefix : regex := Cat Bol (Lit (u "tel:")).

Definition extract_phone (sp : soup) : str :=
  match phone_in_text phone_patterns (get_text sp) with
  | Some p => p
  | None =>
      let tel_links :=
        find_all (fun n => is_tag [u "a"] n && attr_re (u "href") tel_prefix n)
                 (nodes_of sp) in
      let phones := map (fun link => replace (u "tel:") [] (item (u "href") link))
                        tel_links in
      match find (is_valid_phone U) phones with
      | Some phone => phone
      | None => []
      end
  end.

(** ** E-mail *)

(** [^mailto:] *)
Definition mailto_prefix : regex := Cat Bol (Lit (u "mailto:")).

(** [[\w\.-]+@[\w\.-]+\.[a-z]{2,}] *)
Definition email_in_text : regex :=
  seq [plus (is_word_dot_dash U); Lit (u "@"); plus (is_word_dot_dash U);
       Lit (u "."); Rep (in_range 97 122) 2 None].

Definition is_mailto_link (n : node) : bool :=
  is_tag [u "a"] n && attr_re (u "href") mailto_prefix n.

(** [link['href'].replace('mailto:', '').split('?')[0]] *)
Definition mailto_address (link : node) : str :=
  hd [] (split (u "?") (replace (u "mailto:") [] (item (u "href") link))).

Definition extract_email (sp : soup) : str :=
  let mailto_links := find_all is_mailto_link (nodes_of sp) in
  match find (is_valid_email U) (map mailto_address mailto_links) with
  | Some email => email
  | None =>
      let emails := findall email_in_text (get_text sp) in
      match filter (is_valid_email U) emails with
      | e :: _ => e
      | [] => []
      end
  end.

(** ** Address *)

(** [og:address|place:location:address] *)
Definition meta_address_re : regex :=
  alt [Lit (u "og:address"); Lit (u "place:location:address")].

(** [address|location], ignoring case *)
Definition address_re : regex := alt [LitI (u "address"); LitI (u "location")].

Definition cities : list str :=
  [u "תל אביב"; u "ירושלים"; u "חיפה"; u "באר שבע"; u "רמת גן"; u "הרצליה";
   u "נתניה"; u "פתח תקווה"; u "אשדוד"; u "אילת"].

(** [soup.find_all(class_=r)] followed by [soup.find_all(id=r)] *)
Definition by_class_then_id (r : regex) (ns : list node) : list node :=
  find_all (class_re r) ns ++ find_all (attr_re (u "id") r) ns.

Definition extract_address (sp : soup) : str :=
  let ns := nodes_of sp in
  let meta_address :=
    find_first (fun n => is_tag [u "meta"] n
                         && attr_re (u "property") meta_address_re n) ns in
  match match meta_address with
        | Some m => match get (u "content") m with
                    | Some c => if truthy c then Some c else None
                    | None => None
                    end
        | None => None
        end with
  | Some c => c
  | None =>
      match find_first (fun n => is_tag [u "span"] n
                                 && attr_is (u "itemprop") (u "address") n) ns with
      | Some address_elem => strip (text address_elem)
      | None =>
          let looks_like_address (t : str) :=
            existsb (fun city => contains city t) cities
            && Nat.ltb (List.length t) 100 && Nat.ltb 10 (List.length t) in
          match find looks_like_address
                     (map (fun elem => strip (text elem))
                          (find_all (is_tag [u "p"; u "div"; u "span"; u "address"])
                                    ns)) with
          | Some t => t
          | None =>
              match find (len_between 5 150)
                         (map (fun elem => strip (text elem))
                              (by_class_then_id address_re ns)) with
              | Some t => t
              | None => []
              end
          end
      end
  end.

(** ** Opening hours *)

(** [hours|time|schedule], ignoring case *)
Definition hours_re : regex :=
  alt [LitI (u "hours"); LitI (u "time"); LitI (u "schedule")].

Definition days : list str :=
  [u "ראשון"; u "שני"; u "שלישי"; u "רביעי"; u "חמישי"; u "שישי"; u "שבת"].

(** [\d{1,2}[:.]\d{2}] *)
Definition clock_time : regex :=
  seq [digits 1 (Some 2%nat); Chr (one_of (u ":.")); digits 2 (Some 2%nat)].

Definition has_day (t : str) : bool := existsb (fun day => contains day t) days.

Definition newline : str := [10%N].

Definition cells_of (row : node) : list node :=
  find_all (is_tag [u "td"; u "th"]) (descendants row).

(** A table of 3 to 8 rows, one of which starts with a day name, gives
    the texts of its rows. *)
Definition hours_of_table (table : node) : option str :=
  let rows := find_all (is_tag [u "tr"]) (descendants table) in
  if Nat.leb 3 (List.length rows) && Nat.leb (List.length rows) 8
  then
    if existsb (fun row => match cells_of row with
                           | c :: _ => has_day (text c)
                           | [] => false
                           end) rows
    then
      let row_text (row : node) :=
        join (u " ") (map (fun cell => strip (text cell)) (cells_of row)) in
      Some (join newline (filter truthy (map row_text rows)))
    else None
  else None.

Fixpoint first_some (A B : Type) (f : A -> option B) (l : list A) : option B :=
  match l with
  | [] => None
  | x :: rest =>
      match f x with
      | Some y => Some y
      | None => first_some f rest
      end
  end.

Definition extract_hours (sp : soup) : str :=
  let ns := nodes_of sp in
  let hours_elems := by_class_then_id hours_re ns in
  match find (fun t => has_day t && matches clock_time t)
             (map (fun elem => strip (text elem)) hours_elems) with
  | Some t =>
      join newline (filter truthy (map strip (split newline t)))
  | None =>
      match first_some hours_of_table (find_all (is_tag [u "table"]) ns) with
      | Some h => h
      | None => []
      end
  end.

(** ** Staff *)

(** [team|staff|personnel|people|about], ignoring case *)
Definition team_re : regex :=
  alt [LitI (u "team"); LitI (u "staff"); LitI (u "personnel");
       LitI (u "people"); LitI (u "about")].

(** [card|member|person|profile], ignoring case *)
Definition card_re : regex :=
  alt [LitI (u "card"); LitI (u "member"); LitI (u "person");
       LitI (u "profile")].

(** [role|position|title], ignoring case *)
Definition role_re : regex :=
  alt [LitI (u "role"); LitI (u "position"); LitI (u "title")].

(** The keys of a person record. *)
Definition K_NAME : str := u "שם".
Definition K_ROLE : str := u "תפקיד".
Definition K_EMAIL : str := F_EMAIL.

Definition name_tags : list str := [u "h3"; u "h4"; u "h5"; u "strong"; u "b"].

(** The three local variables [name], [role], [email] of the loop body
    for one person element. *)
Definition person_name (person : node) : str :=
  match find_first (is_tag name_tags) (descendants person) with
  | Some name_elem => strip (text name_elem)
  | None => []
  end.

(** In the fallback for the role, [role_elem != name_elem] compares an
    element named p or span with one named h3, h4, h5, strong or b (or
    with [None]); the two are never equal, so the test is that
    [role_elem] was found. *)
Definition person_role (person : node) : str :=
  match find_first (class_re role_re) (descendants person) with
  | Some role_elem => strip (text role_elem)
  | None =>
      match find_first (is_tag [u "p"; u "span"]) (descendants person) with
      | Some role_elem => strip (text role_elem)
      | None => []
      end
  end.

Definition person_email (person : node) : str :=
  match find_first is_mailto_link (descendants person) with
  | Some email_elem => replace (u "mailto:") [] (item (u "href") email_elem)
  | None => []
  end.

(** The record added to [team] for a person element, if any. *)
Definition person_info (person : node) : option (dict str) :=
  let name := person_name person in
  let role := person_role person in
  let email := person_email person in
  if truthy name
  then
    let info := [(K_NAME, name)] in
    let info := if truthy role then dict_set K_ROLE role info else info in
    let info := if truthy email then dict_set K_EMAIL email info else info in
    Some info
  else None.

Definition person_elems (section : node) : list node :=
  match find_all (class_re card_re) (descendants section) with
  | [] => find_all (is_tag [u "li"]) (descendants section)
  | cards => cards
  end.

Definition members_of (section : node) : list (dict str) :=
  flat_map (fun person => match person_info person with
                          | Some info => [info]
                          | None => []
                          end)
           (person_elems section).

(** The loop over the sections, with the list [team] it appends to. *)
Fixpoint team_loop (sections : list node) (team : list (dict str))
  : list (dict str) :=
  match sections with
  | [] => []
  | section :: rest =>
      let team := team ++ members_of section in
      match team with
      | _ :: _ => team
      | [] => team_loop rest team
      end
  end.

Definition extract_team (sp : soup) : list (dict str) :=
  team_loop (by_class_then_id team_re (nodes_of sp)) [].

(** ** Social links *)

Definition social_patterns : list (str * regex) :=
  [ (u "facebook", Lit (u "facebook.com"));
    (u "twitter", alt [Lit (u "twitter.com"); Lit (u "x.com")]);
    (u "instagram", Lit (u "instagram.com"));
    (u "linkedin", Lit (u "linkedin.com"));
    (u "youtube", Lit (u "youtube.com"));
    (u "tiktok", Lit (u "tiktok.com"));
    (u "whatsapp", alt [Lit (u "wa.me"); Lit (u "whatsapp.com")]) ].

(** The platform of the first pattern of the table, in its order, that
    is found in [href]: the inner loop up to its [break]. *)
Definition platform_of (href : str) : option str :=
  option_map fst (find (fun p => matches (snd p) href) social_patterns).

Definition is_absolute (href : str) : bool :=
  startswith (u "http://") href || startswith (u "https://") href.

(** The loop over the links, with the dictionary it assigns to. *)
Fixpoint social_loop (base_url : str) (hrefs : list str)
    (social_links : dict str) : result (dict str) :=
  match hrefs with
  | [] => Return social_links
  | href :: rest =>
      match platform_of href with
      | Some platform =>
          if is_absolute href
          then social_loop base_url rest (dict_set platform href social_links)
          else
            match urljoin base_url href with
            | Return href' =>
                social_loop base_url rest (dict_set platform href' social_links)
            | Raise e => Raise e
            end
      | None => social_loop base_url rest social_links
      end
  end.

(** [soup.find_all('a', href=True)], each with its [href]. *)
Definition link_hrefs (sp : soup) : list str :=
  map (item (u "href"))
      (find_all (fun n => is_tag [u "a"] n && has_attr (u "href") n)
                (nodes_of sp)).

Definition extract_social (sp : soup) (base_url : str) : result (dict str) :=
  social_loop base_url (link_hrefs sp) [].

(** ** Business domain *)

(** The headings of services and specialties, ignoring case. *)
Definition services_re : regex :=
  alt [LitI (u "שירותים"); LitI (u "תחומי"); LitI (u "התמחויות");
       LitI (u "פעילות")].

Definition is_service_header (n : node) : bool :=
  is_tag [u "h2"; u "h3"] n
  && match tag_string n with
     | Some s => matches services_re s
     | None => false
     end.

(** The services listed after one heading, if any: the items of the
    next list, or the short texts of the next block. *)
Definition services_after (following : list node) : option (list str) :=
  match find_first (is_tag [u "ul"; u "div"; u "section"]) following with
  | Some next_elem =>
      if is_tag [u "ul"] next_elem
      then
        match map (fun li => strip (text li))
                  (find_all (is_tag [u "li"]) (descendants next_elem)) with
        | [] => None
        | services => Some services
        end
      else
        match filter (len_between 5 100)
                     (map (fun it => strip (text it))
                          (find_all (is_tag [u "p"; u "h4"; u "h5"; u "span"])
                                    (descendants next_elem))) with
        | [] => None
        | services => Some services
        end
  | None => None
  end.

Definition meta_content (name : str) (sp : soup) : option str :=
  match find_first (fun n => is_tag [u "meta"] n && attr_is (u "name") name n)
                   (nodes_of sp) with
  | Some m => match get (u "content") m with
              | Some c => if truthy c then Some c else None
              | None => None
              end
  | None => None
  end.

Definition extract_domain (sp : soup) : value :=
  match meta_content (u "keywords") sp with
  | Some content => VList (map strip (split (u ",") content))
  | None =>
      let service_headers :=
        filter (fun hf => is_elem (fst hf) && is_service_header (fst hf))
               (with_following (nodes_of sp)) in
      match first_some (fun hf => services_after (snd hf)) service_headers with
      | Some services => VList services
      | None =>
          match meta_content (u "description") sp with
          | Some content => VStr content
          | None => VStr []
          end
      end
  end.

(** ** The dispatcher *)

Definition extract_field (sp : soup) (field_name : str) (base_url : str)
  : result value :=
  if str_eqb field_name F_NAME then Return (VStr (extract_name sp))
  else if str_eqb field_name F_PHONE then Return (VStr (extract_phone sp))
  else if str_eqb field_name F_EMAIL || str_eqb field_name F_EMAIL'
          || str_eqb field_name F_EMAIL''
  then Return (VStr (extract_email sp))
  else if str_eqb field_name F_ADDRESS then Return (VStr (extract_address sp))
  else if str_eqb field_name F_HOURS_ACTIVITY
          || str_eqb field_name F_HOURS_OPENING
          || str_eqb field_name F_HOURS_RECEPTION
  then Return (VStr (extract_hours sp))
  else if str_eqb field_name F_TEAM || str_eqb field_name F_DOCTORS
  then Return (VTeam (extract_team sp))
  else if str_eqb field_name F_SOCIAL
  then match extract_social sp base_url with
       | Return d => Return (VDict d)
       | Raise e => Raise e
       end
  else if str_eqb field_name F_PRACTICE_AREAS
          || str_eqb field_name F_ACTIVITY
          || str_eqb field_name F_SPECIALTY
  then Return (extract_domain sp)
  else Return (VStr []).

End Extractor.

End Scraper.

(* ================================================================== *)
(** * Sorting, as [list.sort] and [sorted] do it *)
(* ================================================================== *)

Module PySort.

(** Python's sort is stable and only uses [<] on the keys.  On keys
    that [<] orders (strings, floats that are not NaN) its result is the
    one stable arrangement, which insertion from the right computes. *)
Section Sort.

Context {A K : Type} (lt : K -> K -> bool) (key : A -> K).

Fixpoint insert (x : A) (l : list A) : list A :=
  match l with
  | [] => [x]
  | y :: l' => if lt (key y) (key x) then y :: insert x l' else x :: l
  end.

(** [sorted(l, key=key)] *)
Definition sort_by (l : list A) : list A := fold_right insert [] l.

(** [a] may stand before [b]: [b] is not smaller. *)
Definition in_order (a b : A) : Prop := lt (key b) (key a) = false.

Lemma insert_perm x l : Permutation (x :: l) (insert x l).
Proof.
  induction l as [|y l IH]; simpl.
  - apply Permutation_refl.
  - destruct (lt (key y) (key x)).
    + eapply Permutation_trans; [apply perm_swap|].
      apply perm_skip. exact IH.
    + apply Permutation_refl.
Qed.

Lemma sort_by_perm l : Permutation l (sort_by l).
Proof.
  induction l as [|x l IH]; simpl.
  - apply perm_nil.
  - eapply Permutation_trans; [apply perm_skip; exact IH|].
    apply insert_perm.
Qed.

Lemma sort_by_In l x : In x (sort_by l) <-> In x l.
Proof.
  split; intros H.
  - eapply Permutation_in; [apply Permutation_sym, sort_by_perm | exact H].
  - eapply Permutation_in; [apply sort_by_perm | exact H].
Qed.


Lemma insert_Forall (P : A -> Prop) x l :
  P x -> Forall P l -> Forall P (insert x l).
Proof.
  intros Hx Hl. induction Hl as [|y l Hy Hl IH]; simpl.
  - constructor; [exact Hx | constructor].
  - destruct (lt (key y) (key x)).
    + constructor; assumption.
    + constructor; [exact Hx|]. constructor; assumption.
Qed.

Lemma sort_by_Forall (P : A -> Prop) l : Forall P l -> Forall P (sort_by l).
Proof.
  intros H. induction H as [|x l Hx H IH]; simpl.
  - constructor.
  - apply insert_Forall; assumption.
Qed.

End Sort.

(** The comparison orders the keys that are [valid] (for floats, those
    that are not NaN): it is asymmetric, and being not smaller is
    transitive through a valid key. *)
Class StrictWeakOrder (K : Type) (lt : K -> K -> bool) (valid : K -> Prop)
  : Prop := {
  lt_asym : forall a b, lt a b = true -> lt b a = false;
  lt_negtrans :
    forall a b c, valid b -> lt a b = false -> lt b c = false -> lt a c = false
}.

(** The comparison of [reverse=True]: every comparison is reversed. *)
Definition reversed (K : Type) (lt : K -> K -> bool) : K -> K -> bool :=
  fun a b => lt b a.


Section Sorted.

Context {A K : Type} (lt : K -> K -> bool) (valid : K -> Prop)
        {SW : StrictWeakOrder lt valid} (key : A -> K).

Lemma insert_sorted x l :
  Forall (fun a => valid (key a)) l ->
  StronglySorted (in_order lt key) l ->
  StronglySorted (in_order lt key) (insert lt key x l).
Proof.
  intros Hv Hs. induction Hs as [|y l Hs IH Hy]; simpl.
  - constructor; constructor.
  - inversion Hv as [|? ? Hvy Hvl]; subst.
    destruct (lt (key y) (key x)) eqn:Hyx.
    + constructor; [apply IH; exact Hvl|].
      apply insert_Forall; [|exact Hy].
      unfold in_order. apply (lt_asym (valid := valid)). exact Hyx.
    + constructor.
      * constructor; assumption.
      * constructor; [exact Hyx|].
        eapply Forall_impl; [|exact Hy].
        intros z Hz. unfold in_order in *.
        apply (lt_negtrans _ _ _ Hvy Hz Hyx).
Qed.

Lemma sort_by_sorted l :
  Forall (fun a => valid (key a)) l ->
  StronglySorted (in_order lt key) (sort_by lt key l).
Proof.
  intros Hv. induction Hv as [|x l Hx Hv IH]; simpl.
  - constructor.
  - apply insert_sorted; [|exact IH].
    apply sort_by_Forall. exact Hv.
Qed.

End Sorted.

End PySort.

(* ================================================================== *)
(** * scraper/design_elements.py *)
(* ================================================================== *)

Module Design.

Import PyStr PyDict Re Soup PyExn PySort.
Local Open Scope N_scope.

(** [list(set(l))]: the distinct elements of [l], in an order that
    depends on the interpreter's hashing and is left open. *)
Class PySet := {
  list_of_set : list str -> list str;
  list_of_set_NoDup : forall l, NoDup (list_of_set l);
  list_of_set_In : forall l x, In x (list_of_set l) <-> In x l
}.

(** [l[:n]] *)
Definition slice_to (A : Type) (n : Z) (l : list A) : list A :=
  if (n <? 0)%Z
  then firstn (Z.to_nat (Z.of_nat (List.length l) + n)) l
  else firstn (Z.to_nat n) l.

(** ** Colours *)

(** [#(?:[0-9a-fA-F]{3}){1,2}] *)
Definition hex_color : regex :=
  seq [Lit (u "#"); Rep is_hex 3 (Some 3%nat); Opt (Rep is_hex 3 (Some 3%nat))].

Definition excluded_colors : list str :=
  [u "#000"; u "#000000"; u "#fff"; u "#ffffff"; u "transparent"].

Definition common_color_names : list str :=
  [u "primary"; u "secondary"; u "accent"; u "main"; u "brand"].

(** [--{name}(?:-color)?\s*:\s*([^;]+)] *)
Definition custom_property (name : str) : regex :=
  seq [Lit (u "--" ++ name); Opt (Lit (u "-color")); star is_space;
       Lit (u ":"); star is_space; Grp 1 (plus (none_of (u ";")))].

(** The colours the fallback appends: for each name of the table, for
    each declaration of a custom property of that name in the raw
    page, the first hex colour of its value, in lower case. *)
Definition fallback_colors (html_content : str) : list str :=
  flat_map
    (fun name =>
       flat_map
         (fun prop =>
            match re_search hex_color prop with
            | Some hex_match => [lower (hit_text hex_match)]
            | None => []
            end)
         (findall1 (custom_property name) html_content))
    common_color_names.

(** [int(c, 16)] for one hexadecimal digit *)
Definition hex_value (c : char) : option Z :=
  if in_range 48 57 c then Some (Z.of_N c - 48)%Z
  else if in_range 97 102 c then Some (Z.of_N c - 87)%Z
  else if in_range 65 70 c then Some (Z.of_N c - 55)%Z
  else None.

(** [int(s, 16)] on a text of hexadecimal digits, which is what the
    colour patterns let through; [None] stands for [ValueError]. *)
Fixpoint int16_go (acc : Z) (s : str) : option Z :=
  match s with
  | [] => Some acc
  | c :: s' =>
      match hex_value c with
      | Some d => int16_go (16 * acc + d)%Z s'
      | None => None
      end
  end.

Definition int16 (s : str) : option Z :=
  match s with
  | [] => None
  | _ :: _ => int16_go 0 s
  end.

(** [s[i:j]] *)
Definition substr (i j : nat) (s : str) : str := firstn (j - i) (skipn i s).

(** The three channels of a colour, lines 114 to 121 without the
    division: [#rgb] is read as [#rrggbb]. *)
Definition channels (color : str) : option (Z * Z * Z) :=
  let twice (i : nat) := substr i (S i) color ++ substr i (S i) color in
  let parts :=
    if Nat.eqb (List.length color) 4
    then (int16 (twice 1%nat), int16 (twice 2%nat), int16 (twice 3%nat))
    else (int16 (substr 1 3 color), int16 (substr 3 5 color),
          int16 (substr 5 7 color)) in
  match parts with
  | (Some r, Some g, Some b) => Some (r, g, b)
  | _ => None
  end.

Section Colors.

Context {PS : PySet}.

(** The floating-point numbers of the interpreter are a parameter: a
    type [F], the comparison [x < y], the quotient [n / 255.0] of an
    integer, and [colorsys.rgb_to_hsv]. *)
Variable F : Type.
Variable lt : F -> F -> bool.
Variable ratio : Z -> F.
Variable rgb_to_hsv : F -> F -> F -> F * F * F.

(** Lines 113 to 123 for one colour.  The text of the [ValueError]
    names the rejected literal, which is left out here. *)
Definition hsv (color : str) : result (F * F * F) :=
  match channels color with
  | Some (r, g, b) => Return (rgb_to_hsv (ratio r) (ratio g) (ratio b))
  | None => Raise (ValueError (u "invalid literal for int() with base 16"))
  end.

Definition hue (x : str * (F * F * F)) : F := fst (fst (snd x)).
Definition saturation (x : str * (F * F * F)) : F := snd (fst (snd x)).

(** The loop that fills [hsv_colors]. *)
Fixpoint to_hsv (colors : list str) : result (list (str * (F * F * F))) :=
  match colors with
  | [] => Return []
  | color :: rest =>
      match hsv color with
      | Raise e => Raise e
      | Return t =>
          match to_hsv rest with
          | Raise e => Raise e
          | Return l => Return ((color, t) :: l)
          end
      end
  end.

Definition sort_colors_by_distinctiveness (colors : list str)
  : result (list str) :=
  match to_hsv colors with
  | Raise e => Raise e
  | Return hsv_colors =>
      let hsv_colors := sort_by lt hue hsv_colors in
      match hsv_colors with
      | [] => Return []
      | first :: rest =>
          if Nat.ltb 1 (List.length hsv_colors)
          then
            let remaining := sort_by (reversed lt) saturation rest in
            Return (fst first :: map fst remaining)
          else Return [fst first]
      end
  end.

(** [extract_colors] from line 76 on: [colors] is the list the scan of
    the style sheets and style attributes (lines 29 to 74) has built. *)
Definition extract_colors (colors : list str) (html_content : str)
    (max_colors : Z) : result (list str) :=
  let colors := map lower colors in
  let unique_colors := list_of_set colors in
  let filtered_colors :=
    filter (fun c => negb (mem c excluded_colors)) unique_colors in
  let filtered_colors :=
    if Nat.ltb (List.length filtered_colors) 2
    then filtered_colors ++ fallback_colors html_content
    else filtered_colors in
  if Nat.ltb 1 (List.length filtered_colors)
  then
    match sort_colors_by_distinctiveness filtered_colors with
    | Raise e => Raise e
    | Return sorted_colors => Return (slice_to max_colors sorted_colors)
    end
  else Return (slice_to max_colors filtered_colors).

End Colors.

(** ** Fonts *)

(** [fonts\.googleapis\.com] *)
Definition google_fonts : regex := Lit (u "fonts.googleapis.com").

(** [:[^,]+] *)
Definition weight_spec : regex := Cat (Lit (u ":")) (plus (none_of (u ","))).

(** The quotation mark and the apostrophe. *)
Definition is_quote (c : char) : bool := (c =? 39) || (c =? 34).

(** The names one Google-Fonts link contributes. *)
Definition google_families (link : node) : list str :=
  let href := match get (u "href") link with Some h => h | None => [] end in
  if contains (u "family=") href
  then
    let family_part :=
      hd [] (split (u "&") (nth 1 (split (u "family=") href) [])) in
    let font_families := split (u "|") family_part in
    map (fun family =>
           let clean_family := re_sub weight_spec [] family in
           replace (u "+") (u " ") clean_family)
        font_families
  else [].

(** [@font-face\s*{[^}]+font-family\s*:\s*['dq](['dq]+)['dq]] with the
    classes of the two quotation marks *)
Definition font_face : regex :=
  seq [Lit (u "@font-face"); star is_space; Lit (u "{");
       plus (none_of (u "}")); Lit (u "font-family"); star is_space;
       Lit (u ":"); star is_space; Chr is_quote;
       Grp 1 (plus (fun c => negb (is_quote c))); Chr is_quote].

(** [font-family\s*:\s*([^;}]+)] *)
Definition font_family_decl : regex :=
  seq [Lit (u "font-family"); star is_space; Lit (u ":"); star is_space;
       Grp 1 (plus (none_of (u ";}")))].

(** A quotation mark at the start, or one at the end. *)
Definition outer_quote : regex :=
  Alt (Cat Bol (Chr is_quote)) (Cat (Chr is_quote) Eol).

(** [--(?:font|typography)-family(?:-[a-z]+)?\s*:\s*([^;}]+)] *)
Definition font_variable : regex :=
  seq [Lit (u "--"); Alt (Lit (u "font")) (Lit (u "typography"));
       Lit (u "-family");
       Opt (Cat (Lit (u "-")) (plus (in_range 97 122)));
       star is_space; Lit (u ":"); star is_space;
       Grp 1 (plus (none_of (u ";}")))].

Definition generic_short : list str :=
  [u "sans-serif"; u "serif"; u "monospace"].

Definition generic_families : list str :=
  [u "sans-serif"; u "serif"; u "monospace"; u "cursive"; u "fantasy"; []].

(** The families of one comma-separated list: stripped, unquoted, and
    kept unless empty or generic. *)
Definition families_of (value : str) : list str :=
  filter (fun family => truthy family && negb (mem (lower family) generic_short))
         (map (fun family => re_sub outer_quote [] (strip family))
              (split (u ",") value)).

Definition declared_families (css : str) : list str :=
  flat_map families_of (findall1 font_family_decl css).

(** The list [fonts] when the scan ends. *)
Definition collect_fonts (sp : soup) (html_content : str) : list str :=
  let ns := nodes_of sp in
  let google_fonts_links :=
    find_all (fun n => is_tag [u "link"] n && attr_re (u "href") google_fonts n)
             ns in
  flat_map google_families google_fonts_links
  ++ findall1 font_face html_content
  ++ flat_map (fun style_tag =>
                 match tag_string style_tag with
                 | Some css => if truthy css then declared_families css else []
                 | None => []
                 end)
              (find_all (is_tag [u "style"]) ns)
  ++ flat_map (fun element =>
                 let style_content :=
                   match get (u "style") element with
                   | Some v => v
                   | None => []
                   end in
                 if contains (u "font-family") style_content
                 then declared_families style_content
                 else [])
              (find_all (has_attr (u "style")) ns)
  ++ flat_map families_of (findall1 font_variable html_content).

(** The strings of Python are ordered by [<]. *)
Lemma str_ltb_irrefl a : str_ltb a a = false.
Proof.
  induction a as [|x a IH]; simpl; [reflexivity|].
  rewrite N.ltb_irrefl, N.eqb_refl, IH. reflexivity.
Qed.

Lemma str_ltb_trans a : forall b c,
  str_ltb a b = true -> str_ltb b c = true -> str_ltb a c = true.
Proof.
  induction a as [|x a IH]; intros [|y b] [|z c]; simpl; try congruence.
  intros H1 H2.
  apply orb_true_iff in H1. apply orb_true_iff in H2. apply orb_true_iff.
  destruct H1 as [H1|H1], H2 as [H2|H2].
  - left. apply N.ltb_lt in H1, H2. apply N.ltb_lt. lia.
  - apply andb_true_iff in H2. destruct H2 as [H2 _].
    apply N.eqb_eq in H2. subst. left. exact H1.
  - apply andb_true_iff in H1. destruct H1 as [H1 _].
    apply N.eqb_eq in H1. subst. left. exact H2.
  - apply andb_true_iff in H1. destruct H1 as [H1 H1'].
    apply andb_true_iff in H2. destruct H2 as [H2 H2'].
    apply N.eqb_eq in H1, H2. subst. right.
    rewrite N.eqb_refl. simpl. eapply IH; eassumption.
Qed.

Lemma str_ltb_total a : forall b,
  str_ltb a b = false -> str_ltb b a = false -> a = b.
Proof.
  induction a as [|x a IH]; intros [|y b]; simpl; try congruence.
  intros H1 H2.
  apply orb_false_iff in H1. destruct H1 as [H1 H1'].
  apply orb_false_iff in H2. destruct H2 as [H2 H2'].
  apply N.ltb_ge in H1, H2. assert (x = y) by lia. subst.
  rewrite N.eqb_refl in *. simpl in *. f_equal. apply IH; assumption.
Qed.

Lemma str_ltb_asym a b : str_ltb a b = true -> str_ltb b a = false.
Proof.
  intros H. destruct (str_ltb b a) eqn:E; [|reflexivity].
  rewrite <- (str_ltb_irrefl a). symmetry. eapply str_ltb_trans; eassumption.
Qed.

Lemma str_ltb_negtrans a b c :
  str_ltb a b = false -> str_ltb b c = false -> str_ltb a c = false.
Proof.
  intros H1 H2. destruct (str_ltb a c) eqn:E; [|reflexivity].
  destruct (str_ltb c b) eqn:E2.
  - rewrite <- H1. symmetry. eapply str_ltb_trans; eassumption.
  - assert (b = c) by (apply str_ltb_total; assumption). subst. congruence.
Qed.

#[export] Instance str_order : StrictWeakOrder str_ltb (fun _ => True) := {
  lt_asym := str_ltb_asym;
  lt_negtrans := fun a b c _ => @str_ltb_negtrans a b c
}.

Section Fonts.

Context {PS : PySet}.

(** The normalisation that ends [identify_fonts]. *)
Definition normalize_fonts (fonts : list str) : list str :=
  filter (fun font => truthy font && negb (mem (lower font) generic_families))
         (map strip fonts).

Definition identify_fonts (sp : soup) (html_content : str) : list str :=
  let fonts := collect_fonts sp html_content in
  let normalized_fonts := normalize_fonts fonts in
  sort_by str_ltb (fun font => font) (list_of_set normalized_fonts).

End Fonts.

End Design.

(* ================================================================== *)
(** * scraper/scraper.py: the orchestrator *)
(* ================================================================== *)

Module Website.

Import PyStr PyDict Soup PyExn Scraper Design.

(** What [requests.get] returned: the status, the page, and the text of
    the [HTTPError] that [raise_for_status] builds for this response. *)
Record response := Response {
  status_code : Z;
  http_error_msg : str;
  text : str
}.

(** The values of the design dictionary. *)
Inductive dvalue :=
| DList (l : list str)
| DUrl (url : option str).

Section Orchestrator.

Variable U : unicode_db.
Variable urljoin : str -> str -> result str.
Context {PS : PySet}.

(** [BeautifulSoup(text, 'html.parser')] *)
Variable html_parser : str -> result soup.

(** [response.raise_for_status()]: an [HTTPError], which is a
    [RequestException], for a status from 400 to 599. *)
Definition raise_for_status (r : response) : result unit :=
  if ((400 <=? status_code r) && (status_code r <? 600))%Z
  then Raise (RequestException (http_error_msg r))
  else Return tt.

(** The loop over [profile["fields"]]. *)
Fixpoint extract_all (sp : soup) (fields : list str) (url : str)
    (extracted_data : dict value) : result (dict value) :=
  match fields with
  | [] => Return extracted_data
  | field :: rest =>
      match extract_field U urljoin sp field url with
      | Raise e => Raise e
      | Return v => extract_all sp rest url (dict_set field v extracted_data)
      end
  end.

(** The body of the [try] block.  [get] is the outcome of
    [requests.get(url, ...)].  Inside the function the names
    [extract_colors] and [extract_logo] are its Boolean parameters, and
    [extract_color_palette] is bound nowhere. *)
Definition scrape_body (get : result response) (url : str)
    (fields : list str) (extract_colors extract_logo extract_fonts : bool)
  : result (dict value * dict dvalue) :=
  match get with
  | Raise e => Raise e
  | Return resp =>
      match raise_for_status resp with
      | Raise e => Raise e
      | Return _ =>
          match html_parser (text resp) with
          | Raise e => Raise e
          | Return sp =>
              match extract_all sp fields url [] with
              | Raise e => Raise e
              | Return extracted_data =>
                  if extract_colors
                  then Raise (NameError
                                (u "name 'extract_color_palette' is not defined"))
                  else if extract_logo
                  then Raise (TypeError (u "'bool' object is not callable"))
                  else
                    let design_elements :=
                      if extract_fonts
                      then dict_set (u "fonts")
                                    (DList (identify_fonts sp (text resp))) []
                      else [] in
                    Return (extracted_data, design_elements)
              end
          end
      end
  end.

(** [scrape_website]: the body under its two handlers. *)
Definition scrape_website (get : result response) (url : str)
    (fields : list str) (extract_colors extract_logo extract_fonts : bool)
  : result (dict value * dict dvalue) :=
  match scrape_body get url fields extract_colors extract_logo extract_fonts with
  | Return r => Return r
  | Raise (RequestException m) =>
      Raise (Exception_ (u "Failed to fetch website: " ++ m))
  | Raise e =>
      Raise (Exception_ (u "Error during scraping: " ++ str_of e))
  end.

End Orchestrator.

End Website.

(* ================================================================== *)
(** * scraper/design_elements.py: the scan of the colours *)
(* ================================================================== *)

Module DesignScan.

Import PyStr PyDict Re Soup PyExn Utils Scraper Design.
Local Open Scope N_scope.

(** ** Writing a colour *)

Definition hex_digit (d : N) : char := if d <? 10 then 48 + d else 87 + d.

(** The hexadecimal digits of [n], before those of [acc]. *)
Fixpoint hex_go (fuel : nat) (n : N) (acc : str) : str :=
  match fuel with
  | O => acc
  | S fuel' =>
      if n =? 0 then acc
      else hex_go fuel' (n / 16) (hex_digit (n mod 16) :: acc)
  end.

(** [format(n, 'x')] for a natural number *)
Definition hex (n : N) : str :=
  match n with
  | 0 => [48]
  | _ => hex_go (N.to_nat (N.size n)) n []
  end.

(** ['{:02x}'.format(n)]: at least two digits *)
Definition format_02x (n : N) : str :=
  match hex n with
  | [d] => [48; d]
  | ds => ds
  end.

(** ['#{:02x}{:02x}{:02x}'.format(r, g, b)] *)
Definition rgb_hex (r g b : N) : str :=
  u "#" ++ format_02x r ++ format_02x g ++ format_02x b.

(** ** The scan, lines 29 to 74 *)

(** What a part of the scan leaves: the colours it has appended to
    [colors], and the exception that ended it, if one did. *)
Definition scanned := (list str * option exn)%type.

Section Scan.

Variable U : unicode_db.

(** [int(s)] on a text of decimal digits: its value, or the
    [ValueError] of an interpreter that limits the length of the texts
    it converts. *)
Variable int : str -> result N.

(** What cssutils makes of the text of one style element: the values
    of the declarations that reach line 45 (those of a property whose
    name holds [color] or [background]), in the order of the loops, and
    the exception that cssutils raises after them, if it raises one. *)
Variable css_values : str -> list str * option exn.

(** [rgb\(\s*(\d+)\s*,\s*(\d+)\s*,\s*(\d+)\s*\)] *)
Definition rgb_color : regex :=
  seq [Lit (u "rgb("); star is_space; Grp 1 (plus (is_digit U)); star is_space;
       Lit (u ","); star is_space; Grp 2 (plus (is_digit U)); star is_space;
       Lit (u ","); star is_space; Grp 3 (plus (is_digit U)); star is_space;
       Lit (u ")")].

(** The loop over [rgb_colors]. *)
Fixpoint rgb_loop (rgb_colors : list hit) : scanned :=
  match rgb_colors with
  | [] => ([], None)
  | h :: rest =>
      match int (group 1 h) with
      | Raise e => ([], Some e)
      | Return r =>
          match int (group 2 h) with
          | Raise e => ([], Some e)
          | Return g =>
              match int (group 3 h) with
              | Raise e => ([], Some e)
              | Return b =>
                  let (colors, e) := rgb_loop rest in
                  (rgb_hex r g b :: colors, e)
              end
          end
      end
  end.

(** Lines 56 to 64 for one style attribute. *)
Definition style_colors (style_content : str) : scanned :=
  let hex_colors := findall hex_color style_content in
  let (colors, e) := rgb_loop (hits (scan rgb_color 0 [] style_content)) in
  (hex_colors ++ colors, e).

(** A loop that stops at the first exception. *)
Fixpoint scan_each (f : str -> scanned) (contents : list str) : scanned :=
  match contents with
  | [] => ([], None)
  | c :: rest =>
      match f c with
      | (colors, Some e) => (colors, Some e)
      | (colors, None) =>
          let (colors', e) := scan_each f rest in (colors ++ colors', e)
      end
  end.

(** Lines 34 to 51 for the text of one style element. *)
Definition sheet_colors (style_content : str) : scanned :=
  let (values, e) := css_values style_content in
  match scan_each style_colors values with
  | (colors, Some e') => (colors, Some e')
  | (colors, None) => (colors, e)
  end.

(** The list [colors] when the [try] block is left, by its end or by
    an exception.  The loop over the linked style sheets appends
    nothing. *)
Definition scan_colors (sp : soup) : list str :=
  let ns := nodes_of sp in
  let sheets :=
    flat_map (fun style_tag =>
                match tag_string style_tag with
                | Some css => if truthy css then [css] else []
                | None => []
                end)
             (find_all (is_tag [u "style"]) ns) in
  match scan_each sheet_colors sheets with
  | (colors, Some _) => colors
  | (colors, None) =>
      colors
      ++ fst (scan_each style_colors
                        (map (item (u "style")) (find_all (has_attr (u "style")) ns)))
  end.

Context {PS : PySet}.
Variable F : Type.
Variable lt : F -> F -> bool.
Variable ratio : Z -> F.
Variable rgb_to_hsv : F -> F -> F -> F * F * F.

(** [extract_colors(soup, html_content, max_colors)] *)
Definition extract_page_colors (sp : soup) (html_content : str)
    (max_colors : Z) : result (list str) :=
  extract_colors lt ratio rgb_to_hsv (scan_colors sp) html_content max_colors.

End Scan.

End DesignScan.

(* ================================================================== *)
(** * scraper/design_elements.py: the logo *)
(* ================================================================== *)

Module Logo.

Import PyStr PyDict Re Soup PyExn Scraper.
Local Open Scope N_scope.

(** ** [base64.b64encode(s.encode('utf-8')).decode('utf-8')] *)

(** The UTF-8 bytes of a text.  A surrogate cannot be encoded
    ([UnicodeEncodeError], which is a [ValueError]); the text of the
    error is left out. *)
Definition utf8_char (c : char) : option (list N) :=
  if c <? 128 then Some [c]
  else if c <? 2048 then Some [192 + c / 64; 128 + c mod 64]
  else if (55296 <=? c) && (c <=? 57343) then None
  else if c <? 65536
  then Some [224 + c / 4096; 128 + (c / 64) mod 64; 128 + c mod 64]
  else Some [240 + c / 262144; 128 + (c / 4096) mod 64;
             128 + (c / 64) mod 64; 128 + c mod 64].

Fixpoint utf8_encode (s : str) : result (list N) :=
  match s with
  | [] => Return []
  | c :: s' =>
      match utf8_char c with
      | None => Raise (ValueError (u "surrogates not allowed"))
      | Some bs =>
          match utf8_encode s' with
          | Return rest => Return (bs ++ rest)
          | Raise e => Raise e
          end
      end
  end.

Definition b64_char (n : N) : char :=
  if n <? 26 then 65 + n
  else if n <? 52 then 71 + n
  else if n <? 62 then n - 4
  else if n =? 62 then 43
  else 47.

Fixpoint b64encode (bs : list N) : str :=
  match bs with
  | [] => []
  | [a] => [b64_char (a / 4); b64_char ((a mod 4) * 16); 61; 61]
  | [a; b] =>
      [b64_char (a / 4); b64_char ((a mod 4) * 16 + b / 16);
       b64_char ((b mod 16) * 4); 61]
  | a :: b :: c :: rest =>
      [b64_char (a / 4); b64_char ((a mod 4) * 16 + b / 16);
       b64_char ((b mod 16) * 4 + c / 64); b64_char (c mod 64)]
      ++ b64encode rest
  end.

(** ** [extract_logo] *)

(** [logo] and [header], ignoring case *)
Definition logo_re : regex := LitI (u "logo").
Definition header_re : regex := LitI (u "header").

(** One entry of [logo_selectors]: the tag, the test on the
    attributes, and the tag of the child to look for, if any. *)
Record selector := Selector {
  sel_tag : str;
  sel_attrs : node -> bool;
  sel_find_child : option str
}.

Definition logo_selectors : list selector :=
  [ Selector (u "img") (class_re logo_re) None;
    Selector (u "img") (attr_re (u "id") logo_re) None;
    Selector (u "img") (attr_re (u "alt") logo_re) None;
    Selector (u "img") (attr_re (u "src") logo_re) None;
    Selector (u "a") (class_re logo_re) (Some (u "img"));
    Selector (u "div") (class_re logo_re) (Some (u "img"));
    Selector (u "svg") (class_re logo_re) None ].

Section ExtractLogo.

Variable urljoin : str -> str -> result str.

(** [str(element)]: the markup BeautifulSoup writes for an element. *)
Variable str_of_tag : node -> str.

Variable base_url : str.

(** The address of the image [img], if it has a [src]. *)
Definition src_url (img : option node) : option (result (option str)) :=
  match img with
  | Some img =>
      match get (u "src") img with
      | Some src =>
          Some (match urljoin base_url src with
                | Return logo_url => Return (Some logo_url)
                | Raise e => Raise e
                end)
      | None => None
      end
  | None => None
  end.

Definition first_img (element : node) : option node :=
  find_first (is_tag [u "img"]) (descendants element).

(** The SVG element as a data URI. *)
Definition svg_data_uri (element : node) : result (option str) :=
  match utf8_encode (str_of_tag element) with
  | Return bytes =>
      Return (Some (u "data:image/svg+xml;base64," ++ b64encode bytes))
  | Raise e => Raise e
  end.

(** The body of the inner loop for one element: what it returns, if it
    returns. *)
Definition logo_of (sel : selector) (element : node)
  : option (result (option str)) :=
  match sel_find_child sel with
  | Some child_tag =>
      src_url (find_first (is_tag [child_tag]) (descendants element))
  | None =>
      if is_tag [u "img"] element && has_attr (u "src") element
      then src_url (Some element)
      else if is_tag [u "svg"] element
      then Some (svg_data_uri element)
      else None
  end.

(** The elements one selector finds. *)
Definition selected (sel : selector) (sp : soup) : list node :=
  find_all (fun n => is_tag [sel_tag sel] n && sel_attrs sel n) (nodes_of sp).

Definition extract_logo (sp : soup) : result (option str) :=
  match first_some
          (fun sel => first_some (logo_of sel) (selected sel sp))
          logo_selectors with
  | Some r => r
  | None =>
      let header :=
        find_first (fun n => is_tag [u "header"; u "div"] n
                             && class_re header_re n) (nodes_of sp) in
      match match header with
            | Some header => src_url (first_img header)
            | None => None
            end with
      | Some r => r
      | None =>
          let home_links :=
            find_all (fun n => is_tag [u "a"] n && attr_is (u "href") (u "/") n)
                     (nodes_of sp) in
          match first_some (fun link => src_url (first_img link)) home_links with
          | Some r => r
          | None => Return None
          end
      end
  end.

End ExtractLogo.

End Logo.

(* ================================================================== *)
(** * Instances of the parameters, for running the model *)
(* ================================================================== *)

From Stdlib Require Import QArith.
From Stdlib Require Floats Uint63.
Close Scope Q_scope.

Module Concrete.

Import PyStr PyDict Re Soup PyExn PySort Design.

(** The database of a page written in ASCII: no character beyond ASCII
    counts as a letter or a digit. *)
Definition ascii_db : unicode_db := UnicodeDb (fun _ => false) (fun _ => false).

(** One order for [list(set(l))]. *)
#[export] Instance dedup : PySet := {
  list_of_set := nodup (list_eq_dec N.eq_dec);
  list_of_set_NoDup := NoDup_nodup (list_eq_dec N.eq_dec);
  list_of_set_In := fun l x => nodup_In (list_eq_dec N.eq_dec) l x
}.

(** The part of [urljoin] the examples use, for a base of the form
    [scheme://host/...]: a reference [//host/path] takes the scheme of
    the base, a reference [/path] its scheme and host.  A reference
    whose host part opens a bracket that it does not close raises
    [ValueError], as in [urllib]. *)
Definition scheme_of (base : str) : str := hd [] (split (u "://") base).

Definition host_of (base : str) : str :=
  hd [] (split (u "/") (nth 1 (split (u "://") base) [])).

Definition urljoin (base ref : str) : result str :=
  if startswith (u "//") ref
  then
    let netloc := hd [] (split (u "/") (skipn 2 ref)) in
    if contains (u "[") netloc && negb (contains (u "]") netloc)
    then Raise (ValueError (u "Invalid IPv6 URL"))
    else Return (scheme_of base ++ u ":" ++ ref)
  else if startswith (u "/") ref
  then Return (scheme_of base ++ u "://" ++ host_of base ++ ref)
  else Return ref.

(** A parser for pages without markup: the empty page has no node, any
    other text is one string. *)
Definition html_parser (page : str) : result soup :=
  match page with
  | [] => Return []
  | _ :: _ => Return [Text page]
  end.

(** ** Hue, saturation and value in floating point *)

Import Floats.

(** [n / 255.0] *)
Definition float_ratio (n : Z) : float :=
  PrimFloat.div (PrimFloat.of_uint63 (Uint63.of_Z n)) 255%float.

Definition float_max (a b : float) : float := if PrimFloat.ltb a b then b else a.
Definition float_min (a b : float) : float := if PrimFloat.ltb b a then b else a.

(** [x % 1.0] for [-1 < x < 1] *)
Definition float_mod_one (x : float) : float :=
  if PrimFloat.ltb x 0%float then PrimFloat.add x 1%float else x.

(** [colorsys.rgb_to_hsv] *)
Definition float_rgb_to_hsv (r g b : float) : float * float * float :=
  let maxc := float_max (float_max r g) b in
  let minc := float_min (float_min r g) b in
  let rangec := PrimFloat.sub maxc minc in
  let v := maxc in
  if PrimFloat.eqb minc maxc then (0%float, 0%float, v)
  else
    let s := PrimFloat.div rangec maxc in
    let rc := PrimFloat.div (PrimFloat.sub maxc r) rangec in
    let gc := PrimFloat.div (PrimFloat.sub maxc g) rangec in
    let bc := PrimFloat.div (PrimFloat.sub maxc b) rangec in
    let h :=
      if PrimFloat.eqb r maxc then PrimFloat.sub bc gc
      else if PrimFloat.eqb g maxc
           then PrimFloat.sub (PrimFloat.add 2%float rc) bc
           else PrimFloat.sub (PrimFloat.add 4%float gc) rc in
    (float_mod_one (PrimFloat.div h 6%float), s, v).

(** ** The comparison of floats *)

(** A float that is not NaN is equal to itself. *)
Definition not_nan (x : float) : bool := PrimFloat.eqb x x.












(** ** Hue, saturation and value in exact arithmetic *)

(** The same arithmetic carried out on rationals, whose comparison is
    an order. *)
Local Open Scope Q_scope.

Definition Qratio (n : Z) : Q := inject_Z n / 255.

Definition Qmax (a b : Q) : Q := if Qle_bool a b then b else a.
Definition Qmin (a b : Q) : Q := if Qle_bool a b then a else b.

Definition Qmod_one (x : Q) : Q := if Qle_bool 0 x then x else x + 1.

Definition Qrgb_to_hsv (r g b : Q) : Q * Q * Q :=
  let maxc := Qmax (Qmax r g) b in
  let minc := Qmin (Qmin r g) b in
  let rangec := maxc - minc in
  let v := maxc in
  if Qeq_bool minc maxc then (0, 0, v)
  else
    let s := rangec / maxc in
    let rc := (maxc - r) / rangec in
    let gc := (maxc - g) / rangec in
    let bc := (maxc - b) / rangec in
    let h :=
      if Qeq_bool r maxc then bc - gc
      else if Qeq_bool g maxc then 2 + rc - bc
      else 4 + gc - rc in
    (Qmod_one (h / 6), s, v).

Definition Qlt_bool (a b : Q) : bool := negb (Qle_bool b a).

Lemma Qlt_bool_asym a b : Qlt_bool a b = true -> Qlt_bool b a = false.
Proof.
  unfold Qlt_bool. intros H. apply negb_true_iff in H.
  apply negb_false_iff. apply Qle_bool_iff.
  destruct (Qlt_le_dec a b) as [Hlt|Hle].
  - apply Qlt_le_weak. exact Hlt.
  - apply Qle_bool_iff in Hle. congruence.
Qed.

Lemma Qlt_bool_negtrans a b c :
  Qlt_bool a b = false -> Qlt_bool b c = false -> Qlt_bool a c = false.
Proof.
  unfold Qlt_bool. intros H1 H2.
  apply negb_false_iff in H1. apply negb_false_iff in H2.
  apply negb_false_iff. apply Qle_bool_iff.
  apply Qle_bool_iff in H1. apply Qle_bool_iff in H2.
  eapply Qle_trans; eassumption.
Qed.

#[export] Instance Q_order : StrictWeakOrder Qlt_bool (fun _ => True) := {
  lt_asym := Qlt_bool_asym;
  lt_negtrans := fun a b c _ => @Qlt_bool_negtrans a b c
}.

End Concrete.

(* ================================================================== *)
(** * Properties of the design extractor *)
(* ================================================================== *)

Module DesignSpec.

Import PyStr PyDict Re Soup PyExn PySort Design.

(** ** Fonts *)

(** A list without repetition that [sorted] has arranged is strictly
    increasing. *)
Lemma in_order_distinct_strict (l : list str) :
  StronglySorted (in_order str_ltb (fun f : str => f)) l -> NoDup l ->
  StronglySorted (fun a b => str_ltb a b = true) l.
Proof.
  intros Hs. induction Hs as [|a l Hs IH Ha]; intros Hn.
  - constructor.
  - inversion Hn as [|? ? Hnot Hn']; subst.
    constructor; [apply IH; exact Hn'|].
    apply Forall_forall. intros b Hb.
    rewrite Forall_forall in Ha. specialize (Ha b Hb).
    unfold in_order in Ha. simpl in Ha.
    destruct (str_ltb a b) eqn:E; [reflexivity|].
    exfalso. apply Hnot.
    rewrite (str_ltb_total a b E Ha). exact Hb.
Qed.

Lemma normalize_fonts_spec (fonts : list str) (f : str) :
  In f (normalize_fonts fonts) ->
  f <> [] /\ mem (lower f) generic_families = false.
Proof.
  unfold normalize_fonts. intros H. apply filter_In in H.
  destruct H as [_ H]. apply andb_true_iff in H. destruct H as [Ht Hg].
  split.
  - intros ->. discriminate Ht.
  - apply negb_true_iff. exact Hg.
Qed.

(** The five keywords the specification names. *)
Definition generic_keywords : list str :=
  [u "serif"; u "sans-serif"; u "monospace"; u "cursive"; u "fantasy"].

Lemma generic_keywords_incl k :
  In k generic_keywords -> mem k generic_families = true.
Proof.
  intros H. apply mem_In. unfold generic_keywords, generic_families in *.
  simpl in *. intuition auto.
Qed.

(** C7: for every document, the list [identify_fonts] returns is sorted
    in ascending lexicographic order (strictly, so without duplicate),
    has no repeated entry, holds no empty string, and holds no entry
    whose lower-case form is one of the generic keywords serif,
    sans-serif, monospace, cursive, fantasy. *)
Theorem identify_fonts_sorted_clean (PS : PySet) (sp : soup) (html_content : str) :
  StronglySorted (fun a b => str_ltb a b = true) (identify_fonts sp html_content)
  /\ NoDup (identify_fonts sp html_content)
  /\ (forall f, In f (identify_fonts sp html_content) ->
        f <> [] /\ ~ In (lower f) generic_keywords).
Proof.
  unfold identify_fonts.
  set (fonts := normalize_fonts (collect_fonts sp html_content)).
  assert (Hn : NoDup (sort_by str_ltb (fun font : str => font)
                              (list_of_set fonts))).
  { eapply Permutation_NoDup; [apply sort_by_perm | apply list_of_set_NoDup]. }
  split; [|split].
  - apply in_order_distinct_strict; [|exact Hn].
    apply (@sort_by_sorted _ _ str_ltb _ str_order).
    apply Forall_forall. intros; exact I.
  - exact Hn.
  - intros f Hf. apply (proj1 (sort_by_In _ _ _ _)) in Hf.
    apply (proj1 (list_of_set_In _ _)) in Hf.
    apply normalize_fonts_spec in Hf. destruct Hf as [Hne Hg].
    split; [exact Hne|].
    intros Hk. apply generic_keywords_incl in Hk. congruence.
Qed.

(** ** The palette ranking *)

Section Ranking.

Context {F : Type} (lt : F -> F -> bool) (valid : F -> Prop)
        {SW : StrictWeakOrder lt valid}.
Variable ratio : Z -> F.
Variable rgb_to_hsv : F -> F -> F -> F * F * F.


(** A colour as the patterns of the scan let it through: its channels
    can be read. *)
Definition is_color (color : str) : bool :=
  match channels color with
  | Some _ => true
  | None => false
  end.





(** An entry of [hsv_colors] carries the conversion of its colour. *)
Definition entry_ok (x : str * (F * F * F)) : Prop :=
  hsv ratio rgb_to_hsv (fst x) = Return (snd x).

Lemma is_color_converts (c : str) :
  is_color c = true -> exists t, hsv ratio rgb_to_hsv c = Return t.
Proof.
  unfold is_color, hsv.
  destruct (channels c) as [[[r g] b]|]; [|discriminate].
  intros _. eexists. reflexivity.
Qed.

Lemma to_hsv_spec (colors : list str) :
  Forall (fun c => is_color c = true) colors ->
  exists l, to_hsv ratio rgb_to_hsv colors = Return l
            /\ map fst l = colors /\ Forall entry_ok l.
Proof.
  induction colors as [|c colors IH]; intros Hall.
  - exists []. simpl. repeat split; constructor.
  - inversion Hall as [|? ? Hc Hall']; subst.
    destruct (is_color_converts _ Hc) as [t Ht].
    destruct (IH Hall') as [l [Hl [Hm Hf]]].
    exists ((c, t) :: l). simpl. rewrite Ht, Hl.
    repeat split.
    + simpl. f_equal. exact Hm.
    + constructor; [exact Ht | exact Hf].
Qed.






(** Whenever the ranking returns, it returns a permutation. *)
Lemma to_hsv_colors (colors : list str) :
  forall l, to_hsv ratio rgb_to_hsv colors = Return l -> map fst l = colors.
Proof.
  induction colors as [|c colors IH]; intros l H; simpl in H.
  - injection H as <-. reflexivity.
  - destruct (hsv ratio rgb_to_hsv c) as [t|e]; [|discriminate].
    destruct (to_hsv ratio rgb_to_hsv colors) as [l'|e]; [|discriminate].
    injection H as <-. simpl. f_equal. apply IH. reflexivity.
Qed.

Lemma ranking_permutation (colors out : list str) :
  sort_colors_by_distinctiveness lt ratio rgb_to_hsv colors = Return out ->
  Permutation colors out.
Proof.
  unfold sort_colors_by_distinctiveness.
  destruct (to_hsv ratio rgb_to_hsv colors) as [l|e] eqn:Hl; [|discriminate].
  apply to_hsv_colors in Hl. subst colors.
  pose proof (sort_by_perm lt (@hue F) l) as Hperm.
  destruct (sort_by lt (@hue F) l) as [|x rest]; intros H.
  - injection H as <-. apply (Permutation_map fst) in Hperm. exact Hperm.
  - assert (Hout : Permutation (map fst (x :: rest)) out).
    { destruct (Nat.ltb 1 (List.length (x :: rest))) eqn:E;
        injection H as <-.
      - simpl. apply perm_skip. apply Permutation_map. apply sort_by_perm.
      - destruct rest; [apply Permutation_refl|].
        simpl in E. discriminate. }
    eapply Permutation_trans; [apply Permutation_map; exact Hperm | exact Hout].
Qed.

End Ranking.

(** ** The palette *)

Lemma firstn_NoDup (A : Type) (n : nat) (l : list A) :
  NoDup l -> NoDup (firstn n l).
Proof.
  intros H. rewrite <- (firstn_skipn n l) in H.
  apply NoDup_app_remove_r in H. exact H.
Qed.

Lemma firstn_In (A : Type) (n : nat) (l : list A) (x : A) :
  In x (firstn n l) -> In x l.
Proof.
  intros H. rewrite <- (firstn_skipn n l). apply in_or_app. left. exact H.
Qed.

Lemma slice_to_NoDup (A : Type) (n : Z) (l : list A) :
  NoDup l -> NoDup (slice_to n l).
Proof. unfold slice_to. destruct (n <? 0)%Z; apply firstn_NoDup. Qed.

Lemma slice_to_In (A : Type) (n : Z) (l : list A) (x : A) :
  In x (slice_to n l) -> In x l.
Proof. unfold slice_to. destruct (n <? 0)%Z; apply firstn_In. Qed.

(** The colours that survive lines 77 to 81. *)
Definition surviving (PS : PySet) (colors : list str) : list str :=
  filter (fun c => negb (mem c excluded_colors)) (list_of_set (map lower colors)).

(** X1: when at least two colours survive, so that the fallback does
    not run, the palette has no repetition and none of the excluded
    colours. *)
Lemma extract_colors_without_fallback (PS : PySet) (F : Type)
    (lt : F -> F -> bool) (ratio : Z -> F)
    (rgb_to_hsv : F -> F -> F -> F * F * F) (colors : list str)
    (html_content : str) (max_colors : Z) (palette : list str) :
  2 <= List.length (surviving PS colors) ->
  extract_colors lt ratio rgb_to_hsv colors html_content max_colors
  = Return palette ->
  NoDup palette /\ (forall c, In c palette -> mem c excluded_colors = false).
Proof.
  intros Hlen. unfold extract_colors. fold (surviving PS colors).
  assert (H2 : Nat.ltb (List.length (surviving PS colors)) 2 = false)
    by (apply Nat.ltb_ge; exact Hlen).
  assert (H1 : Nat.ltb 1 (List.length (surviving PS colors)) = true)
    by (apply Nat.ltb_lt; lia).
  rewrite H2, H1.
  destruct (sort_colors_by_distinctiveness lt ratio rgb_to_hsv
                                           (surviving PS colors))
    as [sorted|e] eqn:Hs; [|discriminate].
  intros H. injection H as <-.
  apply ranking_permutation in Hs.
  assert (Hn : NoDup (surviving PS colors)).
  { unfold surviving. apply NoDup_filter. apply list_of_set_NoDup. }
  split.
  - apply slice_to_NoDup. eapply Permutation_NoDup; eassumption.
  - intros c Hc. apply slice_to_In in Hc.
    apply (Permutation_in _ (Permutation_sym Hs)) in Hc.
    unfold surviving in Hc. apply filter_In in Hc.
    apply negb_true_iff. exact (proj2 Hc).
Qed.

(** The bound on the length holds whatever the path. *)
Lemma slice_to_length (A : Type) (n : Z) (l : list A) :
  (0 <= n)%Z -> (Z.of_nat (List.length (slice_to n l)) <= n)%Z.
Proof.
  intros Hn. unfold slice_to.
  destruct (n <? 0)%Z eqn:E; [apply Z.ltb_lt in E; lia|].
  rewrite length_firstn. lia.
Qed.

(** X2: whatever the path, fallback included, the palette has at most
    [max_colors] entries when [max_colors] is not negative. *)
Lemma extract_colors_length (PS : PySet) (F : Type)
    (lt : F -> F -> bool) (ratio : Z -> F)
    (rgb_to_hsv : F -> F -> F -> F * F * F) (colors : list str)
    (html_content : str) (max_colors : Z) (palette : list str) :
  (0 <= max_colors)%Z ->
  extract_colors lt ratio rgb_to_hsv colors html_content max_colors
  = Return palette ->
  (Z.of_nat (List.length palette) <= max_colors)%Z.
Proof.
  intros Hn. unfold extract_colors.
  match goal with |- context [if ?c then _ else _] => destruct c end.
  - destruct (sort_colors_by_distinctiveness lt ratio rgb_to_hsv _);
      [|discriminate].
    intros H. injection H as <-. apply slice_to_length. exact Hn.
  - intros H. injection H as <-. apply slice_to_length. exact Hn.
Qed.

End DesignSpec.

(* ================================================================== *)
(** * The design extractor on sample pages *)
(* ================================================================== *)

Module DesignRuns.

Import PyStr PyDict Re Soup PyExn PySort Design Concrete DesignSpec.

(** ** The ranking of five colours *)

Definition five_colors : list str :=
  [u "#0000ff"; u "#ff0000"; u "#808080"; u "#00ff00"; u "#336699"].

Definition five_colors_ranked : list str :=
  [u "#ff0000"; u "#00ff00"; u "#0000ff"; u "#336699"; u "#808080"].

(** In floating point, as the interpreter computes it. *)
Example five_colors_ranked_float :
  sort_colors_by_distinctiveness PrimFloat.ltb float_ratio float_rgb_to_hsv
                                 five_colors
  = Return five_colors_ranked.
Proof. vm_compute. reflexivity. Qed.

(** In exact arithmetic. *)
Example five_colors_ranked_exact :
  sort_colors_by_distinctiveness Qlt_bool Qratio Qrgb_to_hsv five_colors
  = Return five_colors_ranked.
Proof. vm_compute. reflexivity. Qed.




(** Every colour of three digits has a hue and a saturation that are
    not NaN. *)
Definition hex_digits : str := u "0123456789abcdef".

Definition short_colors : list str :=
  flat_map (fun r => flat_map (fun g => map (fun b => [35%N; r; g; b]) hex_digits)
                              hex_digits) hex_digits.

Definition no_nan_keys (color : str) : bool :=
  match hsv float_ratio float_rgb_to_hsv color with
  | Return t => not_nan (fst (fst t)) && not_nan (snd (fst t))
  | Raise _ => false
  end.

Example short_colors_no_nan : forallb no_nan_keys short_colors = true.
Proof. vm_compute. reflexivity. Qed.

(** ** A page whose only colour is white, declared twice *)

(** The page [<div style='--primary: #fff; --brand: #FFF'>x</div>]:
    the scan of its style attribute finds [#fff] and [#FFF]. *)
Definition white_page : str :=
  u "<div style='--primary: #fff; --brand: #FFF'>x</div>".

Definition white_page_scan : list str := [u "#fff"; u "#FFF"].

Example white_page_scan_found :
  findall hex_color (u "--primary: #fff; --brand: #FFF") = white_page_scan.
Proof. vm_compute. reflexivity. Qed.

Example white_page_fallback :
  fallback_colors white_page = [u "#fff"; u "#fff"].
Proof. vm_compute. reflexivity. Qed.

(** C2: on this page the main path filters white out, fewer than two
    colours remain, and the fallback appends white twice, unfiltered:
    the palette is white, white. *)
Theorem extract_colors_white_twice :
  extract_colors PrimFloat.ltb float_ratio float_rgb_to_hsv
                 white_page_scan white_page 5
  = Return [u "#fff"; u "#fff"].
Proof. vm_compute. reflexivity. Qed.

(** ** A page that loads two families from Google Fonts *)

Definition fonts_href : str :=
  u "https://fonts.googleapis.com/css?family=Open+Sans:400,700|Roboto".

Definition fonts_page : str :=
  u "<link rel='stylesheet' href='" ++ fonts_href ++ u "'>".

Definition fonts_soup : soup :=
  [Elem (u "link") [(u "rel", u "stylesheet"); (u "href", fonts_href)] []].

Example weight_spec_stops_at_comma :
  re_sub weight_spec [] (u "Family:400,700") = u "Family,700".
Proof. vm_compute. reflexivity. Qed.

(** C8: the entry [Open+Sans:400,700] of the link contributes
    [Open Sans,700]: the pattern removes the suffix up to its first
    comma only. *)
Theorem identify_fonts_keeps_second_weight :
  identify_fonts fonts_soup fonts_page = [u "Open Sans,700"; u "Roboto"].
Proof. vm_compute. reflexivity. Qed.

End DesignRuns.

(* ================================================================== *)
(** * Properties of dictionaries *)
(* ================================================================== *)

Module DictFacts.

Import PyStr PyDict.

Lemma dict_get_set_same (V : Type) (k : str) (v : V) (d : dict V) :
  dict_get k (dict_set k v d) = Some v.
Proof.
  induction d as [|[k' v'] d IH]; simpl.
  - rewrite str_eqb_refl. reflexivity.
  - destruct (str_eqb k' k) eqn:E; simpl; rewrite E; [reflexivity | exact IH].
Qed.

Lemma dict_get_set_other (V : Type) (k k0 : str) (v : V) (d : dict V) :
  k <> k0 -> dict_get k0 (dict_set k v d) = dict_get k0 d.
Proof.
  intros Hne. induction d as [|[k' v'] d IH]; simpl.
  - destruct (str_eqb k k0) eqn:E; [|reflexivity].
    apply str_eqb_eq in E. contradiction.
  - destruct (str_eqb k' k) eqn:E; simpl.
    + apply str_eqb_eq in E. subst k'.
      destruct (str_eqb k k0) eqn:E0; [|reflexivity].
      apply str_eqb_eq in E0. contradiction.
    + rewrite IH. reflexivity.
Qed.

Lemma keys_dict_set (V : Type) (k : str) (v : V) (d : dict V) :
  keys (dict_set k v d) = if mem k (keys d) then keys d else keys d ++ [k].
Proof.
  unfold keys. induction d as [|[k' v'] d IH]; simpl; [reflexivity|].
  unfold mem in *. simpl.
  destruct (str_eqb k' k) eqn:E; simpl.
  - apply str_eqb_eq in E. subst k'. rewrite str_eqb_refl. reflexivity.
  - assert (E' : str_eqb k k' = false).
    { apply str_eqb_neq. apply str_eqb_neq in E. congruence. }
    rewrite E'. simpl. rewrite IH.
    destruct (existsb (str_eqb k) (map fst d)); reflexivity.
Qed.

Lemma keys_dict_set_NoDup (V : Type) (k : str) (v : V) (d : dict V) :
  NoDup (keys d) -> NoDup (keys (dict_set k v d)).
Proof.
  intros Hn. rewrite keys_dict_set.
  destruct (mem k (keys d)) eqn:E; [exact Hn|].
  apply NoDup_app; [exact Hn | constructor; [intros [] | constructor] |].
  intros x Hx [<-|[]].
  apply mem_In in Hx. congruence.
Qed.

Lemma keys_dict_set_In (V : Type) (k x : str) (v : V) (d : dict V) :
  In x (keys (dict_set k v d)) <-> x = k \/ In x (keys d).
Proof.
  rewrite keys_dict_set. destruct (mem k (keys d)) eqn:E.
  - apply mem_In in E. split; [auto|]. intros [->|H]; assumption.
  - rewrite in_app_iff. simpl. split.
    + intros [H|[<-|[]]]; auto.
    + intros [->|H]; auto.
Qed.

Lemma dict_get_In_keys (V : Type) (k : str) (d : dict V) :
  In k (keys d) <-> exists v, dict_get k d = Some v.
Proof.
  unfold keys. induction d as [|[k' v'] d IH]; simpl.
  - split; [intros [] | intros [v Hv]; discriminate].
  - destruct (str_eqb k' k) eqn:E.
    + apply str_eqb_eq in E. split; [intros _; eexists; reflexivity | auto].
    + apply str_eqb_neq in E. rewrite <- IH. split; [intros [H|H]; [contradiction|exact H] | auto].
Qed.

End DictFacts.

(* ================================================================== *)
(** * Properties of the field extractor *)
(* ================================================================== *)

Module ScraperSpec.

Import PyStr PyDict Re Soup PyExn Utils Scraper DictFacts.

(** The last element of a list. *)
Fixpoint last_opt (A : Type) (l : list A) : option A :=
  match l with
  | [] => None
  | x :: l' =>
      match last_opt l' with
      | Some y => Some y
      | None => Some x
      end
  end.

Section Social.

Variable urljoin : str -> str -> result str.

(** The URL kept for a link: its [href] when absolute, else the [href]
    joined to the base. *)
Definition resolve (base_url href : str) : result str :=
  if is_absolute href then Return href else urljoin base_url href.

(** The links a platform receives: those whose first matching pattern,
    in the order of the table, is the platform's. *)
Definition attributed (platform : str) (hrefs : list str) : list str :=
  filter (fun href => match platform_of href with
                      | Some q => str_eqb q platform
                      | None => false
                      end) hrefs.

Definition platforms : list str := map fst social_patterns.

Lemma platform_of_known (href q : str) :
  platform_of href = Some q -> In q platforms.
Proof.
  unfold platform_of, platforms. intros H.
  destruct (find (fun p => matches (snd p) href) social_patterns) as [p|] eqn:E;
    [|discriminate].
  simpl in H. injection H as <-.
  apply find_some in E. apply in_map. exact (proj1 E).
Qed.

Lemma social_loop_keys (base_url : str) (hrefs : list str) :
  forall d0 d,
    social_loop urljoin base_url hrefs d0 = Return d ->
    NoDup (keys d0) -> (forall p, In p (keys d0) -> In p platforms) ->
    NoDup (keys d) /\ (forall p, In p (keys d) -> In p platforms).
Proof.
  induction hrefs as [|href rest IH]; intros d0 d Hrun Hn Hk; simpl in Hrun.
  - injection Hrun as <-. split; assumption.
  - destruct (platform_of href) as [q|] eqn:Hq; [|eapply IH; eassumption].
    assert (Hstep : forall url,
               NoDup (keys (dict_set q url d0))
               /\ (forall p, In p (keys (dict_set q url d0)) -> In p platforms)).
    { intros url. split; [apply keys_dict_set_NoDup; exact Hn|].
      intros p Hp. apply keys_dict_set_In in Hp. destruct Hp as [->|Hp].
      - eapply platform_of_known; eassumption.
      - apply Hk; exact Hp. }
    destruct (is_absolute href).
    + destruct (Hstep href). eapply IH; eassumption.
    + destruct (urljoin base_url href) as [url|e]; [|discriminate].
      destruct (Hstep url). eapply IH; eassumption.
Qed.

Lemma social_loop_last (base_url : str) (hrefs : list str) :
  forall d0 d,
    social_loop urljoin base_url hrefs d0 = Return d ->
    forall p,
      match last_opt (attributed p hrefs) with
      | Some href =>
          exists url, resolve base_url href = Return url /\ dict_get p d = Some url
      | None => dict_get p d = dict_get p d0
      end.
Proof.
  induction hrefs as [|href rest IH]; intros d0 d Hrun p; simpl in Hrun.
  - injection Hrun as <-. reflexivity.
  - simpl. destruct (platform_of href) as [q|] eqn:Hq.
    + assert (Hres : exists url, resolve base_url href = Return url
                                 /\ social_loop urljoin base_url rest
                                                (dict_set q url d0) = Return d).
      { unfold resolve. destruct (is_absolute href).
        - exists href. split; [reflexivity | exact Hrun].
        - destruct (urljoin base_url href) as [url|e]; [|discriminate].
          exists url. split; [reflexivity | exact Hrun]. }
      destruct Hres as [url [Hurl Hrest]].
      specialize (IH _ _ Hrest p).
      destruct (str_eqb q p) eqn:Hqp; simpl.
      * destruct (last_opt (attributed p rest)); [exact IH|].
        apply str_eqb_eq in Hqp. subst q.
        exists url. split; [exact Hurl|].
        rewrite IH. apply dict_get_set_same.
      * destruct (last_opt (attributed p rest)); [exact IH|].
        rewrite IH. apply dict_get_set_other.
        apply str_eqb_neq. exact Hqp.
    + apply IH. exact Hrun.
Qed.

(** C3, as amended: the social-links strategy returns at most one URL
    per platform of the table; a link belongs to the first platform of
    the table whose pattern its [href] matches, and the URL kept for a
    platform is that of the LAST link of the document that belongs to
    it, joined to the base URL unless it starts with http:// or
    https://. *)
Theorem social_links_last_match_wins (sp : soup) (base_url : str) (d : dict str) :
  extract_social urljoin sp base_url = Return d ->
  NoDup (keys d)
  /\ (forall p, In p (keys d) -> In p platforms)
  /\ (forall p,
        match last_opt (attributed p (link_hrefs sp)) with
        | Some href =>
            exists url,
              resolve base_url href = Return url /\ dict_get p d = Some url
        | None => dict_get p d = None
        end).
Proof.
  unfold extract_social. intros Hrun.
  destruct (social_loop_keys _ _ _ Hrun) as [Hn Hk];
    [constructor | intros p [] |].
  split; [exact Hn|]. split; [exact Hk|].
  intros p. exact (social_loop_last _ _ _ Hrun p).
Qed.

End Social.

(** What the specification says is kept for a platform: the first link
    whose [href] matches the platform's pattern. *)
Definition first_matching (platform : str) (hrefs : list str) : option str :=
  match dict_get platform social_patterns with
  | Some pattern => find (matches pattern) hrefs
  | None => None
  end.

(** ** Searching a list *)

Lemma find_first_hit (A : Type) (p : A -> bool) (pre : list A) (x : A)
    (post : list A) :
  Forall (fun y => p y = false) pre -> p x = true ->
  find p (pre ++ x :: post) = Some x.
Proof.
  intros Hpre Hx. induction Hpre as [|y pre Hy Hpre IH]; simpl.
  - rewrite Hx. reflexivity.
  - rewrite Hy. exact IH.
Qed.

Lemma find_no_hit (A : Type) (p : A -> bool) (l : list A) :
  Forall (fun y => p y = false) l -> find p l = None.
Proof.
  intros H. induction H as [|y l Hy H IH]; simpl; [reflexivity|].
  rewrite Hy. exact IH.
Qed.

Lemma find_map (A B : Type) (f : A -> B) (p : B -> bool) (l : list A) :
  find p (map f l) = option_map f (find (fun x => p (f x)) l).
Proof.
  induction l as [|x l IH]; simpl; [reflexivity|].
  destruct (p (f x)); [reflexivity | exact IH].
Qed.

Lemma find_first_find_all (p : node -> bool) (ns : list node) :
  find_first p ns = hd_error (find_all p ns).
Proof.
  unfold find_first, find_all. induction ns as [|n ns IH]; simpl; [reflexivity|].
  destruct (is_elem n && p n); [reflexivity | exact IH].
Qed.

(** ** Business name *)

(** The stripped texts of the H1 elements, in document order. *)
Definition h1_texts (sp : soup) : list str :=
  map (fun h1 => strip (text h1)) (find_all (is_tag [u "h1"]) (nodes_of sp)).

(** A text of more than 3 and fewer than 50 characters. *)
Definition plausible (t : str) : bool := len_between 3 50 t.

(** The images whose class matches logo or brand, in document order. *)
Definition logo_images (sp : soup) : list node :=
  find_all (fun n => is_tag [u "img"] n && class_re logo_brand n) (nodes_of sp).

(** The stripped text of the first title element, or the empty string. *)
Definition page_title (sp : soup) : str :=
  match find_all (is_tag [u "title"]) (nodes_of sp) with
  | t :: _ => strip (text t)
  | [] => []
  end.

Lemma extract_name_cases (sp : soup) :
  extract_name sp =
  match find plausible (h1_texts sp) with
  | Some t => t
  | None =>
      match logo_images sp with
      | logo :: _ =>
          match get (u "alt") logo with
          | Some a => if truthy a then a else page_title sp
          | None => page_title sp
          end
      | [] => page_title sp
      end
  end.
Proof.
  unfold extract_name, h1_texts, logo_images, page_title, plausible.
  rewrite find_map. rewrite !find_first_find_all.
  destruct (find (fun x => len_between 3 50 (strip (text x)))
                 (find_all (is_tag [u "h1"]) (nodes_of sp))); simpl;
    [reflexivity|].
  destruct (find_all (fun n => is_tag [u "img"] n && class_re logo_brand n)
                     (nodes_of sp)); simpl;
    destruct (find_all (is_tag [u "title"]) (nodes_of sp)); reflexivity.
Qed.

(** C6, as amended: the business-name strategy returns the stripped
    text of the first H1 whose stripped text has more than 3 and fewer
    than 50 characters; if there is none, it looks at the FIRST image
    whose class matches logo or brand and returns its alt text when
    that text is not empty; in every other case (no such image, or the
    first one without alt text) it returns the stripped text of the
    title element, the empty string when the page has none. *)
Theorem business_name_cascade (sp : soup) :
  (forall pre t post,
      h1_texts sp = pre ++ t :: post ->
      Forall (fun x => plausible x = false) pre -> plausible t = true ->
      extract_name sp = t)
  /\ (forall logo others a,
        Forall (fun x => plausible x = false) (h1_texts sp) ->
        logo_images sp = logo :: others ->
        get (u "alt") logo = Some a -> a <> [] ->
        extract_name sp = a)
  /\ (Forall (fun x => plausible x = false) (h1_texts sp) ->
       (logo_images sp = []
        \/ exists logo others,
             logo_images sp = logo :: others
             /\ (get (u "alt") logo = None \/ get (u "alt") logo = Some [])) ->
       extract_name sp = page_title sp)
  /\ (find_all (is_tag [u "title"]) (nodes_of sp) = [] -> page_title sp = []).
Proof.
  rewrite extract_name_cases. repeat split.
  - intros pre t post Hh Hpre Ht. rewrite Hh.
    erewrite find_first_hit by eassumption. reflexivity.
  - intros logo others a Hnone Hlogo Halt Ha.
    erewrite find_no_hit by eassumption. rewrite Hlogo, Halt.
    destruct a; [contradiction | reflexivity].
  - intros Hnone Hlogo. erewrite find_no_hit by eassumption.
    destruct Hlogo as [-> | [logo [others [-> [-> | ->]]]]]; reflexivity.
  - unfold page_title. intros ->. reflexivity.
Qed.

(** The strategy as the specification words it: after the H1 elements,
    the first image that has both a matching class and a non-empty alt
    text. *)
Definition claimed_name (sp : soup) : str :=
  match find plausible (h1_texts sp) with
  | Some t => t
  | None =>
      match find (fun n => match get (u "alt") n with
                           | Some a => truthy a
                           | None => false
                           end) (logo_images sp) with
      | Some logo => item (u "alt") logo
      | None => page_title sp
      end
  end.

(** ** E-mail addresses of staff members and of the e-mail field *)

Lemma startswith_app (p rest : str) : startswith p (p ++ rest) = true.
Proof.
  induction p as [|c p IH]; simpl; [reflexivity|].
  rewrite N.eqb_refl. exact IH.
Qed.

Lemma replace_go_skip (old new pre rest : str) :
  replace_go old new (List.length pre) (pre ++ rest) = replace_go old new 0 rest.
Proof.
  induction pre as [|c pre IH]; simpl; [reflexivity | exact IH].
Qed.

Lemma replace_go_cons (old new : str) (c : char) (s : str) :
  replace_go old new 0 (c :: s)
  = if startswith old (c :: s)
    then new ++ replace_go old new (pred (List.length old)) s
    else c :: replace_go old new 0 s.
Proof. reflexivity. Qed.

Lemma contains_cons (sub : str) (c : char) (s : str) :
  contains sub (c :: s) = startswith sub (c :: s) || contains sub s.
Proof. reflexivity. Qed.

Lemma replace_absent (old new s : str) :
  contains old s = false -> replace old new s = s.
Proof.
  unfold replace. induction s as [|c s IH]; [reflexivity|].
  rewrite contains_cons, replace_go_cons. intros H.
  apply orb_false_iff in H. destruct H as [H1 H2].
  rewrite H1. f_equal. apply IH. exact H2.
Qed.

Lemma replace_prefix (old new rest : str) :
  old <> [] -> replace old new (old ++ rest) = new ++ replace old new rest.
Proof.
  intros Hne. destruct old as [|c old']; [contradiction|].
  unfold replace.
  change ((c :: old') ++ rest) with (c :: (old' ++ rest)).
  rewrite replace_go_cons.
  change (c :: (old' ++ rest)) with ((c :: old') ++ rest).
  rewrite startswith_app.
  change (pred (List.length (c :: old'))) with (List.length old').
  rewrite replace_go_skip. reflexivity.
Qed.

(** The question mark. *)
Definition question_mark : char := 63%N.

Lemma split_go_nil (sep cur : str) : split_go sep 0 cur [] = [rev cur].
Proof. reflexivity. Qed.

Lemma split_go_cons (sep cur : str) (c : char) (s : str) :
  split_go sep 0 cur (c :: s)
  = if startswith sep (c :: s)
    then rev cur :: split_go sep (pred (List.length sep)) [] s
    else split_go sep 0 (c :: cur) s.
Proof. reflexivity. Qed.

Lemma split_head_free (cur s : str) :
  ~ In question_mark cur ->
  ~ In question_mark (hd [] (split_go [question_mark] 0 cur s)).
Proof.
  revert cur. induction s as [|c s IH]; intros cur Hcur.
  - rewrite split_go_nil. cbn [hd]. intros H. apply Hcur.
    apply in_rev. exact H.
  - rewrite split_go_cons.
    destruct (startswith [question_mark] (c :: s)) eqn:E.
    + cbn [hd]. intros H. apply Hcur. apply in_rev. exact H.
    + apply IH. intros [Hc|H]; [subst c|contradiction].
      cbn in E. discriminate.
Qed.

Lemma split_head_at (addr : str) :
  forall cur query,
    ~ In question_mark addr ->
    hd [] (split_go [question_mark] 0 cur (addr ++ question_mark :: query))
    = rev cur ++ addr.
Proof.
  induction addr as [|c addr IH]; intros cur query Hfree.
  - cbn [app]. rewrite split_go_cons.
    cbn [startswith]. rewrite N.eqb_refl. cbn [andb hd].
    rewrite app_nil_r. reflexivity.
  - cbn [app]. rewrite split_go_cons.
    assert (Hc : (question_mark =? c)%N = false).
    { apply N.eqb_neq. intros Heq. apply Hfree. left. symmetry. exact Heq. }
    cbn [startswith]. rewrite Hc. cbn [andb].
    rewrite IH by (intros H; apply Hfree; right; exact H).
    cbn [rev]. rewrite <- app_assoc. reflexivity.
Qed.

Section Emails.

Variable U : unicode_db.

(** C10, as amended: in the staff strategy the e-mail of a member is
    the [href] of the member's first mailto link with every occurrence
    of [mailto:] removed, so for an [href] that holds [mailto:] only as
    its prefix it is the rest of the [href] verbatim, a query suffix
    included, with no validation, and it is recorded whenever it is
    not empty; the e-mail field strategy removes [mailto:] the same
    way, but cuts each candidate at its first question mark and returns
    only values that pass [is_valid_email]. *)
Theorem staff_email_unvalidated :
  (forall person link others,
      find_all is_mailto_link (descendants person) = link :: others ->
      person_email person = replace (u "mailto:") [] (item (u "href") link)
      /\ (forall rest,
            item (u "href") link = u "mailto:" ++ rest ->
            contains (u "mailto:") rest = false ->
            person_email person = rest)
      /\ (truthy (person_name person) = true ->
           truthy (person_email person) = true ->
           exists info,
             person_info person = Some info
             /\ dict_get K_EMAIL info = Some (person_email person)))
  /\ (forall link, ~ In question_mark (mailto_address link))
  /\ (forall link addr query,
        item (u "href") link = u "mailto:" ++ addr ++ question_mark :: query ->
        contains (u "mailto:") (addr ++ question_mark :: query) = false ->
        ~ In question_mark addr ->
        mailto_address link = addr)
  /\ (forall sp, extract_email U sp <> [] ->
                 is_valid_email U (extract_email U sp) = true).
Proof.
  split; [|split; [|split]].
  - intros person link others Hfind.
    assert (Hemail : person_email person
                     = replace (u "mailto:") [] (item (u "href") link)).
    { unfold person_email. rewrite find_first_find_all, Hfind. reflexivity. }
    split; [exact Hemail|]. split.
    + intros rest Hhref Hrest. rewrite Hemail, Hhref.
      rewrite replace_prefix by discriminate.
      rewrite (replace_absent _ _ _ Hrest). reflexivity.
    + intros Hname Hmail. unfold person_info. rewrite Hname, Hmail.
      eexists. split; [reflexivity|].
      apply dict_get_set_same.
  - intros link. unfold mailto_address, split.
    apply split_head_free. intros [].
  - intros link addr query Hhref Hrest Hfree.
    unfold mailto_address. rewrite Hhref.
    rewrite replace_prefix by discriminate.
    rewrite (replace_absent _ _ _ Hrest).
    unfold split. cbn [app]. apply (split_head_at addr [] query Hfree).
  - intros sp. unfold extract_email.
    destruct (find (is_valid_email U)
                   (map mailto_address (find_all is_mailto_link (nodes_of sp))))
      as [email|] eqn:E.
    + intros _. apply find_some in E. exact (proj2 E).
    + destruct (filter (is_valid_email U) (findall (email_in_text U) (get_text sp)))
        as [|e es] eqn:F; [intros H; contradiction|].
      intros _.
      assert (Hin : In e (filter (is_valid_email U)
                                 (findall (email_in_text U) (get_text sp)))).
      { rewrite F. left. reflexivity. }
      apply filter_In in Hin. exact (proj2 Hin).
Qed.

End Emails.

End ScraperSpec.

(* ================================================================== *)
(** * Properties of the dispatcher and of the orchestrator *)
(* ================================================================== *)

Module WebsiteSpec.

Import PyStr PyDict Re Soup PyExn Utils Scraper Design Website DictFacts.

(** The field names the dispatcher tests for. *)
Definition vocabulary : list str :=
  [F_NAME; F_PHONE; F_EMAIL; F_EMAIL'; F_EMAIL''; F_ADDRESS;
   F_HOURS_ACTIVITY; F_HOURS_OPENING; F_HOURS_RECEPTION; F_TEAM; F_DOCTORS;
   F_SOCIAL; F_PRACTICE_AREAS; F_ACTIVITY; F_SPECIALTY].


(** The kinds of value, and the kinds the strategy of a field returns. *)
Inductive kind := KStr | KList | KTeam | KDict.

Definition kind_of (v : value) : kind :=
  match v with
  | VStr _ => KStr
  | VList _ => KList
  | VTeam _ => KTeam
  | VDict _ => KDict
  end.

Definition kinds_of_field (field_name : str) : list kind :=
  if str_eqb field_name F_TEAM || str_eqb field_name F_DOCTORS then [KTeam]
  else if str_eqb field_name F_SOCIAL then [KDict]
  else if str_eqb field_name F_PRACTICE_AREAS || str_eqb field_name F_ACTIVITY
          || str_eqb field_name F_SPECIALTY
  then [KList; KStr]
  else [KStr].

(** A value has a declared type: strings for [string], [email] and
    [url], lists for [array], mappings for [object]. *)
Definition has_type (v : value) (t : type_tag) : bool :=
  match kind_of v, t with
  | KStr, (TString | TEmail | TUrl) => true
  | (KList | KTeam), TArray => true
  | KDict, TObject => true
  | _, _ => false
  end.

(** The fields of the catalog whose value does not follow the declared
    type: the three business-domain fields, which share one strategy
    that returns a list or a string, and the dominant-colours field,
    for which the dispatcher has no strategy. *)
Definition untyped_fields : list str :=
  [F_PRACTICE_AREAS; F_SPECIALTY; F_ACTIVITY; F_COLORS].


Lemma split_go_not_nil (sep : str) (s : str) :
  forall skip cur, split_go sep skip cur s <> [].
Proof.
  induction s as [|c s IH]; intros skip cur; simpl; [discriminate|].
  destruct skip; [|apply IH].
  destruct (startswith sep (c :: s)); [discriminate | apply IH].
Qed.

Lemma services_after_not_nil (following : list node) (services : list str) :
  services_after following = Some services -> services <> [].
Proof.
  unfold services_after. intros H.
  repeat match type of H with
         | context [match ?x with _ => _ end] => destruct x; try discriminate
         end;
    injection H as <-; discriminate.
Qed.

Lemma first_services_not_nil (headers : list (node * list node))
    (services : list str) :
  first_some (fun hf => services_after (snd hf)) headers = Some services ->
  services <> [].
Proof.
  induction headers as [|hf headers IH]; simpl; [discriminate|].
  destruct (services_after (snd hf)) as [sv|] eqn:E; [|exact IH].
  intros H. injection H as <-. eapply services_after_not_nil. exact E.
Qed.


Section Dispatcher.

Variable U : unicode_db.
Variable urljoin : str -> str -> result str.

Ltac known_field H :=
  unfold vocabulary in H; apply mem_In in H; simpl in H;
  repeat (destruct H as [H|H]; [subst|]); try contradiction.

Lemma extract_field_unknown (sp : soup) (field_name base_url : str) :
  mem field_name vocabulary = false ->
  extract_field U urljoin sp field_name base_url = Return (VStr []).
Proof.
  unfold mem, vocabulary. simpl. intros H.
  repeat (apply orb_false_iff in H; destruct H as [? H]).
  unfold extract_field.
  repeat match goal with
         | E : str_eqb field_name _ = false |- _ => rewrite E; clear E
         end.
  reflexivity.
Qed.

Lemma extract_field_kind (sp : soup) (field_name base_url : str) (v : value) :
  extract_field U urljoin sp field_name base_url = Return v ->
  In (kind_of v) (kinds_of_field field_name).
Proof.
  destruct (mem field_name vocabulary) eqn:Hv.
  - known_field Hv; unfold extract_field; cbn -[extract_name extract_phone
      extract_email extract_address extract_hours extract_team extract_social
      extract_domain];
      try (intros H; injection H as <-; cbn; auto; fail).
    + destruct (extract_social urljoin sp base_url); [|discriminate].
      intros H; injection H as <-; cbn; auto.
    + intros H; injection H as <-. unfold extract_domain.
      repeat match goal with
             | |- context [match ?x with _ => _ end] => destruct x
             end; cbn; auto.
    + intros H; injection H as <-. unfold extract_domain.
      repeat match goal with
             | |- context [match ?x with _ => _ end] => destruct x
             end; cbn; auto.
    + intros H; injection H as <-. unfold extract_domain.
      repeat match goal with
             | |- context [match ?x with _ => _ end] => destruct x
             end; cbn; auto.
  - rewrite (extract_field_unknown sp field_name base_url Hv).
    intros H; injection H as <-.
    unfold mem, vocabulary in Hv. simpl in Hv.
    repeat (apply orb_false_iff in Hv; destruct Hv as [? Hv]).
    unfold kinds_of_field.
    repeat match goal with
           | E : str_eqb field_name _ = false |- _ => rewrite E; clear E
           end.
    cbn. auto.
Qed.



End Dispatcher.

Section Orchestrator.

Variable U : unicode_db.
Variable urljoin : str -> str -> result str.
Context {PS : PySet}.
Variable html_parser : str -> result soup.

(** ** The loop over the fields *)

(** The names of a sequence at the place of their first occurrence,
    those of [seen] left out: the order in which a dictionary that
    holds the keys [seen] receives the new keys. *)
Fixpoint first_occurrences (seen fields : list str) : list str :=
  match fields with
  | [] => []
  | f :: rest =>
      if mem f seen then first_occurrences seen rest
      else f :: first_occurrences (f :: seen) rest
  end.

Lemma first_occurrences_ext (fields : list str) :
  forall s1 s2, (forall x, mem x s1 = mem x s2) ->
                first_occurrences s1 fields = first_occurrences s2 fields.
Proof.
  induction fields as [|f rest IH]; intros s1 s2 H; simpl; [reflexivity|].
  rewrite <- (H f). destruct (mem f s1).
  - apply IH. exact H.
  - f_equal. apply IH. intros x. unfold mem in *. simpl. rewrite (H x).
    reflexivity.
Qed.

Lemma first_occurrences_NoDup (fields : list str) :
  forall seen, NoDup fields -> (forall x, In x fields -> ~ In x seen) ->
               first_occurrences seen fields = fields.
Proof.
  induction fields as [|f rest IH]; intros seen Hn Hd; simpl; [reflexivity|].
  inversion Hn as [|? ? Hnot Hn']; subst.
  destruct (mem f seen) eqn:E.
  - apply mem_In in E. exfalso. apply (Hd f); [left; reflexivity | exact E].
  - f_equal. apply IH; [exact Hn'|].
    intros x Hx [<-|Hs]; [contradiction|].
    apply (Hd x); [right; exact Hx | exact Hs].
Qed.

Lemma mem_app_single (x k : str) (l : list str) :
  mem x (l ++ [k]) = mem x (k :: l).
Proof.
  unfold mem. rewrite existsb_app. simpl.
  rewrite orb_false_r. apply orb_comm.
Qed.

Lemma extract_all_spec (sp : soup) (url : str) (fields : list str) :
  forall d0 d,
    extract_all U urljoin sp fields url d0 = Return d ->
    keys d = keys d0 ++ first_occurrences (keys d0) fields
    /\ (forall k, ~ In k fields -> dict_get k d = dict_get k d0)
    /\ (forall f, In f fields ->
          exists v, extract_field U urljoin sp f url = Return v
                    /\ dict_get f d = Some v).
Proof.
  induction fields as [|field rest IH]; intros d0 d Hrun; simpl in Hrun.
  - injection Hrun as <-. simpl. rewrite app_nil_r.
    split; [reflexivity|]. split; [reflexivity | intros f []].
  - destruct (extract_field U urljoin sp field url) as [v|e] eqn:Hv;
      [|discriminate].
    destruct (IH _ _ Hrun) as [Hk [Hkeep Hall]].
    split; [|split].
    + rewrite Hk, keys_dict_set. simpl.
      destruct (mem field (keys d0)) eqn:E; [reflexivity|].
      rewrite <- app_assoc. simpl. do 2 f_equal.
      apply first_occurrences_ext. intros x. apply mem_app_single.
    + intros k Hk'. rewrite Hkeep by (intros H; apply Hk'; right; exact H).
      apply dict_get_set_other. intros ->. apply Hk'. left. reflexivity.
    + intros f [<-|Hf]; [|apply Hall; exact Hf].
      destruct (in_dec (list_eq_dec N.eq_dec) field rest) as [Hin|Hnotin].
      * apply Hall. exact Hin.
      * exists v. split; [exact Hv|].
        rewrite (Hkeep field Hnotin). apply dict_get_set_same.
Qed.

(** C1, as amended: for every successful scrape, the returned mapping
    has exactly the field names of the profile's field sequence as
    keys, in the order of the sequence (a name listed twice stands at
    its first place; a sequence without repetition is kept as it is),
    and each is mapped to the value [extract_field] returns for it on
    the parsed page: a string, a list or a mapping, of the kind its
    strategy yields.  The value has the type the catalog declares for
    the field, except for the three business-domain fields (a list of
    strings or a string, whatever is declared) and the dominant-colours
    field (always the empty string). *)
Theorem scrape_result_fields (get : result response) (url : str)
    (fields : list str) (extract_colors extract_logo extract_fonts : bool)
    (data : dict value) (design : dict dvalue) :
  scrape_website U urljoin html_parser get url fields
                 extract_colors extract_logo extract_fonts
  = Return (data, design) ->
  keys data = first_occurrences [] fields
  /\ (NoDup fields -> keys data = fields)
  /\ exists resp sp,
       get = Return resp
       /\ html_parser (text resp) = Return sp
       /\ forall f, In f fields ->
            exists v,
              extract_field U urljoin sp f url = Return v
              /\ dict_get f data = Some v
              /\ In (kind_of v) (kinds_of_field f)
              /\ (forall t, declared_type f = Some t ->
                             mem f untyped_fields = false ->
                             has_type v t = true).
Proof.
  unfold scrape_website, scrape_body.
  destruct get as [resp|e]; [|destruct e; discriminate].
  destruct (raise_for_status resp) as [[]|e]; [|destruct e; discriminate].
  destruct (html_parser (text resp)) as [sp|e] eqn:Hsp;
    [|destruct e; discriminate].
  destruct (extract_all U urljoin sp fields url []) as [d|e] eqn:Hall;
    [|destruct e; discriminate].
  destruct extract_colors; [discriminate|].
  destruct extract_logo; [discriminate|].
  intros H. injection H as <- _.
  destruct (extract_all_spec _ _ _ _ Hall) as [Hk [_ Hf]].
  split; [exact Hk|]. split.
  { intros Hn. rewrite Hk. apply first_occurrences_NoDup; [exact Hn|].
    intros x _ []. }
  exists resp, sp. split; [reflexivity|]. split; [exact Hsp|].
  intros f Hin. destruct (Hf f Hin) as [v [Hv Hget]].
  exists v. split; [exact Hv|]. split; [exact Hget|].
  pose proof (extract_field_kind _ _ _ _ _ Hv) as Hkind.
  split; [exact Hkind|].
  intros t Ht Hu.
  unfold declared_type in Ht.
  destruct (find (fun p => str_eqb (fst p) f) default_fields) as [[f' t']|] eqn:E;
    [|discriminate].
  simpl in Ht. injection Ht as ->.
  apply find_some in E. destruct E as [Hin' Heq]. simpl in Heq.
  apply str_eqb_eq in Heq. subst f'.
  unfold default_fields in Hin'. simpl in Hin'.
  repeat (destruct Hin' as [Hin'|Hin'];
          [injection Hin' as <- <-;
           first [ discriminate Hu
                 | unfold has_type; cbn in Hkind;
                   destruct Hkind as [<-|[]]; reflexivity ]
          |]).
  contradiction.
Qed.

(** ** Failure of the fetch *)

(** The cause of a failed fetch: the text of the [RequestException]
    that [requests.get] raised, or of the [HTTPError] that
    [raise_for_status] raises for a status from 400 to 599. *)
Definition fetch_failure (get : result response) : option str :=
  match get with
  | Raise (RequestException cause) => Some cause
  | Raise _ => None
  | Return resp =>
      if ((400 <=? status_code resp) && (status_code resp <? 600))%Z
      then Some (http_error_msg resp)
      else None
  end.

(** C4, as amended: whenever the fetch fails, by a transport-level
    failure or by an HTTP status from 400 to 599, the scrape raises an
    exception whose text is the cause after the words
    [Failed to fetch website: ], and returns no result at all. *)
Theorem fetch_failure_aborts (get : result response) (url : str)
    (fields : list str) (extract_colors extract_logo extract_fonts : bool)
    (cause : str) :
  fetch_failure get = Some cause ->
  scrape_website U urljoin html_parser get url fields
                 extract_colors extract_logo extract_fonts
  = Raise (Exception_ (u "Failed to fetch website: " ++ cause)).
Proof.
  unfold fetch_failure, scrape_website, scrape_body, raise_for_status.
  destruct get as [resp|e].
  - destruct ((400 <=? status_code resp) && (status_code resp <? 600))%Z;
      [|discriminate].
    intros H. injection H as <-. reflexivity.
  - destruct e; try discriminate.
    intros H. injection H as <-. reflexivity.
Qed.

End Orchestrator.

End WebsiteSpec.

(* ================================================================== *)
(** * The field extractor and the orchestrator on sample pages *)
(* ================================================================== *)

Module ScraperRuns.

Import PyStr PyDict Re Soup PyExn Utils Scraper Design Website Concrete.
Import DictFacts ScraperSpec WebsiteSpec.

Definition base : str := u "https://x.co/about".

(** ** Social links *)

(** Two links to Facebook, the second one relative to the scheme, and
    one to X. *)
Definition social_page : soup :=
  [Elem (u "div") []
     [Elem (u "a") [(u "href", u "https://facebook.com/first")] [Text (u "old")];
      Elem (u "a") [(u "href", u "https://x.com/acme")] [Text (u "x")];
      Elem (u "a") [(u "href", u "//facebook.com/second")] [Text (u "new")]]].

Definition social_result : dict str :=
  [(u "facebook", u "https://facebook.com/second");
   (u "twitter", u "https://x.com/acme")].

Example social_page_links :
  link_hrefs social_page
  = [u "https://facebook.com/first"; u "https://x.com/acme";
     u "//facebook.com/second"].
Proof. vm_compute. reflexivity. Qed.

Lemma social_page_run :
  extract_social urljoin social_page base = Return social_result.
Proof. vm_compute. reflexivity. Defined.

(** C3, counterexample: the page has two links that match the Facebook
    pattern; the first in document order is [.../first], and the
    strategy keeps [.../second]. *)
Lemma social_links_keep_last :
  extract_field ascii_db urljoin social_page F_SOCIAL base
  = Return (VDict social_result)
  /\ first_matching (u "facebook") (link_hrefs social_page)
     = Some (u "https://facebook.com/first")
  /\ dict_get (u "facebook") social_result
     = Some (u "https://facebook.com/second").
Proof. vm_compute. repeat split; reflexivity. Qed.

Lemma social_links_sample :
  extract_social urljoin social_page base = Return social_result
  /\ NoDup (keys social_result)
  /\ (forall p, In p (keys social_result) -> In p platforms)
  /\ (forall p,
        match last_opt (attributed p (link_hrefs social_page)) with
        | Some href =>
            exists url,
              resolve urljoin base href = Return url
              /\ dict_get p social_result = Some url
        | None => dict_get p social_result = None
        end).
Proof.
  split; [exact social_page_run|].
  exact (@social_links_last_match_wins urljoin social_page base social_result
                                       social_page_run).
Defined.

(** A reference whose host part opens a bracket: [urljoin] raises, and
    the exception leaves [extract_field]. *)
Example social_link_unbalanced_bracket :
  extract_field ascii_db urljoin
                [Elem (u "a") [(u "href", u "//[facebook.com/acme")] []]
                F_SOCIAL base
  = Raise (ValueError (u "Invalid IPv6 URL")).
Proof. vm_compute. reflexivity. Qed.

(** ** Business name *)

(** A page with a title and two logo images, the first without alt
    text. *)
Definition logo_page : soup :=
  [Elem (u "head") [] [Elem (u "title") [] [Text (u " Acme Ltd ")]];
   Elem (u "body") []
     [Elem (u "img") [(u "class", u "site-logo"); (u "src", u "/l.png")] [];
      Elem (u "img") [(u "class", u "brand"); (u "alt", u "Acme")] []]].

(** C6, counterexample: the first image with a matching class and a
    non-empty alt text has the alt text [Acme]; the strategy stops at
    the first image with a matching class, which has no alt text, and
    returns the title. *)
Lemma business_name_first_logo_only :
  extract_name logo_page = u "Acme Ltd"
  /\ claimed_name logo_page = u "Acme".
Proof. vm_compute. split; reflexivity. Qed.

(** A page with two H1 elements, the first too short. *)
Definition h1_page : soup :=
  [Elem (u "body") []
     [Elem (u "h1") [] [Text (u "Hi")];
      Elem (u "h1") [] [Text (u " Acme Legal "); Elem (u "b") [] [Text (u "Services ")]];
      Elem (u "img") [(u "class", u "logo"); (u "alt", u "Acme")] []]].

Lemma business_name_sample :
  h1_texts h1_page = [u "Hi"] ++ u "Acme Legal Services" :: []
  /\ Forall (fun x => plausible x = false) [u "Hi"]
  /\ plausible (u "Acme Legal Services") = true
  /\ extract_name h1_page = u "Acme Legal Services".
Proof.
  assert (H1 : h1_texts h1_page = [u "Hi"] ++ u "Acme Legal Services" :: [])
    by (vm_compute; reflexivity).
  assert (H2 : Forall (fun x => plausible x = false) [u "Hi"])
    by (constructor; [vm_compute; reflexivity | constructor]).
  assert (H3 : plausible (u "Acme Legal Services") = true)
    by (vm_compute; reflexivity).
  split; [exact H1|]. split; [exact H2|]. split; [exact H3|].
  exact (proj1 (business_name_cascade h1_page) _ _ _ H1 H2 H3).
Defined.

(** ** E-mail addresses *)

(** A member card whose mailto link carries a subject. *)
Definition member_card (href : str) : node :=
  Elem (u "div") [(u "class", u "member")]
    [Elem (u "h3") [] [Text (u "Dana Levi")];
     Elem (u "a") [(u "href", href)] [Text (u "write")]].

Definition team_page (href : str) : soup :=
  [Elem (u "section") [(u "class", u "team")] [member_card href]].

Example team_page_staff :
  extract_field ascii_db urljoin (team_page (u "mailto:dana@x.co?subject=Hi"))
                F_TEAM base
  = Return (VTeam [[(K_NAME, u "Dana Levi");
                    (K_EMAIL, u "dana@x.co?subject=Hi")]]).
Proof. vm_compute. reflexivity. Qed.

Example team_page_email_field :
  extract_field ascii_db urljoin (team_page (u "mailto:dana@x.co?subject=Hi"))
                F_EMAIL base
  = Return (VStr (u "dana@x.co")).
Proof. vm_compute. reflexivity. Qed.

(** C10, counterexample: the [href] holds [mailto:] a second time, in
    its subject; without its prefix it reads
    [dana@x.co?subject=mailto:me], and the member's e-mail is
    [dana@x.co?subject=me]. *)
Lemma staff_email_drops_every_mailto :
  item (u "href") (Elem (u "a") [(u "href", u "mailto:dana@x.co?subject=mailto:me")] [])
  = u "mailto:" ++ u "dana@x.co?subject=mailto:me"
  /\ person_email (member_card (u "mailto:dana@x.co?subject=mailto:me"))
     = u "dana@x.co?subject=me".
Proof. vm_compute. split; reflexivity. Qed.

Lemma staff_email_sample :
  find_all is_mailto_link
           (descendants (member_card (u "mailto:dana@x.co?subject=Hi")))
  = [Elem (u "a") [(u "href", u "mailto:dana@x.co?subject=Hi")] [Text (u "write")]]
  /\ person_email (member_card (u "mailto:dana@x.co?subject=Hi"))
     = u "dana@x.co?subject=Hi".
Proof.
  assert (H : find_all is_mailto_link
                (descendants (member_card (u "mailto:dana@x.co?subject=Hi")))
              = Elem (u "a") [(u "href", u "mailto:dana@x.co?subject=Hi")]
                     [Text (u "write")] :: [])
    by (vm_compute; reflexivity).
  split; [exact H|].
  destruct (proj1 (staff_email_unvalidated ascii_db) _ _ _ H) as [_ [Hrest _]].
  apply Hrest; vm_compute; reflexivity.
Defined.

(** ** The dispatcher *)



(** ** The orchestrator *)

Definition ok_empty_page : result response := Return (Response 200 [] []).

Lemma law_firm_fields_NoDup : NoDup law_firm_fields.
Proof.
  change law_firm_fields with (nodup (list_eq_dec N.eq_dec) law_firm_fields).
  apply NoDup_nodup.
Qed.

Definition site : str := u "https://x.co/".

(** What the law-firm profile yields on an empty page. *)
Definition empty_page_data : dict value :=
  [(F_NAME, VStr []); (F_ADDRESS, VStr []); (F_PHONE, VStr []);
   (F_EMAIL, VStr []); (F_LOGO, VStr []); (F_COLORS, VStr []);
   (F_PRACTICE_AREAS, VStr []); (F_TEAM, VTeam []); (F_SOCIAL, VDict []);
   (F_HOURS_ACTIVITY, VStr [])].

Lemma empty_page_run :
  scrape_website ascii_db urljoin html_parser ok_empty_page site
                 law_firm_fields false false false
  = Return (empty_page_data, []).
Proof. vm_compute. reflexivity. Defined.

(** C1, counterexample: a successful scrape with the law-firm profile
    maps the dominant-colours field, declared an array, to the empty
    string, and the social-links field to the empty mapping. *)
Lemma colors_field_not_an_array :
  scrape_website ascii_db urljoin html_parser ok_empty_page site
                 law_firm_fields false false false
  = Return (empty_page_data, [])
  /\ dict_get F_COLORS empty_page_data = Some (VStr [])
  /\ declared_type F_COLORS = Some TArray
  /\ has_type (VStr []) TArray = false
  /\ dict_get F_SOCIAL empty_page_data = Some (VDict []).
Proof. vm_compute. repeat split; reflexivity. Qed.

Lemma scrape_result_sample :
  scrape_website ascii_db urljoin html_parser ok_empty_page site
                 law_firm_fields false false false
  = Return (empty_page_data, [])
  /\ keys empty_page_data = first_occurrences [] law_firm_fields
  /\ (NoDup law_firm_fields -> keys empty_page_data = law_firm_fields)
  /\ exists resp sp,
       ok_empty_page = Return resp
       /\ html_parser (text resp) = Return sp
       /\ forall f, In f law_firm_fields ->
            exists v,
              extract_field ascii_db urljoin sp f site = Return v
              /\ dict_get f empty_page_data = Some v
              /\ In (kind_of v) (kinds_of_field f)
              /\ (forall t, declared_type f = Some t ->
                             mem f untyped_fields = false ->
                             has_type v t = true).
Proof.
  split; [exact empty_page_run|].
  exact (@scrape_result_fields ascii_db urljoin dedup html_parser ok_empty_page
           site law_firm_fields false false false empty_page_data []
           empty_page_run).
Defined.

(** A field listed twice keeps its first place. *)
Example repeated_field_kept_once :
  scrape_website ascii_db urljoin html_parser ok_empty_page site
                 [F_TEAM; F_NAME; F_TEAM] false false false
  = Return ([(F_TEAM, VTeam []); (F_NAME, VStr [])], []).
Proof. vm_compute. reflexivity. Qed.

(** With the two toggles that the interface switches on by default,
    the same scrape ends in the second handler. *)
Example scrape_with_colors_raises :
  scrape_website ascii_db urljoin html_parser ok_empty_page site
                 law_firm_fields true true true
  = Raise (Exception_ (u "Error during scraping: name 'extract_color_palette' is not defined")).
Proof. vm_compute. reflexivity. Qed.

(** C4, counterexample: a response with status 304 is not a success
    status, [raise_for_status] lets it pass, and the scrape returns a
    result. *)
Lemma not_modified_is_scraped :
  scrape_website ascii_db urljoin html_parser
                 (Return (Response 304 (u "304 Not Modified") []))
                 site [F_NAME; F_TEAM] false false true
  = Return ([(F_NAME, VStr []); (F_TEAM, VTeam [])], [(u "fonts", DList [])]).
Proof. vm_compute. reflexivity. Qed.

Definition not_found : result response :=
  Return (Response 404 (u "404 Client Error: Not Found for url: https://x.co/") []).

Lemma fetch_failure_sample :
  fetch_failure not_found
  = Some (u "404 Client Error: Not Found for url: https://x.co/")
  /\ scrape_website ascii_db urljoin html_parser not_found site
                    law_firm_fields false false false
     = Raise (Exception_ (u "Failed to fetch website: "
                          ++ u "404 Client Error: Not Found for url: https://x.co/")).
Proof.
  assert (H : fetch_failure not_found
              = Some (u "404 Client Error: Not Found for url: https://x.co/"))
    by (vm_compute; reflexivity).
  split; [exact H|].
  exact (@fetch_failure_aborts ascii_db urljoin dedup html_parser not_found site
           law_firm_fields false false false _ H).
Defined.

End ScraperRuns.

(* ================================================================== *)
(** * What the matcher finds *)
(* ================================================================== *)

Module ReFacts.

Import PyStr Re.
Local Open Scope N_scope.

(** The texts a pattern can read at a position: [t] stands between the
    left context [left] (reversed) and the text [rest] that follows. *)
Fixpoint reads (r : regex) (left t rest : str) : Prop :=
  match r with
  | Eps => t = []
  | Chr p => exists c, t = [c] /\ p c = true
  | Cat a b =>
      exists t1 t2, t = t1 ++ t2 /\ reads a left t1 (t2 ++ rest)
                    /\ reads b (rev t1 ++ left) t2 rest
  | Alt a b => reads a left t rest \/ reads b left t rest
  | Rep p lo hi =>
      forallb p t = true /\ (lo <= List.length t)%nat
      /\ match hi with Some h => (List.length t <= h)%nat | None => True end
  | Opt a => reads a left t rest \/ t = []
  | Grp _ a => reads a left t rest
  | Bol => t = [] /\ left = []
  | Eol => t = [] /\ (rest = [] \/ rest = [10])
  end.

Lemma rev_cons_app (c : char) (t left : str) :
  rev (c :: t) ++ left = rev t ++ c :: left.
Proof. simpl. rewrite <- app_assoc. reflexivity. Qed.

Lemma rep_k_sound (A : Type) (p : char -> bool) :
  forall rest lo hi left (k : str -> str -> option A) x,
    rep_k p lo hi left rest k = Some x ->
    exists t rest',
      rest = t ++ rest' /\ reads (Rep p lo hi) left t rest'
      /\ k (rev t ++ left) rest' = Some x.
Proof.
  induction rest as [|c rest IH]; intros lo hi left k x H; simpl in H.
  - destruct lo; [|discriminate].
    exists [], []. simpl. repeat split; auto. destruct hi; [lia|exact I].
  - assert (Hstop : match lo with O => k left (c :: rest) | S _ => None end = Some x ->
                    exists t rest', c :: rest = t ++ rest'
                      /\ reads (Rep p lo hi) left t rest'
                      /\ k (rev t ++ left) rest' = Some x).
    { destruct lo; [|discriminate]. intros Hk.
      exists [], (c :: rest). simpl. repeat split; auto.
      destruct hi; [lia|exact I]. }
    destruct (p c && match hi with Some O => false | _ => true end) eqn:E;
      [|exact (Hstop H)].
    destruct (rep_k p (pred lo) (option_map pred hi) (c :: left) rest k)
      as [y|] eqn:Hrec; [|exact (Hstop H)].
    injection H as ->.
    apply IH in Hrec. destruct Hrec as [t [rest' [-> [[Hp [Hlo Hhi]] Hk]]]].
    apply andb_true_iff in E. destruct E as [Hc Hh].
    exists (c :: t), rest'. split; [reflexivity|]. split.
    + simpl. rewrite Hc, Hp. repeat split; [lia|].
      destruct hi as [[|h]|]; simpl in *; [discriminate|lia|exact I].
    + rewrite rev_cons_app. exact Hk.
Qed.

Lemma rep_k_complete (A : Type) (p : char -> bool) :
  forall rest lo hi left (k : str -> str -> option A),
    rep_k p lo hi left rest k = None ->
    forall t rest',
      rest = t ++ rest' -> reads (Rep p lo hi) left t rest' ->
      k (rev t ++ left) rest' = None.
Proof.
  induction rest as [|c rest IH]; intros lo hi left k H t rest' Heq [Hp [Hlo Hhi]];
    simpl in H.
  - destruct t; [|discriminate]. simpl in *. subst rest'.
    destruct lo; [exact H|lia].
  - assert (Hstop : match lo with O => k left (c :: rest) | S _ => None end = None).
    { destruct (p c && match hi with Some O => false | _ => true end);
        [|exact H].
      destruct (rep_k p (pred lo) (option_map pred hi) (c :: left) rest k);
        [discriminate|exact H]. }
    destruct t as [|c' t].
    + simpl in *. subst rest'. destruct lo; [exact Hstop|lia].
    + simpl in Heq. injection Heq as <- ->.
      simpl in Hp. apply andb_true_iff in Hp. destruct Hp as [Hc Hp].
      rewrite Hc in H. simpl in H, Hlo, Hhi.
      assert (Hh : match hi with Some O => false | _ => true end = true).
      { destruct hi as [[|h]|]; [lia|reflexivity|reflexivity]. }
      rewrite Hh in H.
      destruct (rep_k p (pred lo) (option_map pred hi) (c :: left)
                      (t ++ rest') k) eqn:Hrec; [discriminate|].
      rewrite rev_cons_app.
      apply (IH _ _ _ _ Hrec t rest' eq_refl).
      simpl. repeat split; [exact Hp|lia|].
      destruct hi as [[|h]|]; simpl; [lia|lia|exact I].
Qed.

(** The matcher only follows readings of the pattern. *)
Lemma run_sound (A : Type) (r : regex) :
  forall st (k : mstate -> option A) x,
    run r st k = Some x ->
    exists t rest' caps,
      ms_rest st = t ++ rest' /\ reads r (ms_left st) t rest'
      /\ k (MState (rev t ++ ms_left st) rest' caps) = Some x.
Proof.
  induction r as [|p|a IHa b IHb|a IHa b IHb|p lo hi|a IHa|i a IHa| |];
    intros st k x H; simpl in H.
  - exists [], (ms_rest st), (ms_caps st). destruct st; simpl in *. auto.
  - destruct (ms_rest st) as [|c rest'] eqn:Hr; [discriminate|].
    destruct (p c) eqn:Hc; [|discriminate].
    exists [c], rest', (ms_caps st). simpl. repeat split; auto.
    exists c. auto.
  - apply IHa in H. destruct H as [t1 [r1 [c1 [Hr [Ha H]]]]].
    apply IHb in H. destruct H as [t2 [r2 [c2 [Hr2 [Hb H]]]]].
    simpl in Hr2, Hb, H. subst r1.
    exists (t1 ++ t2), r2, c2. split; [rewrite Hr, app_assoc; reflexivity|].
    split.
    + simpl. exists t1, t2. auto.
    + rewrite rev_app_distr, <- app_assoc. exact H.
  - destruct (run a st k) as [y|] eqn:Ha.
    + injection H as ->. apply IHa in Ha.
      destruct Ha as [t [r' [c [Hr [Hreads Hk]]]]].
      exists t, r', c. simpl. auto.
    + apply IHb in H. destruct H as [t [r' [c [Hr [Hreads Hk]]]]].
      exists t, r', c. simpl. auto.
  - apply rep_k_sound in H. destruct H as [t [r' [Hr [Hreads Hk]]]].
    exists t, r', (ms_caps st). auto.
  - destruct (run a st k) as [y|] eqn:Ha.
    + injection H as ->. apply IHa in Ha.
      destruct Ha as [t [r' [c [Hr [Hreads Hk]]]]].
      exists t, r', c. simpl. auto.
    + exists [], (ms_rest st), (ms_caps st). destruct st; simpl in *. auto.
  - apply IHa in H. destruct H as [t [r' [c [Hr [Hreads Hk]]]]].
    simpl in Hk. eexists t, r', _. split; [exact Hr|]. split; [exact Hreads|].
    exact Hk.
  - destruct (ms_left st) eqn:Hl; [|discriminate].
    exists [], (ms_rest st), (ms_caps st). simpl. rewrite <- Hl.
    destruct st; simpl in *. auto.
  - exists [], (ms_rest st), (ms_caps st).
    assert (Hk : k st = Some x /\ (ms_rest st = [] \/ ms_rest st = [10])).
    { destruct (ms_rest st) as [|c [|c' r']]; try discriminate.
      - auto.
      - destruct (c =? 10) eqn:E; [|discriminate].
        apply N.eqb_eq in E. subst. auto. }
    destruct st; simpl in *. destruct Hk as [Hk Hr]. auto.
Qed.

(** The matcher tries every reading of the pattern. *)
Lemma run_complete (A : Type) (r : regex) :
  forall st (k : mstate -> option A),
    run r st k = None ->
    forall t rest',
      ms_rest st = t ++ rest' -> reads r (ms_left st) t rest' ->
      exists caps, k (MState (rev t ++ ms_left st) rest' caps) = None.
Proof.
  induction r as [|p|a IHa b IHb|a IHa b IHb|p lo hi|a IHa|i a IHa| |];
    intros st k H t rest' Hr Hreads; simpl in H, Hreads.
  - subst t. simpl in *. exists (ms_caps st). subst rest'.
    destruct st; exact H.
  - destruct Hreads as [c [-> Hc]]. simpl in Hr. rewrite Hr, Hc in H.
    exists (ms_caps st). exact H.
  - destruct Hreads as [t1 [t2 [-> [Ha Hb]]]].
    rewrite <- app_assoc in Hr.
    destruct (IHa _ _ H _ _ Hr Ha) as [c1 H1].
    destruct (IHb _ _ H1 t2 rest' eq_refl Hb) as [c2 H2].
    exists c2. simpl in H2. rewrite rev_app_distr, <- app_assoc. exact H2.
  - destruct (run a st k) eqn:Ha; [discriminate|].
    destruct Hreads as [Hreads|Hreads].
    + exact (IHa _ _ Ha _ _ Hr Hreads).
    + exact (IHb _ _ H _ _ Hr Hreads).
  - exists (ms_caps st).
    exact (@rep_k_complete _ p (ms_rest st) lo hi (ms_left st)
             (fun l r' => k (MState l r' (ms_caps st))) H t rest' Hr Hreads).
  - destruct (run a st k) eqn:Ha; [discriminate|].
    destruct Hreads as [Hreads| ->].
    + exact (IHa _ _ Ha _ _ Hr Hreads).
    + simpl in *. subst rest'. exists (ms_caps st). destruct st; exact H.
  - destruct (IHa _ _ H _ _ Hr Hreads) as [c Hc]. simpl in Hc.
    eexists. exact Hc.
  - destruct st as [l r c]. simpl in *. destruct Hreads as [-> ->].
    simpl in *. subst r. exists c. exact H.
  - destruct st as [l r c]. simpl in *. destruct Hreads as [-> Hrest].
    simpl in *. subst r. exists c.
    destruct Hrest as [-> | ->]; simpl in H; exact H.
Qed.

Lemma taken_app (t left : str) : taken (List.length left) (rev t ++ left) = t.
Proof.
  unfold taken. rewrite length_app, length_rev.
  replace (List.length t + List.length left - List.length left)%nat
    with (List.length (rev t)) by (rewrite length_rev; lia).
  rewrite firstn_app, firstn_all, Nat.sub_diag. simpl.
  rewrite app_nil_r. apply rev_involutive.
Qed.

(** A match at a position reads the pattern there. *)
Lemma match_here_sound (r : regex) (advance : bool) (left s : str) (h : hit) :
  match_here r advance left s = Some h ->
  exists rest, s = hit_text h ++ rest /\ reads r left (hit_text h) rest
               /\ (advance = true -> hit_text h <> []).
Proof.
  unfold match_here. intros H. apply run_sound in H.
  destruct H as [t [rest [caps [Hr [Hreads Hk]]]]]. simpl in *.
  rewrite taken_app in Hk.
  exists rest.
  destruct t as [|c t].
  - destruct advance; [discriminate|]. injection Hk as <-. simpl.
    repeat split; auto. discriminate.
  - injection Hk as <-. simpl. repeat split; auto. discriminate.
Qed.

Lemma match_here_complete (r : regex) (advance : bool) (left s t rest : str) :
  s = t ++ rest -> reads r left t rest -> (advance = true -> t <> []) ->
  exists h, match_here r advance left s = Some h.
Proof.
  intros Hs Hreads Hadv. unfold match_here.
  match goal with |- exists h, ?m = Some h => destruct m as [h|] eqn:H end;
    [exists h; reflexivity|].
  exfalso.
  destruct (run_complete _ _ _ H t rest Hs Hreads) as [caps Hk].
  simpl in Hk. rewrite taken_app in Hk.
  destruct t; [|discriminate].
  destruct advance; [|discriminate]. apply Hadv; reflexivity.
Qed.

Lemma re_match_iff (r : regex) (s : str) :
  (exists h, re_match r s = Some h) <->
  (exists t rest, s = t ++ rest /\ reads r [] t rest).
Proof.
  unfold re_match. split.
  - intros [h H]. apply match_here_sound in H.
    destruct H as [rest [Hs [Hr _]]]. exists (hit_text h), rest. auto.
  - intros [t [rest [Hs Hr]]].
    eapply match_here_complete; [exact Hs | exact Hr | discriminate].
Qed.

Lemma search_from_sound (r : regex) :
  forall s left h,
    search_from r left s = Some h ->
    exists pre rest, s = pre ++ hit_text h ++ rest
                     /\ reads r (rev pre ++ left) (hit_text h) rest.
Proof.
  induction s as [|c s IH]; intros left h H; simpl in H.
  - destruct (match_here r false left []) as [h'|] eqn:E; [|discriminate].
    injection H as ->. apply match_here_sound in E.
    destruct E as [rest [Hs [Hr _]]]. exists [], rest. auto.
  - destruct (match_here r false left (c :: s)) as [h'|] eqn:E.
    + injection H as ->. apply match_here_sound in E.
      destruct E as [rest [Hs [Hr _]]]. exists [], rest. auto.
    + apply IH in H. destruct H as [pre [rest [Hs Hr]]].
      exists (c :: pre), rest. split; [simpl; rewrite Hs; reflexivity|].
      rewrite rev_cons_app. exact Hr.
Qed.

Lemma search_from_complete (r : regex) :
  forall pre left t rest,
    reads r (rev pre ++ left) t rest ->
    exists h, search_from r left (pre ++ t ++ rest) = Some h.
Proof.
  induction pre as [|c pre IH]; intros left t rest Hr.
  - simpl in Hr. simpl.
    assert (Hm : exists h, match_here r false left (t ++ rest) = Some h)
      by (eapply match_here_complete; [reflexivity | exact Hr | discriminate]).
    destruct Hm as [h Hh].
    destruct (t ++ rest); simpl; rewrite Hh; exists h; reflexivity.
  - simpl app. simpl search_from.
    destruct (match_here r false left (c :: pre ++ t ++ rest)) as [h|];
      [exists h; reflexivity|].
    apply IH. rewrite <- rev_cons_app. exact Hr.
Qed.

Lemma matches_iff (r : regex) (s : str) :
  matches r s = true <->
  exists pre t rest, s = pre ++ t ++ rest /\ reads r (rev pre) t rest.
Proof.
  unfold matches, re_search. split.
  - destruct (search_from r [] s) as [h|] eqn:E; [|discriminate].
    intros _. apply search_from_sound in E.
    destruct E as [pre [rest [Hs Hr]]]. rewrite app_nil_r in Hr.
    exists pre, (hit_text h), rest. auto.
  - intros [pre [t [rest [-> Hr]]]].
    destruct (@search_from_complete r pre [] t rest) as [h Hh].
    + rewrite app_nil_r. exact Hr.
    + rewrite Hh. reflexivity.
Qed.

(** Every match the scan reports reads the pattern where it stands. *)
Lemma scan_sound (r : regex) :
  forall s skip left h,
    In h (hits (scan r skip left s)) ->
    exists pre rest, s = pre ++ hit_text h ++ rest
                     /\ reads r (rev pre ++ left) (hit_text h) rest.
Proof.
  assert (Hhere : forall left s h, match_here r false left s = Some h \/
                                   match_here r true left s = Some h ->
            exists pre rest, s = pre ++ hit_text h ++ rest
                     /\ reads r (rev pre ++ left) (hit_text h) rest).
  { intros left s h [E|E]; apply match_here_sound in E;
      destruct E as [rest [Hs [Hr _]]]; exists [], rest; auto. }
  assert (Hshift : forall c s left h,
            (exists pre rest, s = pre ++ hit_text h ++ rest
                     /\ reads r (rev pre ++ c :: left) (hit_text h) rest) ->
            exists pre rest, c :: s = pre ++ hit_text h ++ rest
                     /\ reads r (rev pre ++ left) (hit_text h) rest).
  { intros c s left h [pre [rest [Hs Hr]]]. exists (c :: pre), rest.
    split; [simpl; rewrite Hs; reflexivity|]. rewrite rev_cons_app. exact Hr. }
  induction s as [|c s IH]; intros skip left h H; simpl in H.
  - destruct skip; [|contradiction].
    destruct (match_here r false left []) as [h'|] eqn:E; [|contradiction].
    destruct H as [<-|[]]. apply Hhere. left. exact E.
  - destruct skip as [|n].
    + destruct (match_here r false left (c :: s)) as [h1|] eqn:E1.
      * destruct (List.length (hit_text h1)) as [|n].
        -- destruct H as [<-|H]; [apply Hhere; left; exact E1|].
           destruct (match_here r true left (c :: s)) as [h2|] eqn:E2.
           ++ destruct H as [<-|H]; [apply Hhere; right; exact E2|].
              apply Hshift. eapply IH. exact H.
           ++ apply Hshift. eapply IH. exact H.
        -- destruct H as [<-|H]; [apply Hhere; left; exact E1|].
           apply Hshift. eapply IH. exact H.
      * apply Hshift. eapply IH. exact H.
    + apply Hshift. eapply IH. exact H.
Qed.

Lemma findall_sound (r : regex) (s t : str) :
  In t (findall r s) ->
  exists pre rest, s = pre ++ t ++ rest /\ reads r (rev pre) t rest.
Proof.
  unfold findall. intros H. apply in_map_iff in H.
  destruct H as [h [<- Hh]]. apply scan_sound in Hh.
  destruct Hh as [pre [rest [Hs Hr]]]. rewrite app_nil_r in Hr.
  exists pre, rest. auto.
Qed.


(** ** Literal texts *)

Lemma reads_Lit (s : str) :
  forall left t rest, reads (Lit s) left t rest <-> t = s.
Proof.
  unfold Lit. induction s as [|c s IH]; intros left t rest.
  - cbn [map seq reads]. tauto.
  - destruct s as [|c' s'].
    + cbn [map seq reads]. unfold is_char. split.
      * intros [x [-> Hx]]. apply N.eqb_eq in Hx. subst. reflexivity.
      * intros ->. exists c. split; [reflexivity | apply N.eqb_refl].
    + change (seq (map (fun c0 => Chr (is_char c0)) (c :: c' :: s')))
        with (Cat (Chr (is_char c))
                  (seq (map (fun c0 => Chr (is_char c0)) (c' :: s')))).
      cbn [reads]. unfold is_char at 1. split.
      * intros [t1 [t2 [-> [[x [-> Hx]] H2]]]]. apply IH in H2.
        apply N.eqb_eq in Hx. subst. reflexivity.
      * intros ->. exists [c], (c' :: s'). split; [reflexivity|].
        split; [exists c; split; [reflexivity | apply N.eqb_refl]|].
        apply IH. reflexivity.
Qed.

Lemma startswith_iff (p s : str) :
  startswith p s = true <-> exists rest, s = p ++ rest.
Proof.
  revert s. induction p as [|a p IH]; intros s.
  - cbn [startswith app]. split; [intros _; exists s; reflexivity | reflexivity].
  - destruct s as [|b s]; cbn [startswith].
    + split; [discriminate | intros [rest H]; discriminate H].
    + rewrite andb_true_iff, N.eqb_eq, IH. split.
      * intros [-> [rest ->]]. exists rest. reflexivity.
      * intros [rest H]. injection H as -> ->. split; [reflexivity|].
        exists rest. reflexivity.
Qed.

Lemma contains_iff (sub s : str) :
  contains sub s = true <-> exists pre rest, s = pre ++ sub ++ rest.
Proof.
  induction s as [|c s IH].
  - cbn [contains]. rewrite orb_false_r, startswith_iff. split.
    + intros [rest H]. exists [], rest. exact H.
    + intros [pre [rest H]]. destruct pre; [exists rest; exact H|discriminate].
  - cbn [contains]. rewrite orb_true_iff, startswith_iff, IH. split.
    + intros [[rest H]|[pre [rest H]]].
      * exists [], rest. exact H.
      * exists (c :: pre), rest. rewrite H. reflexivity.
    + intros [[|c' pre] [rest H]].
      * left. exists rest. exact H.
      * right. injection H as -> ->. exists pre, rest. reflexivity.
Qed.

(** Searching a literal text is looking for it as a part. *)
Lemma matches_Lit (sub s : str) : matches (Lit sub) s = contains sub s.
Proof.
  apply eq_true_iff_eq. rewrite matches_iff, contains_iff. split.
  - intros [pre [t [rest [-> Hr]]]]. apply reads_Lit in Hr. subst t.
    exists pre, rest. reflexivity.
  - intros [pre [rest ->]]. exists pre, sub, rest.
    split; [reflexivity | apply reads_Lit; reflexivity].
Qed.

Lemma matches_Alt (a b : regex) (s : str) :
  matches (Alt a b) s = matches a s || matches b s.
Proof.
  apply eq_true_iff_eq. rewrite orb_true_iff, !matches_iff. cbn [reads]. split.
  - intros [pre [t [rest [Hs [H|H]]]]]; [left|right]; exists pre, t, rest; auto.
  - intros [[pre [t [rest [Hs H]]]]|[pre [t [rest [Hs H]]]]];
      exists pre, t, rest; auto.
Qed.

End ReFacts.

(* ================================================================== *)
(** * Properties of the validators *)
(* ================================================================== *)

Module UtilsSpec.

Import PyStr Re Utils ReFacts.
Local Open Scope N_scope.

(** ** Removing a class of characters with [re.sub] *)

Lemma match_plus_none (p : char -> bool) (left : str) (c : char) (s : str) :
  p c = false -> match_here (plus p) false left (c :: s) = None.
Proof.
  intros Hc. destruct (match_here (plus p) false left (c :: s)) as [h|] eqn:E;
    [|reflexivity].
  apply match_here_sound in E. destruct E as [rest [Hs [[Hp [Hlo _]] _]]].
  destruct (hit_text h) as [|c' t]; [simpl in Hlo; lia|].
  simpl in Hs. injection Hs as <- _. simpl in Hp. rewrite Hc in Hp. discriminate.
Qed.

Lemma match_plus_nil (p : char -> bool) (left : str) :
  match_here (plus p) false left [] = None.
Proof.
  destruct (match_here (plus p) false left []) as [h|] eqn:E; [|reflexivity].
  apply match_here_sound in E. destruct E as [rest [Hs [[Hp [Hlo _]] _]]].
  destruct (hit_text h); [simpl in Hlo; lia|discriminate].
Qed.

Lemma match_plus_some (p : char -> bool) (left : str) (c : char) (s : str) :
  p c = true ->
  exists h t, match_here (plus p) false left (c :: s) = Some h
              /\ hit_text h = c :: t /\ forallb p t = true
              /\ firstn (List.length t) s = t.
Proof.
  intros Hc.
  assert (Hm : exists h, match_here (plus p) false left (c :: s) = Some h).
  { eapply match_here_complete with (t := [c]) (rest := s);
      [reflexivity| |discriminate].
    simpl. rewrite Hc. repeat split; auto. }
  destruct Hm as [h Hh]. pose proof Hh as E.
  apply match_here_sound in E. destruct E as [rest [Hs [[Hp [Hlo _]] _]]].
  destruct (hit_text h) as [|c' t] eqn:Ht; [simpl in Hlo; lia|].
  simpl in Hs. injection Hs as <- ->. simpl in Hp. rewrite Hc in Hp.
  exists h, t. repeat split; auto.
  rewrite firstn_app, firstn_all, Nat.sub_diag. simpl. apply app_nil_r.
Qed.

(** [re.sub] of the runs of a class by the empty text deletes the
    characters of the class. *)
Lemma scan_plus_filter (p : char -> bool) :
  forall s skip left,
    forallb p (firstn skip s) = true -> (skip <= List.length s)%nat ->
    flat_map (fun pc => match pc with In_ _ => [] | Out c => [c] end)
             (scan (plus p) skip left s)
    = filter (fun c => negb (p c)) s.
Proof.
  induction s as [|c s IH]; intros skip left Hskip Hlen.
  - simpl in Hlen. assert (skip = 0%nat) by lia. subst skip.
    cbn [scan]. rewrite match_plus_nil. reflexivity.
  - destruct skip as [|n].
    + cbn [scan]. destruct (p c) eqn:Hc.
      * destruct (@match_plus_some p left c s Hc) as [h [t [Hh [Ht [Hp Hf]]]]].
        rewrite Hh, Ht. cbn [List.length flat_map filter app].
        rewrite Hc. cbn [negb].
        apply IH.
        -- rewrite Hf. exact Hp.
        -- rewrite <- Hf. rewrite length_firstn. lia.
      * rewrite (@match_plus_none p left c s Hc).
        cbn [flat_map filter app]. rewrite Hc. cbn [negb]. f_equal.
        apply IH; [reflexivity | lia].
    + cbn [scan]. simpl in Hskip. apply andb_true_iff in Hskip.
      destruct Hskip as [Hc Hskip]. cbn [filter]. rewrite Hc. cbn [negb].
      apply IH; [exact Hskip | simpl in Hlen; lia].
Qed.

Lemma re_sub_plus_filter (p : char -> bool) (s : str) :
  re_sub (plus p) [] s = filter (fun c => negb (p c)) s.
Proof.
  unfold re_sub. apply scan_plus_filter; [reflexivity | lia].
Qed.

Section Validators.

Variable U : unicode_db.

(** ** [is_valid_email] *)

Lemma reads_email_pattern (t rest : str) :
  reads (email_pattern U) [] t rest <->
  exists local domain tld,
    t = local ++ u "@" ++ domain ++ u "." ++ tld
    /\ local <> [] /\ forallb (is_word_dot_dash U) local = true
    /\ domain <> [] /\ forallb (is_word_dot_dash U) domain = true
    /\ tld <> [] /\ forallb (is_word U) tld = true
    /\ (rest = [] \/ rest = [10]).
Proof.
  change (u "@") with [64]. change (u ".") with [46].
  unfold email_pattern.
  change (Lit (u "@")) with (Chr (is_char 64)).
  change (Lit (u ".")) with (Chr (is_char 46)).
  cbn [seq reads plus]. split.
  - intros [t0 [t1 [-> [[-> _] H]]]].
    destruct H as [l [t2 [-> [[Hl [Hln _]] H]]]].
    destruct H as [a [t3 [-> [[c [-> Hc]] H]]]].
    destruct H as [d [t4 [-> [[Hd [Hdn _]] H]]]].
    destruct H as [b [t5 [-> [[c' [-> Hc']] H]]]].
    destruct H as [w [t6 [-> [[Hw [Hwn _]] [-> Hrest]]]]].
    apply N.eqb_eq in Hc, Hc'. subst c c'.
    exists l, d, w. rewrite app_nil_r. simpl.
    repeat split; auto.
    + intros ->. simpl in Hln. lia.
    + intros ->. simpl in Hdn. lia.
    + intros ->. simpl in Hwn. lia.
  - intros [l [d [w [-> [Hl [Hlp [Hd [Hdp [Hw [Hwp Hrest]]]]]]]]]].
    exists [], (l ++ [64] ++ d ++ [46] ++ w). split; [reflexivity|].
    split; [auto|].
    exists l, ([64] ++ d ++ [46] ++ w). split; [reflexivity|].
    split; [repeat split; auto; destruct l; [congruence|simpl; lia]|].
    exists [64], (d ++ [46] ++ w). split; [reflexivity|].
    split; [exists 64; auto|].
    exists d, ([46] ++ w). split; [reflexivity|].
    split; [repeat split; auto; destruct d; [congruence|simpl; lia]|].
    exists [46], w. split; [reflexivity|].
    split; [exists 46; auto|].
    exists w, []. split; [rewrite app_nil_r; reflexivity|].
    split; [repeat split; auto; destruct w; [congruence|simpl; lia]|].
    auto.
Qed.

(** The shape of an address that [is_valid_email] accepts. *)
Definition email_shape (email : str) : Prop :=
  exists local domain tld nl,
    email = local ++ u "@" ++ domain ++ u "." ++ tld ++ nl
    /\ local <> [] /\ forallb (is_word_dot_dash U) local = true
    /\ domain <> [] /\ forallb (is_word_dot_dash U) domain = true
    /\ tld <> [] /\ forallb (is_word U) tld = true
    /\ (nl = [] \/ nl = [10]).

Lemma valid_email_shape (email : str) :
  is_valid_email U email = true -> email_shape email.
Proof.
  unfold is_valid_email.
  destruct (negb (truthy email)); [discriminate|].
  destruct (re_match (email_pattern U) email) as [h|] eqn:E; [|discriminate].
  intros _.
  assert (Hm : exists h, re_match (email_pattern U) email = Some h)
    by (exists h; exact E).
  apply re_match_iff in Hm. destruct Hm as [t [rest [-> Hr]]].
  apply reads_email_pattern in Hr.
  destruct Hr as [l [d [w [-> H]]]].
  exists l, d, w, rest. split; [|exact H].
  repeat rewrite <- app_assoc. reflexivity.
Qed.

Lemma email_shape_valid (email : str) :
  email_shape email -> is_valid_email U email = true.
Proof.
  unfold is_valid_email. intros [l [d [w [nl [-> H]]]]].
  assert (Hm : exists h, re_match (email_pattern U)
                           (l ++ u "@" ++ d ++ u "." ++ w ++ nl) = Some h).
  { apply re_match_iff. exists (l ++ u "@" ++ d ++ u "." ++ w), nl.
    split; [repeat rewrite <- app_assoc; reflexivity|].
    apply reads_email_pattern. exists l, d, w. split; [reflexivity|exact H]. }
  destruct Hm as [h ->].
  destruct l; [destruct H as [H _]; congruence|]. reflexivity.
Qed.

(** X3: [is_valid_email] accepts exactly the texts
    [local@domain.tld], where [local] and [domain] are non-empty runs
    of word characters, dots and hyphens and [tld] is a non-empty run
    of word characters, and the same texts followed by one line feed
    (which [$] lets through). *)
Theorem is_valid_email_iff (email : str) :
  is_valid_email U email = true <->
  exists local domain tld nl,
    email = local ++ u "@" ++ domain ++ u "." ++ tld ++ nl
    /\ local <> [] /\ forallb (is_word_dot_dash U) local = true
    /\ domain <> [] /\ forallb (is_word_dot_dash U) domain = true
    /\ tld <> [] /\ forallb (is_word U) tld = true
    /\ (nl = [] \/ nl = [10]).
Proof.
  split; [apply valid_email_shape | apply email_shape_valid].
Qed.

(** ** [is_valid_phone] *)

(** The characters that [is_valid_phone] removes. *)
Definition is_phone_separator (c : char) : bool :=
  is_space c || one_of (u "-().") c.

Lemma reads_phone_shape (t rest : str) :
  reads (phone_shape U) [] t rest <->
  exists sign ds,
    t = sign ++ ds /\ (sign = [] \/ sign = u "+")
    /\ forallb (is_digit U) ds = true
    /\ (7 <= List.length ds <= 15)%nat
    /\ (rest = [] \/ rest = [10]).
Proof.
  change (u "+") with [43].
  unfold phone_shape. change (Lit (u "+")) with (Chr (is_char 43)).
  cbn [seq reads]. split.
  - intros [t0 [t1 [-> [[-> _] H]]]].
    destruct H as [sg [t2 [-> [Hsg H]]]].
    destruct H as [ds [t3 [-> [[Hd [Hlo Hhi]] [-> Hrest]]]]].
    exists sg, ds. rewrite app_nil_r. simpl. repeat split; auto.
    destruct Hsg as [[c [-> Hc]]| ->]; [|auto].
    apply N.eqb_eq in Hc. subst c. auto.
  - intros [sg [ds [-> [Hsg [Hd [[Hlo Hhi] Hrest]]]]]].
    exists [], (sg ++ ds). split; [reflexivity|]. split; [auto|].
    exists sg, ds. split; [reflexivity|]. split.
    + destruct Hsg as [->| ->]; [right; reflexivity|].
      left. exists 43. auto.
    + exists ds, []. rewrite app_nil_r. repeat split; auto.
Qed.

(** X4: [is_valid_phone] accepts exactly the non-empty texts that,
    once white space, hyphens, parentheses and dots are deleted
    wherever they stand, are 7 to 15 decimal digits, with or without a
    plus sign in front. *)
Theorem is_valid_phone_iff (phone : str) :
  is_valid_phone U phone = true <->
  phone <> []
  /\ exists sign ds,
       filter (fun c => negb (is_phone_separator c)) phone = sign ++ ds
       /\ (sign = [] \/ sign = u "+")
       /\ forallb (is_digit U) ds = true
       /\ (7 <= List.length ds <= 15)%nat.
Proof.
  assert (Hunfold :
    is_valid_phone U phone
    = match phone with
      | [] => false
      | _ :: _ =>
          match re_match (phone_shape U)
                         (filter (fun c => negb (is_phone_separator c)) phone) with
          | Some _ => true
          | None => false
          end
      end).
  { unfold is_valid_phone, phone_separators. rewrite re_sub_plus_filter.
    destruct phone; reflexivity. }
  rewrite Hunfold. clear Hunfold.
  set (clean := filter (fun c => negb (is_phone_separator c)) phone).
  assert (Hnl : forall t rest, clean = t ++ rest -> rest = [10] -> False).
  { intros t rest Heq ->.
    assert (Hin : In 10 clean) by (rewrite Heq; apply in_or_app; right; left; reflexivity).
    apply filter_In in Hin. destruct Hin as [_ Hin]. vm_compute in Hin. discriminate Hin. }
  split.
  - destruct phone as [|c phone']; [discriminate|].
    destruct (re_match (phone_shape U) clean) as [h|] eqn:E; [|discriminate].
    intros _. split; [discriminate|].
    assert (Hm : exists h, re_match (phone_shape U) clean = Some h)
      by (exists h; exact E).
    apply re_match_iff in Hm. destruct Hm as [t [rest [Heq Hr]]].
    apply reads_phone_shape in Hr.
    destruct Hr as [sg [ds [-> [Hsg [Hd [Hlen Hrest]]]]]].
    exists sg, ds.
    destruct Hrest as [->|Hrest]; [|exfalso; exact (Hnl _ _ Heq Hrest)].
    rewrite app_nil_r in Heq. auto.
  - intros [Hne [sg [ds [Heq [Hsg [Hd Hlen]]]]]].
    destruct phone as [|c phone']; [congruence|].
    assert (Hm : exists h, re_match (phone_shape U) clean = Some h).
    { apply re_match_iff. exists (sg ++ ds), [].
      split; [rewrite app_nil_r; exact Heq|].
      apply reads_phone_shape. exists sg, ds. repeat split; auto; lia. }
    destruct Hm as [h ->]. reflexivity.
Qed.

End Validators.

End UtilsSpec.

(* ================================================================== *)
(** * Properties of the field strategies *)
(* ================================================================== *)

Module ExtractorSpec.

Import PyStr PyDict Re Soup PyExn Utils Scraper ReFacts UtilsSpec.
Local Open Scope N_scope.

Section Strategies.

Variable U : unicode_db.

(** ** Phone numbers *)

Lemma phone_in_text_valid (txt : str) :
  forall patterns p,
    phone_in_text U patterns txt = Some p ->
    is_valid_phone U p = true
    /\ exists pattern, In pattern patterns /\ In p (findall pattern txt).
Proof.
  induction patterns as [|pattern rest IH]; intros p H; simpl in H;
    [discriminate|].
  destruct (filter (is_valid_phone U) (findall pattern txt)) as [|q l] eqn:E.
  - destruct (IH _ H) as [Hv [pat [Hin Hf]]].
    split; [exact Hv|]. exists pat. split; [right; exact Hin | exact Hf].
  - injection H as ->.
    assert (Hin : In p (filter (is_valid_phone U) (findall pattern txt)))
      by (rewrite E; left; reflexivity).
    apply filter_In in Hin. destruct Hin as [Hin Hv].
    split; [exact Hv|]. exists pattern. split; [left; reflexivity | exact Hin].
Qed.

Lemma phone_in_text_none (txt : str) :
  forall patterns,
    phone_in_text U patterns txt = None ->
    forall pattern t, In pattern patterns -> In t (findall pattern txt) ->
                      is_valid_phone U t = false.
Proof.
  induction patterns as [|pattern rest IH]; intros H pat t Hin Ht;
    [destruct Hin|].
  simpl in H.
  destruct (filter (is_valid_phone U) (findall pattern txt)) as [|q l] eqn:E;
    [|discriminate].
  destruct Hin as [<-|Hin]; [|exact (IH H pat t Hin Ht)].
  destruct (is_valid_phone U t) eqn:Hv; [|reflexivity].
  assert (Hf : In t (filter (is_valid_phone U) (findall pattern txt)))
    by (apply filter_In; split; assumption).
  rewrite E in Hf. destruct Hf.
Qed.

(** The numbers of the [tel:] links of a page, in document order. *)
Definition tel_numbers (sp : soup) : list str :=
  map (fun link => replace (u "tel:") [] (item (u "href") link))
      (find_all (fun n => is_tag [u "a"] n && attr_re (u "href") tel_prefix n)
                (nodes_of sp)).

Lemma phone_in_text_all_invalid (txt : str) :
  forall patterns,
    (forall pattern t, In pattern patterns -> In t (findall pattern txt) ->
                       is_valid_phone U t = false) ->
    phone_in_text U patterns txt = None.
Proof.
  induction patterns as [|pattern rest IH]; intros H; [reflexivity|].
  cbn [phone_in_text].
  destruct (filter (is_valid_phone U) (findall pattern txt)) as [|q l] eqn:E.
  - apply IH. intros pat t Hin Ht. apply (H pat t); [right; exact Hin | exact Ht].
  - assert (Hq : In q (filter (is_valid_phone U) (findall pattern txt)))
      by (rewrite E; left; reflexivity).
    apply filter_In in Hq. destruct Hq as [Hin Hv].
    rewrite (H pattern q (or_introl eq_refl) Hin) in Hv. discriminate.
Qed.

(** X5: the phone strategy returns the empty string or a number that
    [is_valid_phone] accepts, taken from a match of one of the four
    patterns in the text of the page or from a [tel:] link; it returns
    the empty string exactly when [is_valid_phone] rejects every match
    of every pattern and the number of every [tel:] link. *)
Theorem extract_phone_valid (sp : soup) :
  (extract_phone U sp <> [] ->
   is_valid_phone U (extract_phone U sp) = true
   /\ ((exists pattern, In pattern (phone_patterns U)
                        /\ In (extract_phone U sp)
                              (findall pattern (get_text sp)))
       \/ In (extract_phone U sp) (tel_numbers sp)))
  /\ (extract_phone U sp = [] <->
      (forall pattern t, In pattern (phone_patterns U) ->
                         In t (findall pattern (get_text sp)) ->
                         is_valid_phone U t = false)
      /\ (forall t, In t (tel_numbers sp) -> is_valid_phone U t = false)).
Proof.
  unfold extract_phone. fold (tel_numbers sp).
  destruct (phone_in_text U (phone_patterns U) (get_text sp)) as [p|] eqn:E.
  - destruct (phone_in_text_valid _ _ E) as [Hv Hsrc].
    split; [intros _; split; [exact Hv | left; exact Hsrc]|].
    split.
    + intros ->. discriminate Hv.
    + intros [H _]. rewrite (phone_in_text_all_invalid _ _ H) in E.
      discriminate.
  - destruct (find (is_valid_phone U) (tel_numbers sp)) as [p|] eqn:Ef.
    + apply find_some in Ef. destruct Ef as [Hin Hv].
      split; [intros _; split; [exact Hv | right; exact Hin]|].
      split.
      * intros ->. discriminate Hv.
      * intros [_ H]. rewrite (H p Hin) in Hv. discriminate.
    + split; [intros H; congruence|].
      split; [|reflexivity].
      intros _. split.
      * apply phone_in_text_none. exact E.
      * intros t Ht. apply (find_none _ _ Ef t Ht).
Qed.

(** ** E-mail addresses *)

Lemma lowercase_is_word (c : char) : in_range 97 122 c = true -> is_word U c = true.
Proof.
  unfold is_word, in_range. intros H. apply andb_true_iff in H.
  destruct H as [H1 H2]. apply N.leb_le in H1, H2.
  assert (Hc : (c <? 128) = true) by (apply N.ltb_lt; lia).
  rewrite Hc.
  assert (H3 : ((97 <=? c) && (c <=? 122)) = true)
    by (apply andb_true_iff; split; apply N.leb_le; lia).
  rewrite H3. rewrite orb_true_r. reflexivity.
Qed.

Lemma reads_email_in_text (left t rest : str) :
  reads (email_in_text U) left t rest ->
  exists local domain tld,
    t = local ++ u "@" ++ domain ++ u "." ++ tld
    /\ local <> [] /\ forallb (is_word_dot_dash U) local = true
    /\ domain <> [] /\ forallb (is_word_dot_dash U) domain = true
    /\ (2 <= List.length tld)%nat /\ forallb (in_range 97 122) tld = true.
Proof.
  change (u "@") with [64]. change (u ".") with [46].
  unfold email_in_text.
  change (Lit (u "@")) with (Chr (is_char 64)).
  change (Lit (u ".")) with (Chr (is_char 46)).
  cbn [seq reads plus].
  intros [l [t2 [-> [[Hl [Hln _]] H]]]].
  destruct H as [a [t3 [-> [[c [-> Hc]] H]]]].
  destruct H as [d [t4 [-> [[Hd [Hdn _]] H]]]].
  destruct H as [b [w [-> [[c' [-> Hc']] [Hw [Hwn _]]]]]].
  apply N.eqb_eq in Hc, Hc'. subst c c'.
  exists l, d, w. simpl. repeat split; auto.
  - intros ->. simpl in Hln. lia.
  - intros ->. simpl in Hdn. lia.
Qed.

Lemma text_email_valid (txt e : str) :
  In e (findall (email_in_text U) txt) -> is_valid_email U e = true.
Proof.
  intros H. apply findall_sound in H. destruct H as [pre [rest [_ Hr]]].
  apply reads_email_in_text in Hr.
  destruct Hr as [l [d [w [-> [Hl [Hlp [Hd [Hdp [Hwn Hw]]]]]]]]].
  apply email_shape_valid. exists l, d, w, [].
  rewrite app_nil_r. repeat split; auto.
  - intros ->. simpl in Hwn. lia.
  - rewrite forallb_forall in *. intros c Hc.
    apply lowercase_is_word. apply Hw. exact Hc.
Qed.

(** X6: every address that the pattern of the text search finds
    passes [is_valid_email]: on the matches of the page text the
    validation rejects nothing. *)
Theorem text_emails_pass_validation (txt : str) :
  filter (is_valid_email U) (findall (email_in_text U) txt)
  = findall (email_in_text U) txt.
Proof.
  apply forallb_filter_id. apply forallb_forall.
  intros e He. exact (text_email_valid txt e He).
Qed.

(** The addresses of the [mailto:] links of a page, in document order. *)
Definition mailto_addresses (sp : soup) : list str :=
  map mailto_address (find_all is_mailto_link (nodes_of sp)).

(** X7: the e-mail strategy returns the first address of a [mailto:]
    link that [is_valid_email] accepts; without one, the first match of
    the pattern in the text of the page; without one, the empty string.
    A result that is not empty passes [is_valid_email], and the result
    is empty exactly when no [mailto:] link carries a valid address and
    the text has no match of the pattern. *)
Theorem extract_email_valid (sp : soup) :
  extract_email U sp
  = match find (is_valid_email U) (mailto_addresses sp) with
    | Some email => email
    | None => hd [] (findall (email_in_text U) (get_text sp))
    end
  /\ (extract_email U sp <> [] ->
      is_valid_email U (extract_email U sp) = true)
  /\ (extract_email U sp = [] <->
      (forall a, In a (mailto_addresses sp) -> is_valid_email U a = false)
      /\ findall (email_in_text U) (get_text sp) = []).
Proof.
  unfold extract_email. fold (mailto_addresses sp).
  assert (Hf : filter (is_valid_email U)
                      (findall (email_in_text U) (get_text sp))
               = findall (email_in_text U) (get_text sp)).
  { apply forallb_filter_id. apply forallb_forall.
    intros e He. exact (text_email_valid (get_text sp) e He). }
  rewrite Hf.
  destruct (find (is_valid_email U) (mailto_addresses sp)) as [e|] eqn:E.
  - apply find_some in E. destruct E as [Hin Hv].
    split; [reflexivity|]. split; [intros _; exact Hv|].
    split.
    + intros ->. discriminate Hv.
    + intros [H _]. rewrite (H e Hin) in Hv. discriminate.
  - destruct (findall (email_in_text U) (get_text sp)) as [|e l] eqn:El.
    + split; [reflexivity|]. split; [intros H; congruence|].
      split; [|reflexivity]. intros _. split; [|reflexivity].
      intros a Ha. exact (find_none _ _ E a Ha).
    + assert (Hv : is_valid_email U e = true).
      { apply (text_email_valid (get_text sp) e). rewrite El. left. reflexivity. }
      split; [reflexivity|]. split; [intros _; exact Hv|].
      cbn [hd]. split.
      * intros ->. discriminate Hv.
      * intros [_ H]. discriminate H.
Qed.

End Strategies.

(** ** Staff *)

Definition has_members (section : node) : bool :=
  match members_of section with [] => false | _ :: _ => true end.

Lemma team_loop_first :
  forall sections,
    team_loop sections []
    = match find has_members sections with
      | Some section => members_of section
      | None => []
      end.
Proof.
  induction sections as [|section rest IH]; [reflexivity|].
  cbn [team_loop find app].
  assert (Hm : has_members section
               = match members_of section with [] => false | _ :: _ => true end)
    by reflexivity.
  rewrite Hm. destruct (members_of section) as [|m l] eqn:E;
    [exact IH | symmetry; exact E].
Qed.

(** X8: the staff strategy returns the members of one section only:
    the first of the sections found (by class, then by id) in which
    some person element has a name.  The members of later sections are
    never added, and without such a section the list is empty. *)
Theorem extract_team_first_section (sp : soup) :
  extract_team sp
  = match find has_members (by_class_then_id team_re (nodes_of sp)) with
    | Some section => members_of section
    | None => []
    end
  /\ (extract_team sp = [] <->
      forall section, In section (by_class_then_id team_re (nodes_of sp)) ->
                      members_of section = []).
Proof.
  unfold extract_team. rewrite team_loop_first.
  split; [reflexivity|].
  destruct (find has_members (by_class_then_id team_re (nodes_of sp)))
    as [section|] eqn:E.
  - apply find_some in E. destruct E as [Hin Hm]. split.
    + intros H. unfold has_members in Hm. rewrite H in Hm. discriminate.
    + intros H. apply H. exact Hin.
  - split; [|reflexivity]. intros _ section Hin.
    pose proof (find_none _ _ E section Hin) as Hm. unfold has_members in Hm.
    destruct (members_of section); [reflexivity|discriminate].
Qed.

(** A record of the staff list: it has a name, which is not empty; its
    keys are among name, role and e-mail, none twice; no value is
    empty. *)
Definition member_ok (info : dict str) : Prop :=
  (exists name, dict_get K_NAME info = Some name /\ name <> [])
  /\ (forall k v, In (k, v) info -> In k [K_NAME; K_ROLE; K_EMAIL] /\ v <> [])
  /\ NoDup (keys info).

Lemma truthy_not_nil (s : str) : truthy s = true -> s <> [].
Proof. destruct s; [discriminate|]. intros _. discriminate. Qed.

Lemma person_info_ok (person : node) (info : dict str) :
  person_info person = Some info -> member_ok info.
Proof.
  unfold person_info.
  destruct (truthy (person_name person)) eqn:Hn; [|discriminate].
  intros H. injection H as <-.
  assert (Hnr : str_eqb K_NAME K_ROLE = false) by (vm_compute; reflexivity).
  assert (Hne : str_eqb K_NAME K_EMAIL = false) by (vm_compute; reflexivity).
  assert (Hre : str_eqb K_ROLE K_EMAIL = false) by (vm_compute; reflexivity).
  assert (Hnn : str_eqb K_NAME K_NAME = true) by apply str_eqb_refl.
  assert (Dnr : K_NAME <> K_ROLE) by (apply str_eqb_neq; exact Hnr).
  assert (Dne : K_NAME <> K_EMAIL) by (apply str_eqb_neq; exact Hne).
  assert (Dre : K_ROLE <> K_EMAIL) by (apply str_eqb_neq; exact Hre).
  apply truthy_not_nil in Hn.
  generalize dependent (person_name person). intros name Hn.
  destruct (truthy (person_role person)) eqn:Hr;
    [apply truthy_not_nil in Hr|clear Hr];
    generalize dependent (person_role person); intros role; intros;
    (destruct (truthy (person_email person)) eqn:He;
     [apply truthy_not_nil in He|clear He]);
    generalize dependent (person_email person); intros email; intros;
    cbn [dict_set]; rewrite ?Hnr, ?Hne, ?Hre; cbn [dict_set];
    rewrite ?Hnr, ?Hne, ?Hre;
    (split; [exists name; cbn [dict_get]; rewrite Hnn; auto|]);
    (split; [intros k v Hin; cbn [In] in Hin;
             repeat (destruct Hin as [Hin|Hin];
                     [injection Hin as <- <-; cbn [In]; auto|]);
             destruct Hin
            |]);
    cbn [keys map fst];
    repeat (constructor; [cbn [In]; intuition congruence|]); constructor.
Qed.

(** X9: every record of the staff list has a name that is not empty;
    its keys are among name, role and e-mail, none twice; and none of
    its values is empty. *)
Theorem extract_team_records (sp : soup) :
  Forall member_ok (extract_team sp).
Proof.
  unfold extract_team. rewrite team_loop_first.
  destruct (find has_members (by_class_then_id team_re (nodes_of sp)));
    [|constructor].
  unfold members_of. apply Forall_forall. intros info Hin.
  apply in_flat_map in Hin. destruct Hin as [person [_ Hin]].
  destruct (person_info person) as [info'|] eqn:E; [|destruct Hin].
  destruct Hin as [<-|[]]. exact (person_info_ok _ E).
Qed.

(** ** Social links *)

(** The texts that stand for each platform. *)
Definition social_domains : list (str * list str) :=
  [ (u "facebook", [u "facebook.com"]);
    (u "twitter", [u "twitter.com"; u "x.com"]);
    (u "instagram", [u "instagram.com"]);
    (u "linkedin", [u "linkedin.com"]);
    (u "youtube", [u "youtube.com"]);
    (u "tiktok", [u "tiktok.com"]);
    (u "whatsapp", [u "wa.me"; u "whatsapp.com"]) ].

(** X10: a link is attributed to a platform by the mere presence
    of one of the platform's texts anywhere in its address, and to the
    first platform of the table for which this holds: an address that
    holds [x.com] at any place, in a longer host name or in its query,
    counts as a link to Twitter. *)
Theorem platform_by_substring (href : str) :
  platform_of href
  = option_map fst
      (find (fun p => existsb (fun domain => contains domain href) (snd p))
            social_domains).
Proof.
  unfold platform_of, social_patterns, social_domains.
  cbn [find snd fst alt existsb].
  rewrite !matches_Alt, !matches_Lit, !orb_false_r.
  repeat match goal with
         | |- context [if ?c then _ else _] => destruct c; [reflexivity|]
         end.
  reflexivity.
Qed.

Section SocialLinks.

Variable urljoin : str -> str -> result str.

(** The link names no platform, or its address is absolute. *)
Definition needs_no_join (href : str) : bool :=
  match platform_of href with
  | Some _ => is_absolute href
  | None => true
  end.

Lemma social_loop_absolute (base_url : str) :
  forall hrefs d0,
    forallb needs_no_join hrefs = true ->
    exists d,
      social_loop urljoin base_url hrefs d0 = Return d
      /\ forall urljoin' base_url',
           social_loop urljoin' base_url' hrefs d0 = Return d.
Proof.
  induction hrefs as [|href rest IH]; intros d0 H.
  - exists d0. split; [reflexivity | intros; reflexivity].
  - cbn [forallb] in H. apply andb_true_iff in H. destruct H as [Hh H].
    unfold needs_no_join in Hh. cbn [social_loop].
    destruct (platform_of href) as [platform|].
    + rewrite Hh. destruct (IH (dict_set platform href d0) H) as [d [Hd Hany]].
      exists d. split; [exact Hd|]. intros. apply Hany.
    + destruct (IH d0 H) as [d [Hd Hany]].
      exists d. split; [exact Hd|]. intros. apply Hany.
Qed.

(** X11: on a page whose links to the platforms all carry an absolute
    address (one that starts with http:// or https://), the social-links
    strategy returns a mapping and raises nothing, and the mapping
    depends neither on the base URL nor on [urljoin], which is never
    called. *)
Theorem extract_social_absolute (sp : soup) (base_url : str) :
  forallb needs_no_join (link_hrefs sp) = true ->
  exists d,
    extract_social urljoin sp base_url = Return d
    /\ forall urljoin' base_url',
         extract_social urljoin' sp base_url' = Return d.
Proof. intros H. apply social_loop_absolute. exact H. Qed.

End SocialLinks.

End ExtractorSpec.

(* ================================================================== *)
(** * Properties of the opening-hours strategy *)
(* ================================================================== *)

Module HoursSpec.

Import PyStr PyDict Re Soup PyExn Utils Scraper ReFacts.
Local Open Scope N_scope.

(** ** Lines *)






Section Hours.

Variable U : unicode_db.









End Hours.

End HoursSpec.

(* ================================================================== *)
(** * Properties of the orchestrator *)
(* ================================================================== *)

Module OrchestratorSpec.

Import PyStr PyDict Re Soup PyExn Utils Scraper Design Website ExtractorSpec.
Local Open Scope N_scope.

Section Facts.

Variable U : unicode_db.
Variable urljoin : str -> str -> result str.
Context {PS : PySet}.
Variable html_parser : str -> result soup.

(** X13: [scrape_website] returns a result only when it is called
    with [extract_colors] and [extract_logo] both false, and the design
    dictionary it then returns has the key [fonts] or no key at all;
    every exception that leaves it is a plain [Exception] whose text
    starts with [Failed to fetch website: ] or with
    [Error during scraping: ]. *)
Theorem scrape_outcome (get : result response) (url : str) (fields : list str)
    (extract_colors extract_logo extract_fonts : bool) :
  match scrape_website U urljoin html_parser get url fields
                       extract_colors extract_logo extract_fonts with
  | Return (data, design) =>
      extract_colors = false /\ extract_logo = false
      /\ keys design = (if extract_fonts then [u "fonts"] else [])
  | Raise e =>
      exists cause,
        e = Exception_ (u "Failed to fetch website: " ++ cause)
        \/ e = Exception_ (u "Error during scraping: " ++ cause)
  end.
Proof.
  unfold scrape_website, scrape_body.
  assert (Hwrap : forall e : exn,
    match match e with
          | RequestException m =>
              @Raise (dict value * dict dvalue)
                     (Exception_ (u "Failed to fetch website: " ++ m))
          | _ => Raise (Exception_ (u "Error during scraping: " ++ str_of e))
          end with
    | Return (data, design) =>
        extract_colors = false /\ extract_logo = false
        /\ keys design = (if extract_fonts then [u "fonts"] else [])
    | Raise e' =>
        exists cause,
          e' = Exception_ (u "Failed to fetch website: " ++ cause)
          \/ e' = Exception_ (u "Error during scraping: " ++ cause)
    end).
  { intros [m|m|m|m|m]; exists m;
      [left; reflexivity | right; reflexivity ..]. }
  destruct get as [resp|e]; [|apply Hwrap].
  destruct (raise_for_status resp) as [[]|e]; [|apply Hwrap].
  destruct (html_parser (text resp)) as [sp|e]; [|apply Hwrap].
  destruct (extract_all U urljoin sp fields url []) as [data|e]; [|apply Hwrap].
  destruct extract_colors; [apply (Hwrap (NameError _))|].
  destruct extract_logo; [apply (Hwrap (TypeError _))|].
  destruct extract_fonts; repeat split; reflexivity.
Qed.

(** ** When the scrape returns *)

Lemma extract_field_returns (sp : soup) (field_name base_url : str) :
  (field_name = F_SOCIAL -> forallb needs_no_join (link_hrefs sp) = true) ->
  exists v, extract_field U urljoin sp field_name base_url = Return v.
Proof.
  intros Hsocial. unfold extract_field.
  repeat match goal with
         | |- context [if ?c then _ else _] =>
             lazymatch c with
             | str_eqb field_name F_SOCIAL => fail
             | _ => destruct c; [eexists; reflexivity|]
             end
         end.
  destruct (str_eqb field_name F_SOCIAL) eqn:E.
  - apply str_eqb_eq in E.
    destruct (@social_loop_absolute urljoin base_url (link_hrefs sp) []
                (Hsocial E)) as [d [Hd _]].
    unfold extract_social. rewrite Hd. eexists. reflexivity.
  - repeat match goal with
           | |- context [if ?c then _ else _] =>
               destruct c; [eexists; reflexivity|]
           end.
    eexists. reflexivity.
Qed.

Lemma extract_all_returns (sp : soup) (url : str) :
  forall fields d0,
    (In F_SOCIAL fields -> forallb needs_no_join (link_hrefs sp) = true) ->
    exists d, extract_all U urljoin sp fields url d0 = Return d.
Proof.
  induction fields as [|field rest IH]; intros d0 Hsocial.
  - exists d0. reflexivity.
  - cbn [extract_all].
    destruct (@extract_field_returns sp field url) as [v ->].
    + intros ->. apply Hsocial. left. reflexivity.
    + apply IH. intros H. apply Hsocial. right. exact H.
Qed.

(** X14: called with [extract_colors] and [extract_logo] false,
    [scrape_website] returns a result whenever the page was fetched with
    a status outside 400 to 599 and parsed, provided the social-links
    field is not requested or every link of the page to a platform
    carries an absolute address.  The design dictionary holds the fonts
    of the page if [extract_fonts] is set, and nothing otherwise. *)
Theorem scrape_returns (resp : response) (sp : soup) (url : str)
    (fields : list str) (extract_fonts : bool) :
  raise_for_status resp = Return tt ->
  html_parser (text resp) = Return sp ->
  (In F_SOCIAL fields -> forallb needs_no_join (link_hrefs sp) = true) ->
  exists data,
    scrape_website U urljoin html_parser (Return resp) url fields
                   false false extract_fonts
    = Return (data,
              if extract_fonts
              then [(u "fonts", DList (identify_fonts sp (text resp)))]
              else []).
Proof.
  intros Hstatus Hparse Hsocial. unfold scrape_website, scrape_body.
  rewrite Hstatus, Hparse.
  destruct (@extract_all_returns sp url fields [] Hsocial) as [data ->].
  exists data. destruct extract_fonts; reflexivity.
Qed.

End Facts.

End OrchestratorSpec.

(* ================================================================== *)
(** * Properties of the palette *)
(* ================================================================== *)

Module PaletteSpec.

Import PyStr PyDict Re Soup PyExn PySort Design DesignSpec ReFacts DesignScan.
Local Open Scope N_scope.

(** ** The texts of colours *)

(** A number sign followed by hexadecimal digits: three, or at least
    six. *)
Definition hex_shape (color : str) : bool :=
  match color with
  | [] => false
  | c :: ds =>
      (c =? 35) && forallb is_hex ds
      && (Nat.eqb (List.length ds) 3 || Nat.leb 6 (List.length ds))
  end.

Lemma is_hex_iff (c : char) :
  is_hex c = true <->
  (48 <= c <= 57) \/ (97 <= c <= 102) \/ (65 <= c <= 70).
Proof.
  unfold is_hex, in_range.
  rewrite !orb_true_iff, !andb_true_iff, !N.leb_le. tauto.
Qed.

Lemma is_hex_lower1 (c : char) : is_hex c = true -> is_hex (lower1 c) = true.
Proof.
  intros H. apply is_hex_iff in H. apply is_hex_iff. unfold lower1.
  destruct ((65 <=? c) && (c <=? 90)) eqn:E.
  - apply andb_true_iff in E. destruct E as [E1 E2].
    apply N.leb_le in E1, E2. lia.
  - exact H.
Qed.

Lemma hex_shape_lower (color : str) :
  hex_shape color = true -> hex_shape (lower color) = true.
Proof.
  destruct color as [|c ds]; [discriminate|]. cbn [hex_shape lower map].
  intros H. apply andb_true_iff in H. destruct H as [H Hlen].
  apply andb_true_iff in H. destruct H as [Hc Hds].
  apply N.eqb_eq in Hc. subst c.
  change (lower1 35) with 35. rewrite N.eqb_refl, length_map, Hlen.
  rewrite andb_true_r. cbn [andb].
  rewrite forallb_forall in *. intros x Hx. apply in_map_iff in Hx.
  destruct Hx as [y [<- Hy]]. apply is_hex_lower1. apply Hds. exact Hy.
Qed.

Lemma hex_value_some (c : char) :
  is_hex c = true -> exists v, hex_value c = Some v.
Proof.
  unfold is_hex, hex_value. intros H.
  destruct (in_range 48 57 c); [eexists; reflexivity|].
  destruct (in_range 97 102 c); [eexists; reflexivity|].
  destruct (in_range 65 70 c); [eexists; reflexivity|discriminate].
Qed.

Lemma int16_pair (a b : char) :
  is_hex a = true -> is_hex b = true -> exists v, int16 [a; b] = Some v.
Proof.
  intros Ha Hb. destruct (hex_value_some _ Ha) as [x Hx].
  destruct (hex_value_some _ Hb) as [y Hy].
  unfold int16. cbn [int16_go]. rewrite Hx, Hy. eexists. reflexivity.
Qed.

(** The ranking can read every text of that shape. *)
Lemma hex_shape_is_color (color : str) :
  hex_shape color = true -> is_color color = true.
Proof.
  destruct color as [|c ds]; [discriminate|]. cbn [hex_shape].
  intros H. apply andb_true_iff in H. destruct H as [H Hlen].
  apply andb_true_iff in H. destruct H as [_ Hds].
  unfold is_color, channels.
  apply orb_true_iff in Hlen. destruct Hlen as [Hlen|Hlen].
  - apply Nat.eqb_eq in Hlen.
    destruct ds as [|d1 [|d2 [|d3 [|d4 ds]]]]; try discriminate Hlen.
    cbn [forallb] in Hds.
    apply andb_true_iff in Hds. destruct Hds as [H1 Hds].
    apply andb_true_iff in Hds. destruct Hds as [H2 Hds].
    apply andb_true_iff in Hds. destruct Hds as [H3 _].
    cbn [List.length Nat.eqb substr skipn firstn Nat.sub app].
    destruct (int16_pair _ _ H1 H1) as [v1 ->].
    destruct (int16_pair _ _ H2 H2) as [v2 ->].
    destruct (int16_pair _ _ H3 H3) as [v3 ->]. reflexivity.
  - apply Nat.leb_le in Hlen.
    destruct ds as [|d1 [|d2 [|d3 [|d4 [|d5 [|d6 ds]]]]]];
      try (simpl in Hlen; lia).
    cbn [forallb] in Hds.
    apply andb_true_iff in Hds. destruct Hds as [H1 Hds].
    apply andb_true_iff in Hds. destruct Hds as [H2 Hds].
    apply andb_true_iff in Hds. destruct Hds as [H3 Hds].
    apply andb_true_iff in Hds. destruct Hds as [H4 Hds].
    apply andb_true_iff in Hds. destruct Hds as [H5 Hds].
    apply andb_true_iff in Hds. destruct Hds as [H6 _].
    cbn [List.length Nat.eqb substr skipn firstn Nat.sub app].
    destruct (int16_pair _ _ H1 H2) as [v1 ->].
    destruct (int16_pair _ _ H3 H4) as [v2 ->].
    destruct (int16_pair _ _ H5 H6) as [v3 ->]. reflexivity.
Qed.

(** ** What the patterns find *)

Lemma reads_hex_color (left t rest : str) :
  reads hex_color left t rest -> hex_shape t = true.
Proof.
  unfold hex_color. change (Lit (u "#")) with (Chr (is_char 35)).
  cbn [seq reads].
  intros [t1 [t2 [-> [[c [-> Hc]] H]]]].
  destruct H as [a [b [-> [[Ha [Hlo Hhi]] Hb]]]].
  apply N.eqb_eq in Hc. subst c.
  cbn [app hex_shape]. rewrite N.eqb_refl. cbn [andb].
  rewrite forallb_app, length_app, Ha. cbn [andb].
  destruct Hb as [[Hb [Hlo' Hhi']]| ->].
  - rewrite Hb. cbn [andb]. apply orb_true_iff. right. apply Nat.leb_le. lia.
  - cbn [forallb List.length]. apply orb_true_iff. left. apply Nat.eqb_eq. lia.
Qed.

Lemma findall_hex_shape (s c : str) :
  In c (findall hex_color s) -> hex_shape c = true.
Proof.
  intros H. apply findall_sound in H. destruct H as [pre [rest [_ Hr]]].
  eapply reads_hex_color; exact Hr.
Qed.

Lemma fallback_hex_shape (html_content c : str) :
  In c (fallback_colors html_content) -> hex_shape c = true.
Proof.
  unfold fallback_colors. intros H.
  apply in_flat_map in H. destruct H as [name [_ H]].
  apply in_flat_map in H. destruct H as [prop [_ H]].
  destruct (re_search hex_color prop) as [h|] eqn:E; [|destruct H].
  destruct H as [<-|[]]. apply hex_shape_lower.
  unfold re_search in E. apply search_from_sound in E.
  destruct E as [pre [rest [_ Hr]]]. eapply reads_hex_color; exact Hr.
Qed.

(** ** What the format writes *)

Lemma hex_digit_is_hex (d : N) : d < 16 -> is_hex (hex_digit d) = true.
Proof.
  intros H. apply is_hex_iff. unfold hex_digit.
  destruct (d <? 10) eqn:E; [apply N.ltb_lt in E|apply N.ltb_ge in E]; lia.
Qed.

Lemma hex_digit_lower (d : N) : d < 16 -> lower1 (hex_digit d) = hex_digit d.
Proof.
  intros H. unfold lower1, hex_digit.
  destruct (d <? 10) eqn:E; [apply N.ltb_lt in E|apply N.ltb_ge in E].
  - assert (H1 : ((65 <=? 48 + d) && (48 + d <=? 90)) = false).
    { apply andb_false_iff. left. apply N.leb_gt. lia. }
    rewrite H1. reflexivity.
  - assert (H1 : ((65 <=? 87 + d) && (87 + d <=? 90)) = false).
    { apply andb_false_iff. right. apply N.leb_gt. lia. }
    rewrite H1. reflexivity.
Qed.

(** A lower-case hexadecimal digit. *)
Definition is_lower_hex (c : char) : bool :=
  is_hex c && (lower1 c =? c).

Lemma hex_go_digits :
  forall fuel n acc,
    forallb is_lower_hex acc = true ->
    forallb is_lower_hex (hex_go fuel n acc) = true.
Proof.
  induction fuel as [|fuel IH]; intros n acc H; cbn [hex_go]; [exact H|].
  destruct (n =? 0); [exact H|]. apply IH. cbn [forallb]. rewrite H.
  rewrite andb_true_r. unfold is_lower_hex.
  assert (Hd : n mod 16 < 16) by (apply N.mod_lt; discriminate).
  rewrite (hex_digit_is_hex Hd), (hex_digit_lower Hd), N.eqb_refl. reflexivity.
Qed.

Lemma hex_go_length :
  forall fuel n acc,
    (List.length acc <= List.length (hex_go fuel n acc))%nat.
Proof.
  induction fuel as [|fuel IH]; intros n acc; cbn [hex_go]; [lia|].
  destruct (n =? 0); [lia|].
  eapply Nat.le_trans; [|apply IH]. simpl. lia.
Qed.

Lemma format_02x_digits (n : N) :
  forallb is_lower_hex (format_02x n) = true
  /\ (2 <= List.length (format_02x n))%nat.
Proof.
  assert (Hhex : forallb is_lower_hex (hex n) = true
                 /\ (1 <= List.length (hex n))%nat).
  { unfold hex. destruct n as [|p]; [split; [reflexivity|simpl; lia]|].
    split; [apply hex_go_digits; reflexivity|].
    destruct (N.to_nat (N.size (N.pos p))) as [|fuel] eqn:Ef.
    - destruct p; simpl in Ef; lia.
    - cbn [hex_go]. change (N.pos p =? 0) with false. cbv iota.
      eapply Nat.le_trans; [|apply hex_go_length]. simpl. lia. }
  destruct Hhex as [Hd Hl]. unfold format_02x.
  destruct (hex n) as [|d [|d' ds]].
  - simpl in Hl. lia.
  - split; [|simpl; lia]. cbn [forallb] in *. rewrite Hd. reflexivity.
  - split; [exact Hd | simpl; lia].
Qed.

Lemma lower_hex_text (s : str) :
  forallb is_lower_hex s = true -> forallb is_hex s = true /\ lower s = s.
Proof.
  induction s as [|c s IH]; intros H; [split; reflexivity|].
  cbn [forallb] in H. apply andb_true_iff in H. destruct H as [Hc H].
  unfold is_lower_hex in Hc. apply andb_true_iff in Hc.
  destruct Hc as [Hx Hl]. apply N.eqb_eq in Hl.
  destruct (IH H) as [H1 H2]. split.
  - cbn [forallb]. rewrite Hx, H1. reflexivity.
  - cbn [lower map]. rewrite Hl. f_equal. exact H2.
Qed.

Lemma rgb_hex_shape (r g b : N) :
  hex_shape (rgb_hex r g b) = true /\ lower (rgb_hex r g b) = rgb_hex r g b.
Proof.
  unfold rgb_hex. change (u "#") with [35].
  destruct (format_02x_digits r) as [Hr Hrl].
  destruct (format_02x_digits g) as [Hg Hgl].
  destruct (format_02x_digits b) as [Hb Hbl].
  assert (Hall : forallb is_lower_hex (format_02x r ++ format_02x g ++ format_02x b)
                 = true).
  { rewrite !forallb_app, Hr, Hg, Hb. reflexivity. }
  apply lower_hex_text in Hall. destruct Hall as [Hx Hl].
  split.
  - cbn [app hex_shape]. rewrite N.eqb_refl, Hx. cbn [andb].
    apply orb_true_iff. right. apply Nat.leb_le. rewrite !length_app. lia.
  - cbn [app lower map]. change (lower1 35) with 35. f_equal. exact Hl.
Qed.


(** ** The scan appends texts of colours only *)

Definition well_formed (colors : list str) : Prop :=
  Forall (fun c => hex_shape c = true) colors.

Section ScanFacts.

Variable U : unicode_db.
Variable int : str -> result N.
Variable css_values : str -> list str * option exn.

Lemma rgb_loop_shape :
  forall hs, well_formed (fst (rgb_loop int hs)).
Proof.
  induction hs as [|h hs IH]; cbn [rgb_loop]; [constructor|].
  destruct (int (group 1 h)) as [r|e]; [|constructor].
  destruct (int (group 2 h)) as [g|e]; [|constructor].
  destruct (int (group 3 h)) as [b|e]; [|constructor].
  destruct (rgb_loop int hs) as [colors e]. cbn [fst] in *.
  constructor; [apply rgb_hex_shape | exact IH].
Qed.

Lemma style_colors_shape (style_content : str) :
  well_formed (fst (style_colors U int style_content)).
Proof.
  unfold style_colors.
  pose proof (rgb_loop_shape (hits (scan (rgb_color U) 0 [] style_content)))
    as H.
  destruct (rgb_loop int (hits (scan (rgb_color U) 0 [] style_content)))
    as [colors e].
  cbn [fst] in *. apply Forall_app. split; [|exact H].
  apply Forall_forall. intros c Hc. eapply findall_hex_shape. exact Hc.
Qed.

Lemma scan_each_shape (f : str -> scanned) :
  (forall c, well_formed (fst (f c))) ->
  forall contents, well_formed (fst (scan_each f contents)).
Proof.
  intros Hf. induction contents as [|c rest IH]; cbn [scan_each];
    [constructor|].
  pose proof (Hf c) as Hc. destruct (f c) as [colors [e|]]; [exact Hc|].
  destruct (scan_each f rest) as [colors' e]. cbn [fst] in *.
  apply Forall_app. split; assumption.
Qed.

Lemma sheet_colors_shape (style_content : str) :
  well_formed (fst (sheet_colors U int css_values style_content)).
Proof.
  unfold sheet_colors. destruct (css_values style_content) as [values e].
  pose proof (scan_each_shape _ (style_colors_shape) values) as H.
  destruct (scan_each (style_colors U int) values) as [colors [e'|]];
    exact H.
Qed.

Lemma scan_colors_shape (sp : soup) :
  well_formed (scan_colors U int css_values sp).
Proof.
  unfold scan_colors.
  match goal with
  | |- context [scan_each (sheet_colors U int css_values) ?l] =>
      pose proof (scan_each_shape _ sheet_colors_shape l) as H1;
      destruct (scan_each (sheet_colors U int css_values) l) as [colors [e|]]
  end; [exact H1|].
  apply Forall_app. split; [exact H1|].
  apply scan_each_shape. apply style_colors_shape.
Qed.

End ScanFacts.

(** ** The palette of well-formed colours *)

Lemma lower1_idem (c : char) : lower1 (lower1 c) = lower1 c.
Proof.
  unfold lower1. destruct ((65 <=? c) && (c <=? 90)) eqn:E; [|rewrite E; reflexivity].
  apply andb_true_iff in E. destruct E as [E1 E2]. apply N.leb_le in E1, E2.
  assert (H : ((65 <=? c + 32) && (c + 32 <=? 90)) = false).
  { apply andb_false_iff. right. apply N.leb_gt. lia. }
  rewrite H. reflexivity.
Qed.

Lemma lower_idem (s : str) : lower (lower s) = lower s.
Proof.
  unfold lower. rewrite map_map. apply map_ext. apply lower1_idem.
Qed.

(** A text of a colour in lower case. *)
Definition palette_entry (c : str) : Prop :=
  hex_shape c = true /\ lower c = c.

Section PaletteFacts.

Context {PS : PySet}.
Variable F : Type.
Variable lt : F -> F -> bool.
Variable ratio : Z -> F.
Variable rgb_to_hsv : F -> F -> F -> F * F * F.

Lemma ranking_returns (colors : list str) :
  Forall (fun c => is_color c = true) colors ->
  exists out,
    sort_colors_by_distinctiveness lt ratio rgb_to_hsv colors = Return out.
Proof.
  intros H. destruct (to_hsv_spec ratio rgb_to_hsv H) as [l [Hl _]].
  unfold sort_colors_by_distinctiveness. rewrite Hl.
  destruct (sort_by lt (@hue F) l) as [|x rest]; [eexists; reflexivity|].
  destruct (Nat.ltb 1 (List.length (x :: rest))); eexists; reflexivity.
Qed.


(** The colours among which the palette is chosen: the list
    [filtered_colors] when line 94 is reached. *)
Definition candidates (colors : list str) (html_content : str) : list str :=
  let filtered_colors := surviving PS colors in
  if Nat.ltb (List.length filtered_colors) 2
  then filtered_colors ++ fallback_colors html_content
  else filtered_colors.

Lemma candidates_entries (colors : list str) (html_content : str) :
  well_formed colors -> Forall palette_entry (candidates colors html_content).
Proof.
  intros Hw.
  assert (Hs : Forall palette_entry (surviving PS colors)).
  { apply Forall_forall. intros c Hc. unfold surviving in Hc.
    apply filter_In in Hc. destruct Hc as [Hc _].
    apply (proj1 (list_of_set_In _ _)) in Hc.
    apply in_map_iff in Hc. destruct Hc as [c' [<- Hc']].
    unfold well_formed in Hw. rewrite Forall_forall in Hw.
    split; [apply hex_shape_lower; apply Hw; exact Hc' | apply lower_idem]. }
  assert (Hf : Forall palette_entry (fallback_colors html_content)).
  { apply Forall_forall. intros c Hc. split.
    - eapply fallback_hex_shape. exact Hc.
    - unfold fallback_colors in Hc.
      apply in_flat_map in Hc. destruct Hc as [name [_ Hc]].
      apply in_flat_map in Hc. destruct Hc as [prop [_ Hc]].
      destruct (re_search hex_color prop) as [h|]; [|destruct Hc].
      destruct Hc as [<-|[]]. apply lower_idem. }
  unfold candidates.
  destruct (Nat.ltb (List.length (surviving PS colors)) 2); [|exact Hs].
  apply Forall_app. split; assumption.
Qed.

Lemma extract_colors_candidates (colors : list str) (html_content : str)
    (max_colors : Z) (palette : list str) :
  extract_colors lt ratio rgb_to_hsv colors html_content max_colors
  = Return palette ->
  forall c, In c palette -> In c (candidates colors html_content).
Proof.
  unfold extract_colors. fold (surviving PS colors).
  fold (candidates colors html_content).
  destruct (Nat.ltb 1 (List.length (candidates colors html_content))).
  - destruct (sort_colors_by_distinctiveness lt ratio rgb_to_hsv
                (candidates colors html_content)) as [sorted|e] eqn:E;
      [|discriminate].
    intros H c Hc. injection H as <-. apply slice_to_In in Hc.
    apply ranking_permutation in E.
    eapply Permutation_in; [apply Permutation_sym; exact E | exact Hc].
  - intros H c Hc. injection H as <-. apply slice_to_In in Hc. exact Hc.
Qed.

Lemma extract_colors_returns (colors : list str) (html_content : str)
    (max_colors : Z) :
  well_formed colors ->
  exists palette,
    extract_colors lt ratio rgb_to_hsv colors html_content max_colors
    = Return palette
    /\ Forall palette_entry palette.
Proof.
  intros Hw. pose proof (candidates_entries html_content Hw) as Hc.
  assert (Hret : exists palette,
             extract_colors lt ratio rgb_to_hsv colors html_content max_colors
             = Return palette).
  { unfold extract_colors. fold (surviving PS colors).
    fold (candidates colors html_content).
    destruct (Nat.ltb 1 (List.length (candidates colors html_content)));
      [|eexists; reflexivity].
    destruct (@ranking_returns (candidates colors html_content)) as [out ->];
      [|eexists; reflexivity].
    eapply Forall_impl; [|exact Hc].
    intros c [Hshape _]. apply hex_shape_is_color. exact Hshape. }
  destruct Hret as [palette Hp]. exists palette. split; [exact Hp|].
  apply Forall_forall. intros c Hin.
  rewrite Forall_forall in Hc. apply Hc.
  eapply extract_colors_candidates; eassumption.
Qed.


(** X16: a colour of the palette is the lower-case form of a
    scanned colour that is not one of the excluded colours, or one of
    the colours of the custom-property fallback, which can only be when
    fewer than two scanned colours survive. *)
Theorem palette_sources (colors : list str) (html_content : str)
    (max_colors : Z) (palette : list str) :
  extract_colors lt ratio rgb_to_hsv colors html_content max_colors
  = Return palette ->
  forall c,
    In c palette ->
    (exists c0, In c0 colors /\ lower c0 = c /\ mem c excluded_colors = false)
    \/ (In c (fallback_colors html_content)
        /\ (List.length (surviving PS colors) < 2)%nat).
Proof.
  intros Hrun c Hc.
  pose proof (extract_colors_candidates _ _ _ Hrun c Hc) as Hin.
  assert (Hs : In c (surviving PS colors) ->
               exists c0, In c0 colors /\ lower c0 = c
                          /\ mem c excluded_colors = false).
  { unfold surviving. intros H. apply filter_In in H. destruct H as [H Hx].
    apply (proj1 (list_of_set_In _ _)) in H. apply in_map_iff in H.
    destruct H as [c0 [Hl Hc0]]. exists c0. repeat split; auto.
    apply negb_true_iff. exact Hx. }
  unfold candidates in Hin.
  destruct (Nat.ltb (List.length (surviving PS colors)) 2) eqn:E.
  - apply in_app_or in Hin. destruct Hin as [Hin|Hin]; [left; auto|].
    right. split; [exact Hin|]. apply Nat.ltb_lt. exact E.
  - left. auto.
Qed.

Section PageFacts.

Variable U : unicode_db.
Variable int : str -> result N.
Variable css_values : str -> list str * option exn.

(** X17: [extract_colors] returns a palette for every page and
    raises nothing, whatever cssutils makes of the style elements and
    whether or not a conversion by [int] fails: every text the scan
    appends is a match of the hex pattern or a formatted triple, which
    the ranking can read.  Every colour of the palette is a number sign
    followed by three or at least six hexadecimal digits, in lower
    case. *)
Theorem extract_page_colors_total (sp : soup) (html_content : str)
    (max_colors : Z) :
  exists palette,
    extract_page_colors U int css_values lt ratio rgb_to_hsv
                        sp html_content max_colors
    = Return palette
    /\ Forall palette_entry palette.
Proof.
  unfold extract_page_colors. apply extract_colors_returns.
  apply scan_colors_shape.
Qed.

End PageFacts.

End PaletteFacts.

(** ** Writing a triple and reading it back *)

Definition byte_ok (n : N) : bool :=
  match format_02x n with
  | [a; b] =>
      match int16 [a; b] with
      | Some v => Z.eqb v (Z.of_N n)
      | None => false
      end
  | _ => false
  end.

Lemma bytes_ok : forallb byte_ok (map N.of_nat (List.seq 0 256)) = true.
Proof. vm_compute. reflexivity. Qed.

Lemma format_02x_byte (n : N) :
  n < 256 ->
  exists a b, format_02x n = [a; b] /\ int16 [a; b] = Some (Z.of_N n).
Proof.
  intros Hn.
  assert (Hin : In n (map N.of_nat (List.seq 0 256))).
  { apply in_map_iff. exists (N.to_nat n). split; [apply N2Nat.id|].
    apply in_seq. lia. }
  pose proof bytes_ok as H. rewrite forallb_forall in H.
  specialize (H n Hin). unfold byte_ok in H.
  destruct (format_02x n) as [|a [|b [|c l]]]; try discriminate.
  exists a, b. split; [reflexivity|].
  destruct (int16 [a; b]) as [v|]; [|discriminate].
  apply Z.eqb_eq in H. subst v. reflexivity.
Qed.

(** X18: a colour written [rgb(r, g, b)] with channels up to 255
    is appended as a text that the ranking reads back as the same three
    channels. *)
Theorem rgb_hex_channels (r g b : N) :
  r < 256 -> g < 256 -> b < 256 ->
  channels (rgb_hex r g b) = Some (Z.of_N r, Z.of_N g, Z.of_N b).
Proof.
  intros Hr Hg Hb. unfold rgb_hex. change (u "#") with [35].
  destruct (format_02x_byte Hr) as [r1 [r2 [-> Hvr]]].
  destruct (format_02x_byte Hg) as [g1 [g2 [-> Hvg]]].
  destruct (format_02x_byte Hb) as [b1 [b2 [-> Hvb]]].
  unfold channels.
  cbn [app List.length Nat.eqb substr skipn firstn Nat.sub].
  rewrite Hvr, Hvg, Hvb. reflexivity.
Qed.

End PaletteSpec.

(* ================================================================== *)
(** * Properties of the fonts *)
(* ================================================================== *)

Module FontSpec.

Import PyStr PyDict Re Soup PyExn PySort Design DesignSpec ReFacts.
Local Open Scope N_scope.

(** ** [strip] *)

(** The text does not start with white space. *)
Definition no_lead (s : str) : Prop :=
  match s with
  | [] => True
  | c :: _ => is_space c = false
  end.

Lemma lstrip_no_lead (s : str) : no_lead (lstrip s).
Proof.
  induction s as [|c s IH]; cbn [lstrip]; [exact I|].
  destruct (is_space c) eqn:E; [exact IH | exact E].
Qed.

Lemma lstrip_fixed (s : str) : no_lead s -> lstrip s = s.
Proof.
  destruct s as [|c s]; [reflexivity|]. cbn [no_lead lstrip].
  intros ->. reflexivity.
Qed.

Lemma lstrip_snoc (c : char) :
  is_space c = false -> forall l, lstrip (l ++ [c]) = lstrip l ++ [c].
Proof.
  intros Hc. induction l as [|a l IH]; cbn [lstrip app].
  - rewrite Hc. reflexivity.
  - destruct (is_space a); [exact IH | reflexivity].
Qed.

Lemma rstrip_no_lead (s : str) : no_lead s -> no_lead (rstrip s).
Proof.
  destruct s as [|c s]; [intros _; exact I|]. cbn [no_lead]. intros Hc.
  unfold rstrip. cbn [rev]. rewrite (lstrip_snoc c Hc).
  rewrite rev_app_distr. cbn [rev app]. exact Hc.
Qed.

Lemma rstrip_idem (s : str) : rstrip (rstrip s) = rstrip s.
Proof.
  unfold rstrip. rewrite rev_involutive.
  rewrite (lstrip_fixed _ (lstrip_no_lead (rev s))). reflexivity.
Qed.

Lemma strip_idem (s : str) : strip (strip s) = strip s.
Proof.
  unfold strip.
  rewrite (lstrip_fixed _ (rstrip_no_lead _ (lstrip_no_lead s))).
  apply rstrip_idem.
Qed.

(** ** The names that [identify_fonts] keeps *)

(** X19: [identify_fonts] returns exactly the names collected from
    the page, stripped of white space at both ends, that are neither
    empty nor, in lower case, a generic family; none is lost, none is
    added, and every name returned is free of white space at both
    ends. *)
Theorem identify_fonts_members (PS : PySet) (sp : soup) (html_content : str) :
  (forall f,
     In f (identify_fonts sp html_content) <->
     (exists g, In g (collect_fonts sp html_content) /\ strip g = f)
     /\ f <> [] /\ mem (lower f) generic_families = false)
  /\ (forall f, In f (identify_fonts sp html_content) -> strip f = f).
Proof.
  assert (Hin : forall f,
            In f (identify_fonts sp html_content) <->
            In f (normalize_fonts (collect_fonts sp html_content))).
  { intros f. unfold identify_fonts. rewrite sort_by_In.
    apply list_of_set_In. }
  assert (Hn : forall f,
            In f (normalize_fonts (collect_fonts sp html_content)) <->
            (exists g, In g (collect_fonts sp html_content) /\ strip g = f)
            /\ f <> [] /\ mem (lower f) generic_families = false).
  { intros f. unfold normalize_fonts. rewrite filter_In, in_map_iff.
    rewrite andb_true_iff, negb_true_iff.
    split.
    - intros [[g [Hg Hing]] [Ht Hm]].
      split; [exists g; auto|]. split; [|exact Hm].
      intros ->. discriminate Ht.
    - intros [[g [Hing Hg]] [Hne Hm]].
      split; [exists g; auto|]. split; [|exact Hm].
      destruct f; [congruence|reflexivity]. }
  split.
  - intros f. rewrite Hin. apply Hn.
  - intros f Hf. apply Hin in Hf. apply Hn in Hf.
    destruct Hf as [[g [_ <-]] _]. apply strip_idem.
Qed.

(** ** The weight specification of a Google-Fonts entry *)

Definition is_colon (c : char) : bool := c =? 58.
Definition is_comma (c : char) : bool := c =? 44.

Lemma rep_k_greedy (A : Type) (p : char -> bool) :
  forall a lo left b (k : str -> str -> option A) x,
    forallb p a = true -> (lo <= List.length a)%nat ->
    match b with [] => True | c :: _ => p c = false end ->
    k (rev a ++ left) b = Some x ->
    rep_k p lo None left (a ++ b) k = Some x.
Proof.
  induction a as [|c a IH]; intros lo left b k x Hp Hlo Hb Hk.
  - simpl in Hlo. assert (lo = 0%nat) by lia. subst lo. simpl in Hk.
    destruct b as [|c b]; cbn [app rep_k]; [exact Hk|].
    rewrite Hb. cbn [andb]. exact Hk.
  - cbn [forallb] in Hp. apply andb_true_iff in Hp. destruct Hp as [Hc Hp].
    cbn [app rep_k]. rewrite Hc. cbn [andb option_map].
    rewrite (IH (pred lo) (c :: left) b k x Hp); [reflexivity| | exact Hb|].
    + simpl in Hlo. lia.
    + rewrite <- rev_cons_app. exact Hk.
Qed.

Lemma weight_spec_none (left s : str) :
  match s with [] => True | c :: _ => is_colon c = false end ->
  match_here weight_spec false left s = None.
Proof.
  intros Hs.
  destruct (match_here weight_spec false left s) as [h|] eqn:E; [|reflexivity].
  apply match_here_sound in E. destruct E as [rest [Heq [Hr _]]].
  unfold weight_spec in Hr. change (Lit (u ":")) with (Chr (is_char 58)) in Hr.
  cbn [reads] in Hr. destruct Hr as [t1 [t2 [Ht [[c [-> Hc]] _]]]].
  rewrite Ht in Heq. subst s. cbn [app] in Hs.
  unfold is_char in Hc. apply N.eqb_eq in Hc. subst c. discriminate Hs.
Qed.

Lemma weight_spec_here (left spec rest : str) :
  spec <> [] -> forallb (none_of (u ",")) spec = true ->
  match rest with [] => True | c :: _ => is_comma c = true end ->
  exists h,
    match_here weight_spec false left (58 :: spec ++ rest) = Some h
    /\ hit_text h = 58 :: spec.
Proof.
  intros Hne Hspec Hrest. unfold match_here, weight_spec.
  change (Lit (u ":")) with (Chr (is_char 58)).
  cbn [run ms_rest ms_left ms_caps plus]. change (is_char 58 58) with true.
  cbv iota.
  eexists. split.
  - apply rep_k_greedy; [exact Hspec| | |].
    + destruct spec; [congruence|simpl; lia].
    + destruct rest as [|c rest]; [exact I|].
      unfold is_comma in Hrest. apply N.eqb_eq in Hrest. subst c. reflexivity.
    + cbn [ms_left ms_caps]. rewrite <- rev_cons_app, taken_app. reflexivity.
  - reflexivity.
Qed.

Lemma scan_outside (r : regex) :
  (forall lft s, match s with [] => True | c :: _ => is_colon c = false end ->
                 match_here r false lft s = None) ->
  forall pre lft s,
    forallb (fun c => negb (is_colon c)) pre = true ->
    scan r 0 lft (pre ++ s) = map Out pre ++ scan r 0 (rev pre ++ lft) s.
Proof.
  intros Hnone. induction pre as [|c pre IH]; intros lft s Hpre;
    [reflexivity|].
  cbn [forallb] in Hpre. apply andb_true_iff in Hpre. destruct Hpre as [Hc Hpre].
  apply negb_true_iff in Hc.
  cbn [app scan map]. rewrite (Hnone lft (c :: pre ++ s) Hc).
  rewrite (IH (c :: lft) s Hpre). rewrite rev_cons_app. reflexivity.
Qed.

Lemma scan_skip (r : regex) :
  forall a lft b,
    scan r (List.length a) lft (a ++ b) = scan r 0 (rev a ++ lft) b.
Proof.
  induction a as [|c a IH]; intros lft b; [reflexivity|].
  cbn [List.length app scan]. rewrite IH, rev_cons_app. reflexivity.
Qed.

Lemma sub_out (s : str) :
  flat_map (fun p => match p with In_ _ => [] | Out c => [c] end) (map Out s) = s.
Proof. induction s as [|c s IH]; [reflexivity|]. simpl. f_equal. exact IH. Qed.


(** X20: the removal of the weight specification from an entry of
    a Google-Fonts link deletes the first colon of the entry and what
    follows it up to the first comma, and keeps the comma and the rest:
    [Family:400] gives [Family], and [Family:400,700] gives
    [Family,700]. *)
Theorem weight_spec_up_to_comma (name spec rest : str) :
  forallb (fun c => negb (is_colon c)) name = true ->
  spec <> [] -> forallb (none_of (u ",")) spec = true ->
  match rest with [] => True | c :: _ => is_comma c = true end ->
  forallb (fun c => negb (is_colon c)) rest = true ->
  re_sub weight_spec [] (name ++ u ":" ++ spec ++ rest) = name ++ rest.
Proof.
  intros Hname Hne Hspec Hcomma Hrest. unfold re_sub.
  change (u ":") with [58]. cbn [app].
  destruct (@weight_spec_here (rev name ++ []) spec rest Hne Hspec Hcomma)
    as [h [Hh Ht]].
  assert (Hscan :
    scan weight_spec 0 [] (name ++ 58 :: spec ++ rest)
    = map Out name ++ In_ h :: map Out rest).
  { etransitivity;
      [apply (@scan_outside weight_spec weight_spec_none name []
                            (58 :: spec ++ rest) Hname)|].
    f_equal. cbn [scan]. rewrite Hh, Ht. cbn [List.length]. f_equal.
    etransitivity; [apply scan_skip|].
    etransitivity;
      [apply (f_equal (scan weight_spec 0 _)); symmetry; apply app_nil_r|].
    etransitivity;
      [apply (@scan_outside weight_spec weight_spec_none rest _ [] Hrest)|].
    cbn [scan]. rewrite weight_spec_none by exact I. apply app_nil_r. }
  etransitivity; [apply (f_equal (flat_map _)); exact Hscan|].
  rewrite flat_map_app. cbn [flat_map app]. rewrite !sub_out. reflexivity.
Qed.

End FontSpec.

(* ================================================================== *)
(** * Properties of the logo *)
(* ================================================================== *)

Module LogoSpec.

Import PyStr PyDict Re Soup PyExn Scraper Logo.
Local Open Scope N_scope.

(** ** The nodes of a document *)

Lemma node_induction (P : node -> Prop) :
  (forall s, P (Text s)) -> (forall s, P (Special s)) ->
  (forall name attrs children, Forall P children -> P (Elem name attrs children)) ->
  forall n, P n.
Proof.
  intros HT HS HE. fix IH 1. intros [s|s|name attrs children].
  - apply HT.
  - apply HS.
  - apply HE. induction children as [|c cs IHcs]; constructor.
    + apply IH.
    + exact IHcs.
Qed.

Lemma descendants_trans (top : node) :
  forall n d, In n (descendants top) -> In d (descendants n) ->
              In d (descendants top).
Proof.
  induction top as [s|s|name attrs children IH] using node_induction;
    intros n d Hn Hd; try destruct Hn.
  cbn [descendants] in *. apply in_flat_map in Hn.
  destruct Hn as [c [Hc Hn]]. apply in_flat_map. exists c. split; [exact Hc|].
  right. destruct Hn as [<-|Hn]; [exact Hd|].
  rewrite Forall_forall in IH. exact (IH c Hc n d Hn Hd).
Qed.

Lemma descendants_in_document (sp : soup) (n d : node) :
  In n (nodes_of sp) -> In d (descendants n) -> In d (nodes_of sp).
Proof.
  unfold nodes_of. intros Hn Hd. apply in_flat_map in Hn.
  destruct Hn as [top [Htop Hn]]. apply in_flat_map. exists top.
  split; [exact Htop|]. right.
  destruct Hn as [<-|Hn]; [exact Hd|].
  exact (descendants_trans top n d Hn Hd).
Qed.

Lemma find_first_some (p : node -> bool) (ns : list node) (n : node) :
  find_first p ns = Some n -> In n ns /\ p n = true.
Proof.
  unfold find_first. intros H. apply find_some in H. destruct H as [Hin H].
  apply andb_true_iff in H. split; [exact Hin | exact (proj2 H)].
Qed.

Lemma find_all_In (p : node -> bool) (ns : list node) (n : node) :
  In n (find_all p ns) -> In n ns /\ p n = true.
Proof.
  unfold find_all. intros H. apply filter_In in H. destruct H as [Hin H].
  apply andb_true_iff in H. split; [exact Hin | exact (proj2 H)].
Qed.

Lemma first_some_In (A B : Type) (f : A -> option B) (l : list A) (y : B) :
  first_some f l = Some y -> exists x, In x l /\ f x = Some y.
Proof.
  induction l as [|x l IH]; [discriminate|]. cbn [first_some].
  destruct (f x) as [y'|] eqn:E.
  - intros H. injection H as ->. exists x. split; [left; reflexivity | exact E].
  - intros H. destruct (IH H) as [x' [Hin Hx]]. exists x'.
    split; [right; exact Hin | exact Hx].
Qed.

Lemma is_tag_single (a b : str) (n : node) :
  is_tag [a] n = true -> is_tag [b] n = true -> a = b.
Proof.
  destruct n as [s|s|name attrs children]; try discriminate.
  cbn [is_tag mem existsb]. rewrite !orb_false_r.
  intros Ha Hb. apply str_eqb_eq in Ha, Hb. congruence.
Qed.

Section Facts.

Variable urljoin : str -> str -> result str.
Variable str_of_tag : node -> str.
Variable base_url : str.

(** The address comes from the [src] of an image of the page. *)
Definition from_image (sp : soup) (logo_url : str) : Prop :=
  exists img src,
    In img (nodes_of sp) /\ is_tag [u "img"] img = true
    /\ get (u "src") img = Some src
    /\ urljoin base_url src = Return logo_url.

(** The address is the data URI of an SVG element of the page whose
    class matches [logo]. *)
Definition from_svg (sp : soup) (logo_url : str) : Prop :=
  exists svg bytes,
    In svg (nodes_of sp) /\ is_tag [u "svg"] svg = true
    /\ class_re logo_re svg = true
    /\ utf8_encode (str_of_tag svg) = Return bytes
    /\ logo_url = u "data:image/svg+xml;base64," ++ b64encode bytes.

Lemma src_url_image (sp : soup) (img : option node) (logo_url : str) :
  (forall n, img = Some n -> In n (nodes_of sp) /\ is_tag [u "img"] n = true) ->
  src_url urljoin base_url img = Some (Return (Some logo_url)) ->
  from_image sp logo_url.
Proof.
  intros Himg. unfold src_url. destruct img as [n|]; [|discriminate].
  destruct (Himg n eq_refl) as [Hin Htag].
  destruct (get (u "src") n) as [src|] eqn:Hsrc; [|discriminate].
  destruct (urljoin base_url src) as [url|e] eqn:Hj; [|discriminate].
  intros H. injection H as ->. exists n, src. auto.
Qed.

Lemma first_img_image (sp : soup) (element : node) :
  In element (nodes_of sp) ->
  forall n, first_img element = Some n ->
            In n (nodes_of sp) /\ is_tag [u "img"] n = true.
Proof.
  intros Hin n H. unfold first_img in H. apply find_first_some in H.
  destruct H as [Hd Ht]. split; [|exact Ht].
  exact (descendants_in_document sp element n Hin Hd).
Qed.

Lemma logo_of_source (sp : soup) (sel : selector) (element : node)
    (logo_url : str) :
  In sel logo_selectors -> In element (selected sel sp) ->
  logo_of urljoin str_of_tag base_url sel element = Some (Return (Some logo_url)) ->
  from_image sp logo_url \/ from_svg sp logo_url.
Proof.
  intros Hsel Hel. unfold selected in Hel. apply find_all_In in Hel.
  destruct Hel as [Hin Hp]. apply andb_true_iff in Hp. destruct Hp as [Htag Hattrs].
  unfold logo_of.
  assert (Hchild : forall child_tag, sel_find_child sel = Some child_tag ->
                                     child_tag = u "img").
  { unfold logo_selectors in Hsel. cbn [In] in Hsel.
    repeat (destruct Hsel as [<-|Hsel];
            [cbn [sel_find_child]; intros t Ht;
             first [discriminate Ht | injection Ht as <-; reflexivity]|]).
    destruct Hsel. }
  destruct (sel_find_child sel) as [child_tag|] eqn:Hfc.
  - rewrite (Hchild child_tag eq_refl). intros H. left.
    eapply src_url_image; [|exact H].
    apply (first_img_image sp element Hin).
  - destruct (is_tag [u "img"] element && has_attr (u "src") element) eqn:Himg.
    + intros H. left. eapply src_url_image; [|exact H].
      intros n Hn. injection Hn as <-.
      apply andb_true_iff in Himg. split; [exact Hin | exact (proj1 Himg)].
    + destruct (is_tag [u "svg"] element) eqn:Hsvg; [|discriminate].
      unfold svg_data_uri.
      destruct (utf8_encode (str_of_tag element)) as [bytes|e] eqn:Hb;
        [|discriminate].
      intros H. injection H as <-. right. exists element, bytes.
      repeat split; auto.
      assert (Hs : sel_tag sel = u "svg")
        by (exact (is_tag_single _ _ element Htag Hsvg)).
      unfold logo_selectors in Hsel. cbn [In] in Hsel.
      repeat (destruct Hsel as [<-|Hsel];
              [first [discriminate Hs | discriminate Hfc | exact Hattrs]|]).
      destruct Hsel.
Qed.

(** X21: an address that [extract_logo] returns is the address
    [urljoin] gives for the [src] of an image of the page, or the data
    URI, in base 64, of the markup of an SVG element of the page whose
    class matches [logo]. *)
Theorem extract_logo_source (sp : soup) (logo_url : str) :
  extract_logo urljoin str_of_tag base_url sp = Return (Some logo_url) ->
  from_image sp logo_url \/ from_svg sp logo_url.
Proof.
  unfold extract_logo.
  destruct (first_some
              (fun sel => first_some (logo_of urljoin str_of_tag base_url sel)
                                     (selected sel sp))
              logo_selectors) as [r|] eqn:E1.
  - intros ->. apply first_some_In in E1. destruct E1 as [sel [Hsel E1]].
    apply first_some_In in E1. destruct E1 as [element [Hel E1]].
    eapply logo_of_source; eassumption.
  - clear E1.
    destruct (find_first (fun n => is_tag [u "header"; u "div"] n
                                   && class_re header_re n) (nodes_of sp))
      as [header|] eqn:Eh.
    + apply find_first_some in Eh. destruct Eh as [Hin _].
      destruct (src_url urljoin base_url (first_img header)) as [r|] eqn:E2.
      * intros ->. left. eapply src_url_image; [|exact E2].
        apply (first_img_image sp header Hin).
      * clear E2. destruct (first_some _ _) as [r|] eqn:E3; [|discriminate].
        intros ->. apply first_some_In in E3. destruct E3 as [link [Hl E3]].
        apply find_all_In in Hl. destruct Hl as [Hl _].
        left. eapply src_url_image; [|exact E3].
        apply (first_img_image sp link Hl).
    + destruct (first_some _ _) as [r|] eqn:E3; [|discriminate].
      intros ->. apply first_some_In in E3. destruct E3 as [link [Hl E3]].
      apply find_all_In in Hl. destruct Hl as [Hl _].
      left. eapply src_url_image; [|exact E3].
      apply (first_img_image sp link Hl).
Qed.

(** ** The first rule *)

Lemma first_some_filter (A B : Type) (f : A -> option B) (q h : A -> bool)
    (g : A -> B) :
  (forall x, q x = true -> f x = if h x then Some (g x) else None) ->
  forall l,
    first_some f (filter q l)
    = option_map g (find (fun x => q x && h x) l).
Proof.
  intros Hf. induction l as [|x l IH]; [reflexivity|].
  cbn [filter find]. destruct (q x) eqn:Hq; cbn [andb].
  - cbn [first_some]. rewrite (Hf x Hq). destruct (h x); [reflexivity|exact IH].
  - exact IH.
Qed.

Lemma find_same (A : Type) (f g : A -> bool) (l : list A) :
  (forall x, f x = g x) -> find f l = find g l.
Proof.
  intros H. induction l as [|x l IH]; [reflexivity|].
  cbn [find]. rewrite (H x), IH. reflexivity.
Qed.

(** X22: when some image of the page has a class that matches
    [logo] and a [src], [extract_logo] gives what [urljoin] gives for
    the [src] of the first such image in document order, its exception
    included; no other rule is consulted. *)
Theorem extract_logo_class_first (sp : soup) (img : node) :
  find_first (fun n => (is_tag [u "img"] n && class_re logo_re n)
                       && has_attr (u "src") n) (nodes_of sp) = Some img ->
  extract_logo urljoin str_of_tag base_url sp
  = match urljoin base_url (item (u "src") img) with
    | Return logo_url => Return (Some logo_url)
    | Raise e => Raise e
    end.
Proof.
  intros Hfind. unfold extract_logo, logo_selectors. cbn [first_some].
  set (sel := Selector (u "img") (class_re logo_re) None).
  assert (Hfirst :
    first_some (logo_of urljoin str_of_tag base_url sel) (selected sel sp)
    = Some (match urljoin base_url (item (u "src") img) with
            | Return logo_url => Return (Some logo_url)
            | Raise e => Raise e
            end)).
  { unfold selected, find_all.
    rewrite (@first_some_filter _ _ _ _ (has_attr (u "src"))
               (fun n => match urljoin base_url (item (u "src") n) with
                         | Return logo_url => Return (Some logo_url)
                         | Raise e => Raise e
                         end)).
    - unfold find_first in Hfind.
      erewrite find_same; [rewrite Hfind; reflexivity|].
      intros n. cbn [sel_tag sel_attrs sel].
      first [apply andb_assoc | symmetry; apply andb_assoc].
    - intros n Hq. apply andb_true_iff in Hq. destruct Hq as [_ Hq].
      cbn [sel_tag sel_attrs sel] in Hq. apply andb_true_iff in Hq.
      destruct Hq as [Htag _].
      unfold logo_of. cbn [sel_find_child sel]. rewrite Htag. cbn [andb].
      unfold has_attr, src_url, item.
      destruct (get (u "src") n) as [src|]; [reflexivity|].
      destruct (is_tag [u "svg"] n) eqn:Hsvg; [|reflexivity].
      pose proof (is_tag_single _ _ n Htag Hsvg) as Hne. discriminate Hne. }
  rewrite Hfirst. reflexivity.
Qed.

End Facts.

End LogoSpec.

(* ================================================================== *)
(** * Properties of the texts returned *)
(* ================================================================== *)

Module TrimSpec.

Import PyStr PyDict Re Soup PyExn Utils Scraper FontSpec WebsiteSpec.
Local Open Scope N_scope.

(** A text without white space at either end. *)
Definition trimmed (s : str) : Prop := strip s = s.

Lemma map_strip_trimmed (l : list str) : Forall trimmed (map strip l).
Proof.
  apply Forall_forall. intros s Hs. apply in_map_iff in Hs.
  destruct Hs as [x [<- _]]. apply strip_idem.
Qed.

Lemma filter_Forall (A : Type) (P : A -> Prop) (f : A -> bool) (l : list A) :
  Forall P l -> Forall P (filter f l).
Proof.
  intros H. apply Forall_forall. intros x Hx. apply filter_In in Hx.
  rewrite Forall_forall in H. apply H. exact (proj1 Hx).
Qed.

(** ** The business domain *)

Lemma services_after_trimmed (following : list node) (services : list str) :
  services_after following = Some services -> Forall trimmed services.
Proof.
  unfold services_after.
  destruct (find_first (is_tag [u "ul"; u "div"; u "section"]) following)
    as [next_elem|]; [|discriminate].
  destruct (is_tag [u "ul"] next_elem).
  - pose proof (map_strip_trimmed
                  (map text (find_all (is_tag [u "li"]) (descendants next_elem))))
      as H.
    rewrite map_map in H.
    destruct (map (fun li => strip (text li))
                  (find_all (is_tag [u "li"]) (descendants next_elem)));
      [discriminate|].
    intros E. injection E as <-. exact H.
  - pose proof (filter_Forall (len_between 5 100)
                  (map_strip_trimmed
                     (map text (find_all (is_tag [u "p"; u "h4"; u "h5"; u "span"])
                                         (descendants next_elem))))) as H.
    rewrite map_map in H.
    destruct (filter (len_between 5 100)
                     (map (fun it => strip (text it))
                          (find_all (is_tag [u "p"; u "h4"; u "h5"; u "span"])
                                    (descendants next_elem))));
      [discriminate|].
    intros E. injection E as <-. exact H.
Qed.

Lemma first_services_trimmed (headers : list (node * list node))
    (services : list str) :
  first_some (fun hf => services_after (snd hf)) headers = Some services ->
  Forall trimmed services.
Proof.
  induction headers as [|hf headers IH]; cbn [first_some]; [discriminate|].
  destruct (services_after (snd hf)) as [sv|] eqn:E; [|exact IH].
  intros H. injection H as <-. exact (services_after_trimmed _ E).
Qed.

(** X23: a list that the business-domain strategy returns, from
    the keywords of the page or from the items under a heading, is never
    empty, and none of its items has white space at either end. *)
Theorem extract_domain_items (sp : soup) (items : list str) :
  extract_domain sp = VList items -> items <> [] /\ Forall trimmed items.
Proof.
  unfold extract_domain.
  destruct (meta_content (u "keywords") sp) as [content|].
  - intros H. injection H as <-. split; [|apply map_strip_trimmed].
    unfold split. intros E. apply map_eq_nil in E.
    exact (split_go_not_nil _ _ _ _ E).
  - match goal with
    | |- context [first_some ?f ?hs] =>
        destruct (first_some f hs) as [services|] eqn:E
    end.
    + intros H. injection H as <-. split.
      * exact (first_services_not_nil _ E).
      * exact (first_services_trimmed _ E).
    + destruct (meta_content (u "description") sp); discriminate.
Qed.

(** ** The address *)

(** The content of the address meta tag of the page, when it has one
    that is not empty. *)
Definition meta_address (sp : soup) : option str :=
  match find_first (fun n => is_tag [u "meta"] n
                             && attr_re (u "property") meta_address_re n)
                   (nodes_of sp) with
  | Some m => match get (u "content") m with
              | Some c => if truthy c then Some c else None
              | None => None
              end
  | None => None
  end.



End TrimSpec.

(* ================================================================== *)
(** * Further runs of the model *)
(* ================================================================== *)

Module MoreRuns.

Import PyStr PyDict Re Soup PyExn Utils Scraper Design Website Concrete.
Import DesignSpec DesignRuns ScraperRuns DesignScan Logo.
Import ExtractorSpec OrchestratorSpec PaletteSpec FontSpec LogoSpec TrimSpec.

(** ** The palette of five colours, cut to three *)

Definition three_of_five : list str := [u "#ff0000"; u "#00ff00"; u "#0000ff"].

Lemma five_colors_palette :
  extract_colors PrimFloat.ltb float_ratio float_rgb_to_hsv five_colors [] 3
  = Return three_of_five.
Proof. vm_compute. reflexivity. Defined.

Lemma five_colors_survive : 2 <= List.length (surviving dedup five_colors).
Proof. vm_compute. repeat constructor. Defined.

Lemma palette_without_fallback_sample :
  2 <= List.length (surviving dedup five_colors)
  /\ extract_colors PrimFloat.ltb float_ratio float_rgb_to_hsv five_colors [] 3
     = Return three_of_five
  /\ NoDup three_of_five
  /\ (forall c, In c three_of_five -> mem c excluded_colors = false).
Proof.
  split; [exact five_colors_survive|]. split; [exact five_colors_palette|].
  exact (@extract_colors_without_fallback dedup PrimFloat.float PrimFloat.ltb
           float_ratio float_rgb_to_hsv five_colors [] 3%Z three_of_five
           five_colors_survive five_colors_palette).
Defined.

Lemma palette_length_sample :
  (0 <= 3)%Z
  /\ extract_colors PrimFloat.ltb float_ratio float_rgb_to_hsv five_colors [] 3
     = Return three_of_five
  /\ (Z.of_nat (List.length three_of_five) <= 3)%Z.
Proof.
  split; [lia|]. split; [exact five_colors_palette|].
  apply (@extract_colors_length dedup PrimFloat.float PrimFloat.ltb
           float_ratio float_rgb_to_hsv five_colors [] 3%Z three_of_five).
  - lia.
  - exact five_colors_palette.
Defined.

(** ** The ranking of five colours keeps them *)


(** ** The palette of the white page *)

(** The page as the parser reads it, scanned by an interpreter whose
    [int] and whose cssutils are not called: it has no style element
    and no colour written with [rgb]. *)
Definition white_soup : soup :=
  [Elem (u "div") [(u "style", u "--primary: #fff; --brand: #FFF")]
        [Text (u "x")]].

Example white_page_scanned :
  scan_colors ascii_db (fun _ => Return 0%N) (fun _ => ([], None)) white_soup
  = white_page_scan.
Proof. vm_compute. reflexivity. Qed.

Example white_page_colors :
  extract_page_colors ascii_db (fun _ => Return 0%N) (fun _ => ([], None))
                      PrimFloat.ltb float_ratio float_rgb_to_hsv
                      white_soup white_page 5
  = Return [u "#fff"; u "#fff"].
Proof. vm_compute. reflexivity. Qed.


Lemma white_page_palette :
  extract_colors PrimFloat.ltb float_ratio float_rgb_to_hsv
                 white_page_scan white_page 5
  = Return [u "#fff"; u "#fff"].
Proof. vm_compute. reflexivity. Defined.

Lemma palette_sources_sample :
  extract_colors PrimFloat.ltb float_ratio float_rgb_to_hsv
                 white_page_scan white_page 5
  = Return [u "#fff"; u "#fff"]
  /\ (forall c,
        In c [u "#fff"; u "#fff"] ->
        (exists c0, In c0 white_page_scan /\ lower c0 = c
                    /\ mem c excluded_colors = false)
        \/ (In c (fallback_colors white_page)
            /\ List.length (surviving dedup white_page_scan) < 2)).
Proof.
  split; [exact white_page_palette|].
  exact (@palette_sources dedup PrimFloat.float PrimFloat.ltb float_ratio
           float_rgb_to_hsv white_page_scan white_page 5%Z
           [u "#fff"; u "#fff"] white_page_palette).
Defined.

(** ** An orange, written and read back *)

Lemma rgb_hex_orange :
  (255 < 256)%N /\ (136 < 256)%N /\ (0 < 256)%N
  /\ channels (rgb_hex 255 136 0) = Some (255, 136, 0)%Z.
Proof.
  split; [reflexivity|]. split; [reflexivity|]. split; [reflexivity|].
  apply (@rgb_hex_channels 255 136 0); reflexivity.
Defined.

(** ** An entry with two weights *)

Lemma weight_spec_sample :
  forallb (fun c => negb (is_colon c)) (u "Open+Sans") = true
  /\ u "400" <> []
  /\ forallb (none_of (u ",")) (u "400") = true
  /\ match u ",700" with [] => True | c :: _ => is_comma c = true end
  /\ forallb (fun c => negb (is_colon c)) (u ",700") = true
  /\ re_sub weight_spec [] (u "Open+Sans" ++ u ":" ++ u "400" ++ u ",700")
     = u "Open+Sans" ++ u ",700".
Proof.
  split; [reflexivity|]. split; [discriminate|]. split; [reflexivity|].
  split; [reflexivity|]. split; [reflexivity|].
  apply (@weight_spec_up_to_comma (u "Open+Sans") (u "400") (u ",700")).
  - reflexivity.
  - discriminate.
  - reflexivity.
  - reflexivity.
  - reflexivity.
Defined.

(** ** Links with absolute addresses *)

(** A link to Facebook, a link into the site, and a link to a host
    whose name ends in [x.com]. *)
Definition absolute_page : soup :=
  [Elem (u "div") []
     [Elem (u "a") [(u "href", u "https://facebook.com/acme")] [Text (u "f")];
      Elem (u "a") [(u "href", u "/contact")] [Text (u "c")];
      Elem (u "a") [(u "href", u "https://netflix.com/")] [Text (u "n")]]].

Example absolute_page_links :
  extract_social urljoin absolute_page base
  = Return [(u "facebook", u "https://facebook.com/acme");
            (u "twitter", u "https://netflix.com/")].
Proof. vm_compute. reflexivity. Qed.

Lemma absolute_page_no_join :
  forallb needs_no_join (link_hrefs absolute_page) = true.
Proof. vm_compute. reflexivity. Defined.

Lemma social_absolute_sample :
  forallb needs_no_join (link_hrefs absolute_page) = true
  /\ exists d,
       extract_social urljoin absolute_page base = Return d
       /\ forall urljoin' base_url',
            extract_social urljoin' absolute_page base_url' = Return d.
Proof.
  split; [exact absolute_page_no_join|].
  exact (@extract_social_absolute urljoin absolute_page base
           absolute_page_no_join).
Defined.

(** ** A scrape that returns *)

Definition fetched : response := Response 200 [] (u "page").

(** A parser that reads the page as [absolute_page]. *)
Definition parsed (page : str) : result soup := Return absolute_page.

Lemma scrape_returns_sample :
  raise_for_status fetched = Return tt
  /\ parsed (text fetched) = Return absolute_page
  /\ exists data,
       scrape_website ascii_db urljoin parsed (Return fetched) site
                      business_fields false false true
       = Return (data,
                 [(u "fonts",
                   DList (identify_fonts absolute_page (text fetched)))]).
Proof.
  split; [reflexivity|]. split; [reflexivity|].
  apply (@scrape_returns ascii_db urljoin dedup parsed fetched absolute_page
           site business_fields true).
  - reflexivity.
  - reflexivity.
  - intros _. exact absolute_page_no_join.
Defined.

(** ** Logos *)

(** The markup of an element is not needed for the pages below. *)
Definition no_markup (n : node) : str := [].

(** A page without the word logo: the image of its header is found by
    the rule for the header. *)
Definition header_page : soup :=
  [Elem (u "header") [(u "class", u "site-header")]
     [Elem (u "a") [(u "class", u "brand")]
        [Elem (u "img") [(u "src", u "/img/mark.png"); (u "alt", u "Acme")] []]]].

Lemma header_page_logo :
  extract_logo urljoin no_markup base header_page
  = Return (Some (u "https://x.co/img/mark.png")).
Proof. vm_compute. reflexivity. Defined.

Lemma logo_source_sample :
  extract_logo urljoin no_markup base header_page
  = Return (Some (u "https://x.co/img/mark.png"))
  /\ (from_image urljoin base header_page (u "https://x.co/img/mark.png")
      \/ from_svg no_markup header_page (u "https://x.co/img/mark.png")).
Proof.
  split; [exact header_page_logo|].
  exact (@extract_logo_source urljoin no_markup base header_page
           (u "https://x.co/img/mark.png") header_page_logo).
Defined.

(** Two images: the first is named logo by its id, the second by its
    class, which the first rule looks at. *)
Definition second_image : node :=
  Elem (u "img") [(u "class", u "Site-Logo big"); (u "src", u "/b.png")] [].

Definition two_images : soup :=
  [Elem (u "img") [(u "id", u "logo"); (u "src", u "/a.png")] []; second_image].

Lemma two_images_first_by_class :
  find_first (fun n => (is_tag [u "img"] n && class_re logo_re n)
                       && has_attr (u "src") n) (nodes_of two_images)
  = Some second_image.
Proof. vm_compute. reflexivity. Defined.

Lemma logo_class_first_sample :
  find_first (fun n => (is_tag [u "img"] n && class_re logo_re n)
                       && has_attr (u "src") n) (nodes_of two_images)
  = Some second_image
  /\ extract_logo urljoin no_markup base two_images
     = match urljoin base (item (u "src") second_image) with
       | Return logo_url => Return (Some logo_url)
       | Raise e => Raise e
       end.
Proof.
  split; [exact two_images_first_by_class|].
  exact (@extract_logo_class_first urljoin no_markup base two_images
           second_image two_images_first_by_class).
Defined.

Example two_images_logo :
  extract_logo urljoin no_markup base two_images
  = Return (Some (u "https://x.co/b.png")).
Proof. vm_compute. reflexivity. Qed.

(** ** Keywords *)

(** A page whose keywords end with a comma: the last item is empty. *)
Definition keywords_page : soup :=
  [Elem (u "meta") [(u "name", u "keywords"); (u "content", u " law , tax ,")] []].

Lemma keywords_page_domain :
  extract_domain keywords_page = VList [u "law"; u "tax"; []].
Proof. vm_compute. reflexivity. Defined.

Lemma domain_items_sample :
  extract_domain keywords_page = VList [u "law"; u "tax"; []]
  /\ [u "law"; u "tax"; []] <> []
  /\ Forall trimmed [u "law"; u "tax"; []].
Proof.
  split; [exact keywords_page_domain|].
  exact (@extract_domain_items keywords_page [u "law"; u "tax"; []]
           keywords_page_domain).
Defined.

End MoreRuns.
